(** * BeeClock: the logical time kernel

    A shallow embedding of the Rust clock core of obiverse/beeclock
    (crates/beeclock-core and the beeclock-wasm bridge) as it is listed in
    the repository's treatise on the Rust-WASM clock core, and the
    properties its specification states about it; then of the callers of
    the clock: the Angular service and clock page, the demo page, the Game
    of Life skin and the skin registry.

    Conventions.
    - A [u64] is an [N]; wrap-around is written out with [mod 2^64].
    - A Rust panic (division by zero in [%]) is the [None] of [option].
    - [Result<T, E>] is [Result E T] with constructors [Ok] and [Err].
    - [BTreeSet<String>] is [gset string]; a [Vec] is a [list].
    - A JavaScript exception is [None], [undefined] the [None] of a lookup;
      a [Map] is an association list in insertion order. *)

From Stdlib Require Import NArith ZArith Lia DecimalString.
From stdpp Require Import base option list gmap strings.

Local Open Scope string_scope.
Local Open Scope list_scope.
Local Open Scope N_scope.

(** Linear arithmetic over [N] with [/] and [mod]. *)
Ltac nlia := zify; Z.to_euclidean_division_equations; lia.

(** ** Results *)

Inductive Result (E T : Type) : Type :=
  | Ok (t : T)
  | Err (e : E).
Arguments Ok {E T} t.
Arguments Err {E T} e.

Definition is_ok {E T} (r : Result E T) : bool :=
  match r with Ok _ => true | Err _ => false end.

(** ** 64-bit unsigned arithmetic *)

Module U64.

Definition modulus : N := 2 ^ 64.
Definition MAX : N := 2 ^ 64 - 1.

Definition in_range (x : N) : Prop := x < modulus.

(** [u64::wrapping_add]. *)
Definition wrapping_add (a b : N) : N := (a + b) mod modulus.

(** [u64::overflowing_add]: the wrapped sum and whether it wrapped. *)
Definition overflowing_add (a b : N) : N * bool :=
  ((a + b) mod modulus, modulus <=? a + b).

End U64.

(** ** Partitions (partition.rs) *)

(** [PartitionSpec { name, modulus }], what the builder accumulates. *)
Record PartitionSpec : Type := mkPartitionSpec {
  spec_name : string;
  spec_modulus : N;
}.

(** [PartitionState { name, value, modulus }], one mixed-radix digit. *)
Record PartitionState : Type := mkPartitionState {
  part_name : string;
  part_value : N;
  part_modulus : N;
}.

Inductive PartitionOrder : Type :=
  | LeastSignificantFirst
  | MostSignificantFirst.

Definition set_value (p : PartitionState) (v : N) : PartitionState :=
  {| part_name := part_name p; part_value := v; part_modulus := part_modulus p |}.

(** [PartitionState::increment]:
<<
    self.value += 1;
    if self.value >= self.modulus { self.value = 0; true } else { false }
>>
    The [+=] is a [u64] addition; [increment_no_wrap] below shows that it
    stays below [2^64] whenever the partition invariant holds, so the
    wrap-around written here is never taken on a running clock. *)
Definition increment (p : PartitionState) : PartitionState * bool :=
  let v := U64.wrapping_add (part_value p) 1 in
  if part_modulus p <=? v then (set_value p 0, true) else (set_value p v, false).

(** The loop of [Clock::advance_partitions] over the partitions in visiting
    order, with its [carry] variable:
<<
    for partition in ... { if !carry { break; } carry = partition.increment(); }
>>
    The result lists the partitions in the same (visiting) order. *)
Fixpoint advance_loop (carry : bool) (ps : list PartitionState) : list PartitionState :=
  match ps with
  | [] => []
  | p :: rest =>
      if carry
      then let '(p', carry') := increment p in p' :: advance_loop carry' rest
      else p :: rest
  end.

(** [Clock::advance_partitions]: [carry] starts [true]; the partitions are
    visited front to back under [LeastSignificantFirst] and back to front
    ([iter_mut().rev()]) under [MostSignificantFirst]. *)
Definition advance_partitions (order : PartitionOrder) (ps : list PartitionState)
  : list PartitionState :=
  match order with
  | LeastSignificantFirst => advance_loop true ps
  | MostSignificantFirst => reverse (advance_loop true (reverse ps))
  end.

(** The partition invariant [0 <= value < modulus]. *)
Definition partition_ok (p : PartitionState) : Prop :=
  part_value p < part_modulus p.

(** ** Snapshots (snapshot.rs) *)

(** [ClockSnapshot { tick, epoch, partitions }]. *)
Record ClockSnapshot : Type := mkClockSnapshot {
  snap_tick : N;
  snap_epoch : N;
  snap_partitions : list PartitionState;
}.

(** Modelled from the spec: [ClockSnapshot::partition(name)], declared in the
    API reference as [fn partition(&self, name: &str) -> Option<&PartitionState>]
    ("get partition by name"); its body is not part of the listing. Partitions
    are addressed by name, so it is the partition of that name, if any. *)
Definition partition (snapshot : ClockSnapshot) (name : string) : option PartitionState :=
  List.find (fun p => String.eqb (part_name p) name) (snap_partitions snapshot).

(** ** Pulse conditions (condition.rs) *)

#[warnings="-register-all"] Inductive PulseCondition : Type :=
  | Every (period : N)
  | PartitionEquals (name : string) (value : N)
  | PartitionModulo (name : string) (modulus remainder : N)
  | TickRange (start end_ : N)
  | Not (c : PulseCondition)
  | And (cs : list PulseCondition)
  | Or (cs : list PulseCondition).

(** The [%] of [u64]: it panics when the divisor is zero. *)
Definition rem (a b : N) : option N :=
  if b =? 0 then None else Some (a mod b).

Section Iterators.
Context {A : Type} (f : A -> option bool).

(** [iter().all(f)]: stops at the first [false]. *)
Fixpoint iter_all (l : list A) : option bool :=
  match l with
  | [] => Some true
  | x :: rest => b ← f x; if b : bool then iter_all rest else Some false
  end.

(** [iter().any(f)]: stops at the first [true]. *)
Fixpoint iter_any (l : list A) : option bool :=
  match l with
  | [] => Some false
  | x :: rest => b ← f x; if b : bool then Some true else iter_any rest
  end.

End Iterators.

(** [PulseCondition::is_met]. [&&] evaluates its right operand only when the
    left one is [true]. *)
Fixpoint is_met (c : PulseCondition) (tick : N) (snapshot : ClockSnapshot) : option bool :=
  match c with
  | Every period =>
      if negb (tick =? 0) then r ← rem tick period; Some (r =? 0) else Some false
  | PartitionEquals name value =>
      Some (from_option (fun p => part_value p =? value) false (partition snapshot name))
  | PartitionModulo name modulus remainder =>
      match partition snapshot name with
      | Some p =>
          if negb (modulus =? 0)
          then r ← rem (part_value p) modulus; Some (r =? remainder)
          else Some false
      | None => Some false
      end
  | TickRange start end_ => Some ((start <=? tick) && (tick <=? end_))
  | Not c' => b ← is_met c' tick snapshot; Some (negb b)
  | And cs =>
      if bool_decide (cs = [])
      then Some false
      else iter_all (fun c' => is_met c' tick snapshot) cs
  | Or cs => iter_any (fun c' => is_met c' tick snapshot) cs
  end.

(** ** Pulses (pulse.rs) *)

Record PulseSpec : Type := mkPulseSpec {
  pulse_name : string;
  pulse_condition : PulseCondition;
}.

Record PulseFired : Type := mkPulseFired {
  fired_name : string;
  fired_tick : N;
  fired_epoch : N;
}.

Record TickOutcome : Type := mkTickOutcome {
  out_snapshot : ClockSnapshot;
  out_pulses : list PulseFired;
  out_overflowed : bool;
}.

(** ** The clock (clock.rs) *)

(** [Clock]. The subscriber list, present only under the [std] feature, only
    receives copies of the outcome and is left out. *)
Record Clock : Type := mkClock {
  clock_tick : N;
  clock_epoch : N;
  clock_partitions : list PartitionState;
  clock_partition_order : PartitionOrder;
  clock_pulses : list PulseSpec;
}.

Definition tick_count (self : Clock) : N := clock_tick self.
Definition epoch (self : Clock) : N := clock_epoch self.

(** Modelled from the spec: [Clock::snapshot], declared in the API reference
    ("get immutable state capture"); a copy of tick, epoch and partitions. *)
Definition snapshot (self : Clock) : ClockSnapshot :=
  {| snap_tick := clock_tick self;
     snap_epoch := clock_epoch self;
     snap_partitions := clock_partitions self |}.

Definition OVERFLOW_PULSE : string := "__overflow__".

(** The pulse loop of [Clock::tick]:
<<
    for pulse in &self.pulses {
        if pulse.condition.is_met(self.tick, &snapshot) { fired.push(...) }
    }
>> *)
Fixpoint evaluate_pulses (pulses : list PulseSpec) (tick epoch : N)
    (snapshot : ClockSnapshot) : option (list PulseFired) :=
  match pulses with
  | [] => Some []
  | pulse :: rest =>
      b ← is_met (pulse_condition pulse) tick snapshot;
      fired ← evaluate_pulses rest tick epoch snapshot;
      Some (if b : bool
            then {| fired_name := pulse_name pulse; fired_tick := tick;
                    fired_epoch := epoch |} :: fired
            else fired)
  end.

(** [Clock::tick]: the clock after the step and the outcome; [None] when a
    condition panics. *)
Definition tick (self : Clock) : option (Clock * TickOutcome) :=
  let '(next_tick, overflowed) := U64.overflowing_add (clock_tick self) 1 in
  let next_epoch :=
    if overflowed then U64.wrapping_add (clock_epoch self) 1 else clock_epoch self in
  let self' :=
    {| clock_tick := next_tick;
       clock_epoch := next_epoch;
       clock_partitions :=
         advance_partitions (clock_partition_order self) (clock_partitions self);
       clock_partition_order := clock_partition_order self;
       clock_pulses := clock_pulses self |} in
  let snap := snapshot self' in
  fired ← evaluate_pulses (clock_pulses self') next_tick next_epoch snap;
  let fired' :=
    if overflowed
    then fired ++ [{| fired_name := OVERFLOW_PULSE; fired_tick := next_tick;
                      fired_epoch := next_epoch |}]
    else fired in
  Some (self', {| out_snapshot := snap; out_pulses := fired';
                  out_overflowed := overflowed |}).

(** The clock after one call of [tick], and after [n] calls. *)
Definition step (self : Clock) : option Clock := fst <$> tick self.

Definition run (n : N) (self : Clock) : option Clock :=
  N.iter n (fun c => c ≫= step) (Some self).

(** ** Errors (error.rs) *)

(** [ClockError], the six variants of the listing. *)
Inductive ClockError : Type :=
  | ZeroModulus (name : string)
  | ZeroPeriod (name : string)
  | ZeroConditionModulus (pulse partition : string)
  | UnknownPartition (pulse partition : string)
  | InvalidTickRange (pulse : string) (start end_ : N)
  | MissingPartitionOrder.

(** The [?] operator on a [Result<(), ClockError>]. *)
Definition and_then {E T U} (r : Result E T) (k : T -> Result E U) : Result E U :=
  match r with
  | Ok t => k t
  | Err e => Err e
  end.

Notation "r ;;? k" := (and_then r (fun _ => k))
  (at level 62, right associativity, only parsing).

Section Validation.
Context {A E : Type} (f : A -> Result E unit).

(** [for c in cs { f(c)?; } Ok(())]. *)
Fixpoint try_each (l : list A) : Result E unit :=
  match l with
  | [] => Ok ()
  | x :: rest => f x ;;? try_each rest
  end.

End Validation.

(** [validate_condition]; the arms of the [match] are tried in order, each
    with its guard. *)
Fixpoint validate_condition (condition : PulseCondition) (partitions : gset string)
    (pulse_name : string) : Result ClockError unit :=
  match condition with
  | Every period =>
      if period =? 0 then Err (ZeroPeriod pulse_name) else Ok ()
  | PartitionEquals name _ =>
      if bool_decide (name ∈ partitions) then Ok ()
      else Err (UnknownPartition pulse_name name)
  | PartitionModulo name modulus _ =>
      if negb (bool_decide (name ∈ partitions))
      then Err (UnknownPartition pulse_name name)
      else if modulus =? 0 then Err (ZeroConditionModulus pulse_name name)
      else Ok ()
  | TickRange start end_ =>
      if end_ <? start then Err (InvalidTickRange pulse_name start end_) else Ok ()
  | Not inner => validate_condition inner partitions pulse_name
  | And cs | Or cs =>
      try_each (fun c => validate_condition c partitions pulse_name) cs
  end.

(** ** The builder (clock.rs, builder.rs) *)

(** The builder's fields, as in [WasmClockBuilder]. *)
Record ClockBuilder : Type := mkClockBuilder {
  builder_partitions : list PartitionSpec;
  builder_pulses : list PulseSpec;
  builder_order : option PartitionOrder;
}.

Definition new : ClockBuilder :=
  {| builder_partitions := []; builder_pulses := []; builder_order := None |}.

(** [partition(name, modulus)]: [self.partitions.push(PartitionSpec { .. })]. *)
Definition add_partition (name : string) (modulus : N) (b : ClockBuilder) : ClockBuilder :=
  {| builder_partitions := builder_partitions b ++ [mkPartitionSpec name modulus];
     builder_pulses := builder_pulses b;
     builder_order := builder_order b |}.

Definition pulse_when (name : string) (condition : PulseCondition) (b : ClockBuilder)
  : ClockBuilder :=
  {| builder_partitions := builder_partitions b;
     builder_pulses := builder_pulses b ++ [mkPulseSpec name condition];
     builder_order := builder_order b |}.

Definition pulse_every (name : string) (period : N) (b : ClockBuilder) : ClockBuilder :=
  pulse_when name (Every period) b.

Definition partition_order (order : PartitionOrder) (b : ClockBuilder) : ClockBuilder :=
  {| builder_partitions := builder_partitions b;
     builder_pulses := builder_pulses b;
     builder_order := Some order |}.

Definition least_significant_first : ClockBuilder -> ClockBuilder :=
  partition_order LeastSignificantFirst.
Definition most_significant_first : ClockBuilder -> ClockBuilder :=
  partition_order MostSignificantFirst.

Definition partition_names (b : ClockBuilder) : list string :=
  spec_name <$> builder_partitions b.

Definition pulse_names (b : ClockBuilder) : list string :=
  pulse_name <$> builder_pulses b.

(** Modelled from the spec: the freshly built clock. The body of [build] is
    not part of the listing; a built clock starts at tick 0 and epoch 0 with
    every partition at value 0, in registration order. *)
Definition fresh_clock (partitions : list PartitionSpec) (order : PartitionOrder)
    (pulses : list PulseSpec) : Clock :=
  {| clock_tick := 0;
     clock_epoch := 0;
     clock_partitions :=
       (fun s => mkPartitionState (spec_name s) 0 (spec_modulus s)) <$> partitions;
     clock_partition_order := order;
     clock_pulses := pulses |}.

Definition ensure {E : Type} (ok : bool) (e : E) : Result E unit :=
  if ok then Ok () else Err e.

(** Modelled from the spec: what [build] reports. The specification's
    enumeration of construction-time failures has, besides the six variants
    of the listed [ClockError], [DuplicatePartitionName] and
    [DuplicatePulseName], for which the listed enum has no variant. *)
Inductive BuildError : Type :=
  | Invalid (e : ClockError)
  | DuplicatePartitionName
  | DuplicatePulseName.

(** A [ClockError] as a failure of [build]. *)
Definition invalid {T : Type} (r : Result ClockError T) : Result BuildError T :=
  match r with
  | Ok t => Ok t
  | Err e => Err (Invalid e)
  end.

(** Modelled from the spec: [ClockBuilder::build], whose body is not part of
    the listing ("validation and construction"). It performs, in this order,
    and aborts on the first violation: (1) reject duplicate partition names;
    (2) reject any modulus equal to 0; (3) require an explicit order
    selection whenever at least one partition is registered; (4) validate
    every pulse's condition tree with [validate_condition]; (5) reject
    duplicate pulse names. On success the configuration is frozen into a
    clock. With no partition and no order selected the order is immaterial
    and [LeastSignificantFirst] stands in for it. *)
Definition build (b : ClockBuilder) : Result BuildError Clock :=
  ensure (bool_decide (NoDup (partition_names b))) DuplicatePartitionName ;;?
  invalid (try_each (fun s => ensure (negb (spec_modulus s =? 0))
                                     (ZeroModulus (spec_name s)))
                    (builder_partitions b)) ;;?
  invalid (ensure (bool_decide (builder_partitions b = [])
                   || bool_decide (is_Some (builder_order b)))
                  MissingPartitionOrder) ;;?
  invalid (try_each (fun p => validate_condition (pulse_condition p)
                                (list_to_set (partition_names b)) (pulse_name p))
                    (builder_pulses b)) ;;?
  ensure (bool_decide (NoDup (pulse_names b))) DuplicatePulseName ;;?
  Ok (fresh_clock (builder_partitions b)
                  (default LeastSignificantFirst (builder_order b))
                  (builder_pulses b)).

(** ** The host bridge (beeclock-wasm) *)

(** *** Condition literals (bridge.rs) *)

(** The JavaScript values a condition literal is made of. A [JsNumber] is an
    integral numeric value (the bridge reads [<uint>] fields from it). *)
#[warnings="-register-all"] Inductive JsValue : Type :=
  | JsUndefined
  | JsBool (b : bool)
  | JsNumber (n : Z)
  | JsString (s : string)
  | JsArray (items : list JsValue)
  | JsObject (fields : list (string * JsValue)).

(** What the bridge raises; the listing raises the messages
    ["type must be string"] and ["unknown condition type"], and [Reflect::get]
    raises a [TypeError] when its target is not an object. *)
Inductive BridgeError : Type :=
  | TypeMustBeString
  | UnknownConditionType
  | NotAnObject
  | MalformedField (key : string).

Section Fields.
Context {R : Type} (k : JsValue -> R) (absent : R) (key : string).

(** Apply [k] to the property [key] of an object, [absent] when the object
    has no such property. *)
Fixpoint with_field (fields : list (string * JsValue)) : R :=
  match fields with
  | [] => absent
  | (key', v) :: rest => if String.eqb key' key then k v else with_field rest
  end.

End Fields.

(** [Reflect::get(&obj, key)] on an object: a missing property reads as
    [undefined]. *)
Definition reflect_get (fields : list (string * JsValue)) (key : string) : JsValue :=
  with_field id JsUndefined key fields.

(** Modelled from the spec: [get_u64(&obj, key)], called by the listing but
    not part of it; the field must hold a [<uint>], otherwise the field is
    malformed. *)
Definition get_u64 (fields : list (string * JsValue)) (key : string)
  : Result BridgeError N :=
  match reflect_get fields key with
  | JsNumber n =>
      if bool_decide (0 <= n < 2 ^ 64)%Z then Ok (Z.to_N n) else Err (MalformedField key)
  | _ => Err (MalformedField key)
  end.

(** Modelled from the spec: [get_string(&obj, key)], called by the listing
    but not part of it; the field must hold a [<string>]. *)
Definition get_string (fields : list (string * JsValue)) (key : string)
  : Result BridgeError string :=
  match reflect_get fields key with
  | JsString s => Ok s
  | _ => Err (MalformedField key)
  end.

Section Collect.
Context {A B E : Type} (f : A -> Result E B).

(** [iter().map(f).collect::<Result<Vec<_>, _>>()]. *)
Fixpoint try_map (l : list A) : Result E (list B) :=
  match l with
  | [] => Ok []
  | x :: rest =>
      and_then (f x) (fun y => and_then (try_map rest) (fun ys => Ok (y :: ys)))
  end.

End Collect.

(** [parse_condition]. The string [kind] is matched against the five
    discriminators of the listing; anything else is the [_] arm. The two
    helpers that recur into the literal are written in place:
    [get_conditions(&obj)] (modelled from the spec: the [conditions] field
    must hold an array, each element of which is parsed) and the [condition]
    field of a [not], which is parsed whatever it holds. *)
Fixpoint parse_condition (value : JsValue) : Result BridgeError PulseCondition :=
  match value with
  | JsObject obj =>
      let get_conditions :=
        with_field
          (fun v => match v with
                    | JsArray items => try_map parse_condition items
                    | _ => Err (MalformedField "conditions")
                    end)
          (Err (MalformedField "conditions")) "conditions" obj in
      match reflect_get obj "type" with
      | JsString kind =>
          if String.eqb kind "every" then
            and_then (get_u64 obj "period") (fun period => Ok (Every period))
          else if String.eqb kind "partition_equals" then
            and_then (get_string obj "name") (fun name =>
            and_then (get_u64 obj "value") (fun value =>
            Ok (PartitionEquals name value)))
          else if String.eqb kind "and" then
            and_then get_conditions (fun cs => Ok (And cs))
          else if String.eqb kind "or" then
            and_then get_conditions (fun cs => Ok (Or cs))
          else if String.eqb kind "not" then
            and_then (with_field parse_condition (Err NotAnObject) "condition" obj)
                     (fun c => Ok (Not c))
          else Err UnknownConditionType
      | _ => Err TypeMustBeString
      end
  | JsArray _ => Err TypeMustBeString
  | _ => Err NotAnObject
  end.

(** The condition a literal denotes according to the grammar of the
    specification, one case per [type] discriminator:
<<
    { type: "every", period: <uint> }
    { type: "partition_equals", name: <string>, value: <uint> }
    { type: "partition_modulo", name: <string>, modulus: <uint>, remainder: <uint> }
    { type: "tick_range", start: <uint>, end: <uint> }
    { type: "not", condition: <Condition> }
    { type: "and", conditions: <Condition[]> }
    { type: "or", conditions: <Condition[]> }
>> *)
Fixpoint literal_condition (value : JsValue) : Result BridgeError PulseCondition :=
  match value with
  | JsObject obj =>
      let conditions :=
        with_field
          (fun v => match v with
                    | JsArray items => try_map literal_condition items
                    | _ => Err (MalformedField "conditions")
                    end)
          (Err (MalformedField "conditions")) "conditions" obj in
      match reflect_get obj "type" with
      | JsString kind =>
          if String.eqb kind "every" then
            and_then (get_u64 obj "period") (fun period => Ok (Every period))
          else if String.eqb kind "partition_equals" then
            and_then (get_string obj "name") (fun name =>
            and_then (get_u64 obj "value") (fun value =>
            Ok (PartitionEquals name value)))
          else if String.eqb kind "partition_modulo" then
            and_then (get_string obj "name") (fun name =>
            and_then (get_u64 obj "modulus") (fun modulus =>
            and_then (get_u64 obj "remainder") (fun remainder =>
            Ok (PartitionModulo name modulus remainder))))
          else if String.eqb kind "tick_range" then
            and_then (get_u64 obj "start") (fun start =>
            and_then (get_u64 obj "end") (fun end_ =>
            Ok (TickRange start end_)))
          else if String.eqb kind "not" then
            and_then (with_field literal_condition (Err NotAnObject) "condition" obj)
                     (fun c => Ok (Not c))
          else if String.eqb kind "and" then
            and_then conditions (fun cs => Ok (And cs))
          else if String.eqb kind "or" then
            and_then conditions (fun cs => Ok (Or cs))
          else Err UnknownConditionType
      | _ => Err TypeMustBeString
      end
  | JsArray _ => Err TypeMustBeString
  | _ => Err NotAnObject
  end.

(** [WasmClockBuilder::pulse_condition(name, condition)]: the literal is
    parsed once, at registration. *)
Definition pulse_condition_literal (name : string) (condition : JsValue) (b : ClockBuilder)
  : Result BridgeError ClockBuilder :=
  and_then (parse_condition condition) (fun c => Ok (pulse_when name c b)).

(** *** The raw-buffer path (clock.rs of beeclock-wasm)

    The bodies of the raw-buffer exports are not part of the listing; the
    JavaScript glue only forwards to them. They are modelled from the buffer
    layout the specification and the demo's README document. Buffers are
    [Uint32Array]s: lists of 32-bit words. *)

Definition WORD : N := 2 ^ 32.

(** The low and the high word of a [u64]: [x as u32] and [(x >> 32) as u32]. *)
Definition lo32 (x : N) : N := N.land x (N.ones 32).
Definition hi32 (x : N) : N := N.land (N.shiftr x 32) (N.ones 32).

Definition lo_hi (x : N) : list N := [lo32 x; hi32 x].

(** The [u64] a (low, high) word pair stands for. *)
Definition of_lo_hi (lo hi : N) : N := lo + hi * WORD.

(** Modelled from the spec: [raw_snapshot_len], the number of words a
    snapshot occupies: six header words and a word pair per partition. *)
Definition raw_snapshot_len (self : Clock) : nat :=
  6 + 2 * length (clock_partitions self).

(** Modelled from the spec: the words of a snapshot, in the documented order
    [[tick_lo, tick_hi, epoch_lo, epoch_hi, overflowed, partition_count,
      p0_lo, p0_hi, p1_lo, p1_hi, ...]]. *)
Definition snapshot_words (snap : ClockSnapshot) (overflowed : bool) : list N :=
  lo_hi (snap_tick snap) ++ lo_hi (snap_epoch snap)
  ++ [if overflowed then 1 else 0; N.of_nat (length (snap_partitions snap))]
  ++ flat_map (fun p => lo_hi (part_value p)) (snap_partitions snap).

(** Modelled from the spec: [partition_moduli_raw] writes each modulus as a
    (low, high) word pair in partition order. *)
Definition moduli_words (self : Clock) : list N :=
  flat_map (fun p => lo_hi (part_modulus p)) (clock_partitions self).

(** Writing [words] at the start of a caller-supplied buffer; the write is
    refused when the buffer is too short. *)
Definition write_words (words out : list N) : option (list N) :=
  if bool_decide (length words <= length out)%nat
  then Some (words ++ drop (length words) out)
  else None.

(** Modelled from the spec: [raw_pulse_words], the number of words of the
    pulse bitset: one bit per registered pulse, in registration order, and
    one reserved bit after them for the overflow pulse. *)
Definition raw_pulse_words (self : Clock) : nat :=
  (length (clock_pulses self) + 1 + 31) / 32.

(** One 32-bit word from (at most) 32 flags, bit [i] from flag [i]. *)
Fixpoint word_of_bits (bits : list bool) : N :=
  match bits with
  | [] => 0
  | b :: rest => N.lor (if b : bool then 1 else 0) (N.shiftl (word_of_bits rest) 1)
  end.

(** [nwords] words from a list of flags, 32 flags to the word. *)
Fixpoint pack_bits (nwords : nat) (bits : list bool) : list N :=
  match nwords with
  | O => []
  | S n => word_of_bits (take 32 bits) :: pack_bits n (drop 32 bits)
  end.

(** Bit [i] of a bitset. *)
Definition bit_at (words : list N) (i : nat) : bool :=
  N.testbit (default 0 (words !! (i / 32)%nat)) (N.of_nat (i mod 32)).

(** Which pulses are met, by index. *)
Fixpoint pulse_flags (pulses : list PulseSpec) (tick : N) (snap : ClockSnapshot)
  : option (list bool) :=
  match pulses with
  | [] => Some []
  | pulse :: rest =>
      b ← is_met (pulse_condition pulse) tick snap;
      bs ← pulse_flags rest tick snap;
      Some (b :: bs)
  end.

(** Modelled from the spec: [snapshot_raw(out)] writes the current snapshot;
    no step is taken, so the overflow word is 0. *)
Definition snapshot_raw (self : Clock) (out : list N) : option (list N) :=
  write_words (snapshot_words (snapshot self) false) out.

Definition partition_moduli_raw (self : Clock) (out : list N) : option (list N) :=
  write_words (moduli_words self) out.

(** Modelled from the spec: [tick_raw(snapshot_out, pulse_bits_out)] advances
    one step with the clock core and fills both buffers: the snapshot words
    of the new state with the step's overflow flag, and the bitset of the
    pulses met at the new state followed by the reserved overflow bit. *)
Definition tick_raw (self : Clock) (snapshot_out pulse_bits_out : list N)
  : option (Clock * list N * list N) :=
  '(self', outcome) ← tick self;
  flags ← pulse_flags (clock_pulses self') (clock_tick self') (snapshot self');
  snapshot_out' ←
    write_words (snapshot_words (snapshot self') (out_overflowed outcome)) snapshot_out;
  pulse_bits_out' ←
    write_words (pack_bits (raw_pulse_words self') (flags ++ [out_overflowed outcome]))
                pulse_bits_out;
  Some (self', snapshot_out', pulse_bits_out').

(** ** Vocabulary of the statements *)

(** All the nodes of a condition tree, the root first. *)
Fixpoint nodes (c : PulseCondition) : list PulseCondition :=
  c :: match c with
       | Not c' => nodes c'
       | And cs | Or cs => flat_map nodes cs
       | _ => []
       end.

(** What the builder requires of one node: a nonzero period, a registered
    partition name, a nonzero modulus, an ordered range. *)
Definition node_valid (partitions : gset string) (c : PulseCondition) : Prop :=
  match c with
  | Every period => period <> 0
  | PartitionEquals name _ => name ∈ partitions
  | PartitionModulo name modulus _ => name ∈ partitions /\ modulus <> 0
  | TickRange start end_ => start <= end_
  | Not _ | And _ | Or _ => True
  end.

Definition condition_valid (partitions : gset string) (c : PulseCondition) : Prop :=
  Forall (node_valid partitions) (nodes c).

(** No [Every] of the tree has period 0. *)
Definition no_zero_period (c : PulseCondition) : Prop := Every 0 ∉ nodes c.

(** What the specification lists as necessary and sufficient for [build]
    to succeed: positive moduli, unique partition names, unique pulse
    names, and in every condition tree registered partition names, ordered
    tick ranges and nonzero periods and moduli. *)
Definition builder_valid (b : ClockBuilder) : Prop :=
  Forall (fun s => 0 < spec_modulus s) (builder_partitions b) /\
  NoDup (partition_names b) /\
  NoDup (pulse_names b) /\
  Forall (fun p => condition_valid (list_to_set (partition_names b)) (pulse_condition p))
         (builder_pulses b).

(** An order has been selected, or there is no partition to order. *)
Definition order_selected (b : ClockBuilder) : Prop :=
  builder_partitions b = [] \/ is_Some (builder_order b).

(** The violation of one node that an error of [validate_condition] reports. *)
Definition node_violation (partitions : gset string) (pulse : string)
    (node : PulseCondition) (e : ClockError) : Prop :=
  match e with
  | ZeroPeriod p => p = pulse /\ node = Every 0
  | UnknownPartition p name =>
      p = pulse /\ (name ∉ partitions) /\
      ((exists value, node = PartitionEquals name value) \/
       (exists modulus remainder, node = PartitionModulo name modulus remainder))
  | ZeroConditionModulus p name =>
      p = pulse /\ name ∈ partitions /\ exists remainder, node = PartitionModulo name 0 remainder
  | InvalidTickRange p start end_ =>
      p = pulse /\ node = TickRange start end_ /\ end_ < start
  | _ => False
  end.


(** The state [tick] leaves behind: counters stepped, partitions advanced. *)
Definition next_state (self : Clock) : Clock :=
  let '(next_tick, overflowed) := U64.overflowing_add (clock_tick self) 1 in
  {| clock_tick := next_tick;
     clock_epoch :=
       if overflowed then U64.wrapping_add (clock_epoch self) 1 else clock_epoch self;
     clock_partitions :=
       advance_partitions (clock_partition_order self) (clock_partitions self);
     clock_partition_order := clock_partition_order self;
     clock_pulses := clock_pulses self |}.

(** The reserved pulse record appended on overflow. *)
Definition overflow_fired (self : Clock) : PulseFired :=
  {| fired_name := OVERFLOW_PULSE; fired_tick := clock_tick self;
     fired_epoch := clock_epoch self |}.

(** The pulse records of the registered pulses met at a state. *)
Definition user_fired (self : Clock) : option (list PulseFired) :=
  evaluate_pulses (clock_pulses self) (clock_tick self) (clock_epoch self) (snapshot self).

(** What every state of a running clock satisfies: the partition invariant,
    conditions without zero periods, counters within [u64]. *)
Definition well_formed (self : Clock) : Prop :=
  Forall partition_ok (clock_partitions self) /\
  Forall (fun p => no_zero_period (pulse_condition p)) (clock_pulses self) /\
  U64.in_range (clock_tick self) /\
  U64.in_range (clock_epoch self).

(** The cascade as the specification words it, on the partitions listed from
    the least-significant end: the visited partition's value increments; if
    it reaches its modulus it resets to 0 and the next partition is visited;
    the first partition that does not carry stops the cascade. *)
Fixpoint cascade (ps : list PartitionState) : list PartitionState :=
  match ps with
  | [] => []
  | p :: rest =>
      if part_value p + 1 =? part_modulus p
      then set_value p 0 :: cascade rest
      else set_value p (part_value p + 1) :: rest
  end.

(** The least-significant end is position 0 under [LeastSignificantFirst]
    and the last position under [MostSignificantFirst]. *)
Definition cascade_in_order (order : PartitionOrder) (ps : list PartitionState)
  : list PartitionState :=
  match order with
  | LeastSignificantFirst => cascade ps
  | MostSignificantFirst => reverse (cascade (reverse ps))
  end.

(** The moduli handed to the builder are [u64] values. *)
Definition moduli_in_u64 (b : ClockBuilder) : Prop :=
  Forall (fun s => U64.in_range (spec_modulus s)) (builder_partitions b).

(** The values of the partitions of a clock, by name. *)
Definition partition_values (self : Clock) : list (string * N) :=
  (fun p => (part_name p, part_value p)) <$> clock_partitions self.

(** The clock of the cascade example: [sec:60, min:60], least significant
    first. *)
Definition sec_min : ClockBuilder :=
  add_partition "min" 60 (add_partition "sec" 60 (least_significant_first new)).

(** The same clock with a period-1 pulse. *)
Definition sec_min_beat : ClockBuilder := pulse_every "beat" 1 sec_min.

(** A builder with one partition and no order selection. *)
Definition only_partition : ClockBuilder := add_partition "sec" 60 new.

(** A snapshot at tick 1 of a clock without partitions. *)
Definition bare_snapshot : ClockSnapshot :=
  {| snap_tick := 1; snap_epoch := 0; snap_partitions := [] |}.

(** Two literals of the grammar: a tick range and a partition modulo. *)
Definition tick_range_literal : JsValue :=
  JsObject [("type", JsString "tick_range"); ("start", JsNumber 0); ("end", JsNumber 100)].

Definition partition_modulo_literal : JsValue :=
  JsObject [("type", JsString "partition_modulo"); ("name", JsString "min");
            ("modulus", JsNumber 15); ("remainder", JsNumber 0)].

(** The literal of the treatise's example, with a negation added. *)
Definition noon_literal : JsValue :=
  JsObject [("type", JsString "and");
            ("conditions",
             JsArray [JsObject [("type", JsString "partition_equals");
                                ("name", JsString "hour"); ("value", JsNumber 12)];
                      JsObject [("type", JsString "not");
                                ("condition",
                                 JsObject [("type", JsString "every");
                                           ("period", JsNumber 5)])]])].

(** *** Reading the raw buffers back

    What the host reads from the buffers, field by field, following the
    documented layout. *)

(** [count] values from their (low, high) word pairs. *)
Fixpoint decode_pairs (count : nat) (words : list N) : list N :=
  match count, words with
  | S count', lo :: hi :: rest => of_lo_hi lo hi :: decode_pairs count' rest
  | _, _ => []
  end.

(** The fields of one step as the two paths report them. *)
Record StepFields : Type := mkStepFields {
  field_tick : N;
  field_epoch : N;
  field_overflowed : bool;
  field_values : list N;
  field_pulses : list string;
}.

(** The names whose flag is set. *)
Fixpoint select (flags : list bool) (names : list string) : list string :=
  match flags, names with
  | b :: flags', name :: names' =>
      if b then name :: select flags' names' else select flags' names'
  | _, _ => []
  end.

(** The names whose bit is set, from bit [i] on, then the reserved name if
    the bit after the last name is set. *)
Fixpoint fired_from (i : nat) (names : list string) (words : list N) : list string :=
  match names with
  | [] => if bit_at words i then [OVERFLOW_PULSE] else []
  | name :: rest =>
      if bit_at words i then name :: fired_from (S i) rest words
      else fired_from (S i) rest words
  end.

(** The fields read from a snapshot buffer and a pulse bitset, the pulse
    names being known from the construction. *)
Definition decode_raw (names : list string) (snapshot_out pulse_bits_out : list N)
  : option StepFields :=
  match snapshot_out with
  | tick_lo :: tick_hi :: epoch_lo :: epoch_hi :: overflowed :: count :: rest =>
      Some {| field_tick := of_lo_hi tick_lo tick_hi;
              field_epoch := of_lo_hi epoch_lo epoch_hi;
              field_overflowed := negb (overflowed =? 0);
              field_values := decode_pairs (N.to_nat count) rest;
              field_pulses := fired_from 0 names pulse_bits_out |}
  | _ => None
  end.

(** The same fields of a rich [TickOutcome]. *)
Definition outcome_fields (outcome : TickOutcome) : StepFields :=
  {| field_tick := snap_tick (out_snapshot outcome);
     field_epoch := snap_epoch (out_snapshot outcome);
     field_overflowed := out_overflowed outcome;
     field_values := part_value <$> snap_partitions (out_snapshot outcome);
     field_pulses := fired_name <$> out_pulses outcome |}.

(** [n] steps on the raw path, the buffers being reused from step to step. *)
Definition run_raw (n : N) (self : Clock) (snapshot_out pulse_bits_out : list N)
  : option (Clock * list N * list N) :=
  N.iter n (fun st => '(c, s, p) ← st; tick_raw c s p)
         (Some (self, snapshot_out, pulse_bits_out)).

(** The demo clock of the bridge: [sec], [min], a period-1 and a period-5
    pulse. *)
Definition raw_demo : ClockBuilder :=
  pulse_every "five" 5 (pulse_every "one" 1 sec_min).


(** The errors [validate_condition] reports. *)
Definition condition_error (e : ClockError) : Prop :=
  match e with
  | ZeroPeriod _ | UnknownPartition _ _ | ZeroConditionModulus _ _
  | InvalidTickRange _ _ _ => True
  | _ => False
  end.

(** ** Vocabulary of the further properties *)

(** The digits of [n] in the mixed radix of [moduli], least significant
    digit first. *)
Fixpoint digits (moduli : list N) (n : N) : list N :=
  match moduli with
  | [] => []
  | m :: rest => n mod m :: digits rest (n / m)
  end.

(** The digits in the storage order of the partitions. *)
Definition digits_in_order (order : PartitionOrder) (moduli : list N) (n : N) : list N :=
  match order with
  | LeastSignificantFirst => digits moduli n
  | MostSignificantFirst => reverse (digits (reverse moduli) n)
  end.

(** The partitions with their values set to the digits of [n]. *)
Fixpoint set_digits (ps : list PartitionState) (n : N) : list PartitionState :=
  match ps with
  | [] => []
  | p :: rest => set_value p (n mod part_modulus p) :: set_digits rest (n / part_modulus p)
  end.

(** The product of the moduli: the number of states of the partitions. *)
Definition cycle_length (moduli : list N) : N := foldr N.mul 1 moduli.

(** A partition at value 0 whose modulus is a nonzero [u64]. *)
Definition partition_at_zero (p : PartitionState) : Prop :=
  part_value p = 0 /\ 0 < part_modulus p /\ U64.in_range (part_modulus p).

(** The pulse an error of [validate_condition] names. *)
Definition error_pulse (e : ClockError) : option string :=
  match e with
  | ZeroPeriod pulse | ZeroConditionModulus pulse _ | UnknownPartition pulse _
  | InvalidTickRange pulse _ _ => Some pulse
  | _ => None
  end.

(** *** The literal constructors of the demo (main.js) *)

Definition js_every (period : JsValue) : JsValue :=
  JsObject [("type", JsString "every"); ("period", period)].

Definition js_partition_equals (name value : JsValue) : JsValue :=
  JsObject [("type", JsString "partition_equals"); ("name", name); ("value", value)].

Definition js_partition_modulo (name modulus remainder : JsValue) : JsValue :=
  JsObject [("type", JsString "partition_modulo"); ("name", name);
            ("modulus", modulus); ("remainder", remainder)].

Definition js_tick_range (start end_ : JsValue) : JsValue :=
  JsObject [("type", JsString "tick_range"); ("start", start); ("end", end_)].

Definition js_not (condition : JsValue) : JsValue :=
  JsObject [("type", JsString "not"); ("condition", condition)].

Definition js_and (conditions : JsValue) : JsValue :=
  JsObject [("type", JsString "and"); ("conditions", conditions)].

Definition js_or (conditions : JsValue) : JsValue :=
  JsObject [("type", JsString "or"); ("conditions", conditions)].

(** The literal these constructors build for a condition. *)
Fixpoint to_literal (c : PulseCondition) : JsValue :=
  match c with
  | Every period => js_every (JsNumber (Z.of_N period))
  | PartitionEquals name value =>
      js_partition_equals (JsString name) (JsNumber (Z.of_N value))
  | PartitionModulo name modulus remainder =>
      js_partition_modulo (JsString name) (JsNumber (Z.of_N modulus))
                          (JsNumber (Z.of_N remainder))
  | TickRange start end_ =>
      js_tick_range (JsNumber (Z.of_N start)) (JsNumber (Z.of_N end_))
  | Not c' => js_not (to_literal c')
  | And cs => js_and (JsArray (to_literal <$> cs))
  | Or cs => js_or (JsArray (to_literal <$> cs))
  end.

(** The numbers of a node are [u64] values. *)
Definition node_in_u64 (c : PulseCondition) : Prop :=
  match c with
  | Every period => U64.in_range period
  | PartitionEquals _ value => U64.in_range value
  | PartitionModulo _ modulus remainder => U64.in_range modulus /\ U64.in_range remainder
  | TickRange start end_ => U64.in_range start /\ U64.in_range end_
  | Not _ | And _ | Or _ => True
  end.

Definition numbers_in_u64 (c : PulseCondition) : Prop := Forall node_in_u64 (nodes c).

(** The condition is made of the five variants [parse_condition] has an arm
    for. *)
Fixpoint parser_knows (c : PulseCondition) : bool :=
  match c with
  | Every _ | PartitionEquals _ _ => true
  | PartitionModulo _ _ _ | TickRange _ _ => false
  | Not c' => parser_knows c'
  | And cs | Or cs => forallb parser_knows cs
  end.

(** ** The callers of the clock *)

(** *** ClockService (core/clock/clock.ts) *)

(** The state of the service: the clock ([None] for [null], until [start]
    has built it) and its three signals. *)
Record ClockService : Type := mkClockService {
  service_clock : option Clock;
  service_ready : bool;
  service_snapshot : option ClockSnapshot;
  service_pulses : list PulseFired;
}.

Definition service_new : ClockService :=
  {| service_clock := None; service_ready := false;
     service_snapshot := None; service_pulses := [] |}.

(** The builder calls of [start]: order [lsf], then [sec], [min], [hour]. *)
Definition start_builder : ClockBuilder :=
  add_partition "hour" 24
    (add_partition "min" 60 (add_partition "sec" 60 (least_significant_first new))).

(** [start]: build the clock, publish its first snapshot, set [ready]. An
    error of [build] is thrown and leaves no state. *)
Definition start (s : ClockService) : Result BuildError ClockService :=
  and_then (build start_builder) (fun clock =>
    Ok {| service_clock := Some clock; service_ready := true;
          service_snapshot := Some (snapshot clock);
          service_pulses := service_pulses s |}).

(** One run of the effect of the constructor, on the engine tick it reads:
<<
    if (this.clock && tick > 0) {
      const outcome = this.clock.tick();
      this.snapshot.set(outcome.snapshot);
      this.pulses.set(outcome.pulses || []);
    }
>> *)
Definition on_engine_tick (engine_tick : N) (s : ClockService) : option ClockService :=
  match service_clock s with
  | Some clock =>
      if 0 <? engine_tick
      then '(clock', outcome) ← tick clock;
           Some {| service_clock := Some clock'; service_ready := service_ready s;
                   service_snapshot := Some (out_snapshot outcome);
                   service_pulses := out_pulses outcome |}
      else Some s
  | None => Some s
  end.

(** The effect run once for each engine tick of the list. *)
Fixpoint drive (engine_ticks : list N) (s : ClockService) : option ClockService :=
  match engine_ticks with
  | [] => Some s
  | t :: rest => on_engine_tick t s ≫= drive rest
  end.

(** *** The clock page (pages/clock/clock/clock.ts) *)

Record ClockTime : Type := mkClockTime {
  time_sec : N;
  time_min : N;
  time_hour : N;
}.

(** [ClockComponent.time]:
<<
    if (!snap?.partitions) return { sec: 0, min: 0, hour: 0 };
    const get = (name) => snap.partitions.find((p) => p.name === name)?.value ?? 0;
>> *)
Definition time (snap : option ClockSnapshot) : ClockTime :=
  match snap with
  | None => mkClockTime 0 0 0
  | Some snap =>
      let get name :=
        from_option part_value 0
          (List.find (fun p => String.eqb (part_name p) name) (snap_partitions snap)) in
      mkClockTime (get "sec") (get "min") (get "hour")
  end.

(** *** The demo page (main.js) *)

(** [String(value)] of a non-negative integer: its decimal digits. *)
Definition js_string (value : N) : string := NilEmpty.string_of_uint (N.to_uint value).

(** [s.padStart(target, fill)] with a one-character [fill]. *)
Definition pad_start (target : nat) (fill : Ascii.ascii) (s : string) : string :=
  (String.string_of_list_ascii (replicate (target - String.length s) fill) ++ s)%string.

(** [pad(value)]: [String(value).padStart(2, "0")]. *)
Definition pad (value : N) : string := pad_start 2 (Ascii.ascii_of_N 48) (js_string value).

(** [buildClock]: [PARTITIONS], [PULSES_EVERY] and [PULSES_CONDITION] handed
    to the builder; [None] when the bridge or [build] throws. *)
Definition buildClock : option Clock :=
  let b :=
    pulse_every "slow" 1234
      (pulse_every "wireguard" 21
         (pulse_every "fast" 5
            (add_partition "hour" 24
               (add_partition "min" 60
                  (add_partition "sec" 60 (least_significant_first new)))))) in
  let top_of_hour :=
    js_and (JsArray [js_partition_equals (JsString "sec") (JsNumber 0);
                     js_partition_equals (JsString "min") (JsNumber 0)]) in
  match pulse_condition_literal "top_of_hour" top_of_hour b with
  | Ok b' => match build b' with Ok clock => Some clock | Err _ => None end
  | Err _ => None
  end.

(** [Number.MAX_SAFE_INTEGER]. *)
Definition MAX_SAFE_INTEGER : N := 2 ^ 53 - 1.

(** Modelled from the spec: a [u64] field of a snapshot as the JavaScript
    number the bridge hands to the page (the snapshots carry [tick_str] and
    [epoch_str] "for full precision; numeric fields are still provided").
    Up to [Number.MAX_SAFE_INTEGER] the number is the value itself; above,
    it is a rounded double, which is not modelled: [None]. *)
Definition js_number (value : N) : option N :=
  if value <=? MAX_SAFE_INTEGER then Some value else None.

(** The text of an element: [Initial] while the script has not written it,
    [Written text], or [Rounded] when it shows a number above
    [Number.MAX_SAFE_INTEGER], whose digits are not modelled. *)
Inductive TextContent : Type :=
  | Initial
  | Written (text : string)
  | Rounded.

(** The page: the clock, [state], [lastPulses] and the text of the three
    elements it writes. *)
Record Demo : Type := mkDemo {
  demo_clock : Clock;
  demo_state : option ClockSnapshot;
  demo_last_pulses : list string;
  demo_time_text : TextContent;
  demo_tick_text : TextContent;
  demo_pulses_text : TextContent;
}.

(** [getPartition(name).value], a number:
<<
    if (!state || !state.partitions) return { value: 0, modulus: 1 };
    return state.partitions.find((part) => part.name === name) || { value: 0, modulus: 1 };
>> *)
Definition getPartition_value (state : option ClockSnapshot) (name : string) : option N :=
  match state with
  | None => Some 0
  | Some st =>
      match List.find (fun part => String.eqb (part_name part) name) (snap_partitions st) with
      | Some part => js_number (part_value part)
      | None => Some 0
      end
  end.

(** [`${pad(hh)}:${pad(mm)}:${pad(ss)}`] of [updateReadout]. *)
Definition time_text (state : option ClockSnapshot) : TextContent :=
  match getPartition_value state "hour", getPartition_value state "min",
        getPartition_value state "sec" with
  | Some hh, Some mm, Some ss => Written (pad hh ++ ":" ++ pad mm ++ ":" ++ pad ss)%string
  | _, _, _ => Rounded
  end.

(** The text of [state.tick], a number. *)
Definition tick_text (st : ClockSnapshot) : TextContent :=
  match js_number (snap_tick st) with
  | Some tick => Written (js_string tick)
  | None => Rounded
  end.

(** [updateReadout]:
<<
    if (!state) return;
    timeEl.textContent = `${pad(hh)}:${pad(mm)}:${pad(ss)}`;
    tickEl.textContent = state.tick;
>> *)
Definition updateReadout (d : Demo) : Demo :=
  match demo_state d with
  | None => d
  | Some st =>
      {| demo_clock := demo_clock d; demo_state := demo_state d;
         demo_last_pulses := demo_last_pulses d;
         demo_time_text := time_text (demo_state d);
         demo_tick_text := tick_text st;
         demo_pulses_text := demo_pulses_text d |}
  end.

(** The line of a pulse: [`${pulse.name} @ ${pulse.tick}`]. *)
Definition pulse_line (pulse : PulseFired) : string :=
  (fired_name pulse ++ " @ " ++ js_string (fired_tick pulse))%string.

(** What [updatePulses] leaves in [lastPulses]:
<<
    if (!pulses || pulses.length === 0) return;
    for (const pulse of pulses) lastPulses.unshift(`${pulse.name} @ ${pulse.tick}`);
    lastPulses = lastPulses.slice(0, 4);
>> *)
Definition unshift_pulses (pulses : list PulseFired) (lastPulses : list string)
  : list string :=
  match pulses with
  | [] => lastPulses
  | _ => take 4 (foldl (fun acc pulse => pulse_line pulse :: acc) lastPulses pulses)
  end.

(** [updatePulses]. *)
Definition updatePulses (pulses : list PulseFired) (d : Demo) : Demo :=
  match pulses with
  | [] => d
  | _ =>
      let lastPulses := unshift_pulses pulses (demo_last_pulses d) in
      {| demo_clock := demo_clock d; demo_state := demo_state d;
         demo_last_pulses := lastPulses;
         demo_time_text := demo_time_text d;
         demo_tick_text := demo_tick_text d;
         demo_pulses_text := Written (String.concat " | " lastPulses) |}
  end.

(** The body of the tick loop of [frame]:
<<
    const outcome = clock.tick();
    state = outcome.snapshot;
    updateReadout();
    updatePulses(outcome.pulses);
>> *)
Definition frame_tick (d : Demo) : option Demo :=
  '(clock, outcome) ← tick (demo_clock d);
  Some (updatePulses (out_pulses outcome)
          (updateReadout
             {| demo_clock := clock; demo_state := Some (out_snapshot outcome);
                demo_last_pulses := demo_last_pulses d;
                demo_time_text := demo_time_text d;
                demo_tick_text := demo_tick_text d;
                demo_pulses_text := demo_pulses_text d |})).

(** [start] of the demo: build the clock, take its snapshot, write the
    readout. *)
Definition demo_start : option Demo :=
  clock ← buildClock;
  Some (updateReadout
          {| demo_clock := clock; demo_state := Some (snapshot clock);
             demo_last_pulses := []; demo_time_text := Initial;
             demo_tick_text := Initial; demo_pulses_text := Initial |}).

(** The page after [n] runs of the loop body. *)
Definition frames (n : N) (d : Demo) : option Demo :=
  N.iter n (fun d' => d' ≫= frame_tick) (Some d).

(** [PerfMeter.push]:
<<
    list.push(value);
    if (list.length > 120) list.shift();
>> *)
Definition push {A : Type} (values : list A) (value : A) : list A :=
  let values' := values ++ [value] in
  if (120 <? length values')%nat then tail values' else values'.

(** The two decimal digits of a number below 100. *)
Definition two_digits (n : N) : string :=
  String (Ascii.ascii_of_N (48 + n / 10))
         (String (Ascii.ascii_of_N (48 + n mod 10)) EmptyString).

(** The number of engine ticks above 0 in a list. *)
Definition effective_ticks (engine_ticks : list N) : N :=
  N.of_nat (length (filter (N.lt 0) engine_ticks)).

(** What [updateReadout] has written for the state of the page. *)
Definition readout_current (d : Demo) : Prop :=
  demo_state d = Some (snapshot (demo_clock d)) /\
  demo_time_text d = time_text (demo_state d) /\
  demo_tick_text d = tick_text (snapshot (demo_clock d)).

(** *** The Game of Life skin (core/renderer/skins/conway.ts) *)

(** A [boolean[][]] is a list of rows: [grid[y][x]]. *)

(** The truth value of [grid[y][x]]; an index past the end of a row reads
    [undefined], which is falsy. *)
Definition cell (grid : list (list bool)) (x y : nat) : bool :=
  default false (grid !! y ≫= fun row => row !! x).

(** A fresh [createGrid(size)] whose cell [next[y][x]] is then assigned
    [f x y] for every [y] and [x] below [size]. *)
Definition fill_grid (size : nat) (f : nat -> nat -> bool) : list (list bool) :=
  (fun y => (fun x => f x y) <$> seq 0 size) <$> seq 0 size.

Definition createGrid (size : nat) : list (list bool) := fill_grid size (fun _ _ => false).

(** [(i + d + size) % size], the toroidal wrap of [countNeighbors]. *)
Definition wrap (i : nat) (d : Z) (size : nat) : nat :=
  Z.to_nat (Z.rem (Z.of_nat i + d + Z.of_nat size) (Z.of_nat size)).

(** The offsets [(dx, dy)] in the order of the two loops of
    [countNeighbors], [(0, 0)] skipped. *)
Definition neighbor_offsets : list (Z * Z) :=
  [(-1, -1); (0, -1); (1, -1); (-1, 0); (1, 0); (-1, 1); (0, 1); (1, 1)]%Z.

Definition countNeighbors (grid : list (list bool)) (x y : nat) : nat :=
  let size := length grid in
  foldl (fun count '(dx, dy) =>
           if cell grid (wrap x dx size) (wrap y dy size) then S count else count)
        0%nat neighbor_offsets.

(** The body of the loops of [nextGeneration]: the value assigned to
    [next[y][x]]. *)
Definition next_cell (grid : list (list bool)) (x y : nat) : bool :=
  let neighbors := countNeighbors grid x y in
  let alive := cell grid x y in
  if alive
  then (neighbors =? 2)%nat || (neighbors =? 3)%nat
  else (neighbors =? 3)%nat.

Definition nextGeneration (grid : list (list bool)) : list (list bool) :=
  let size := length grid in
  fill_grid size (next_cell grid).

(** The grid moved by [a] columns and [b] rows around the torus. *)
Definition shift_grid (a b : nat) (grid : list (list bool)) : list (list bool) :=
  let size := length grid in
  fill_grid size (fun x y => cell grid ((x + a) mod size) ((y + b) mod size)).

(** [grid[y][x]] itself: [None] for [undefined]. *)
Definition read_cell (grid : list (list bool)) (x y : nat) : option bool :=
  grid !! y ≫= fun row => row !! x.

(** The cells [(x, y)] in the order the two loops visit them. *)
Definition grid_cells (size : nat) : list (nat * nat) :=
  y ← seq 0 size; x ← seq 0 size; [(x, y)].

(** The loops of [isStagnant] from the cells still to visit; [None] when
    [prevGrid[y]] is [undefined] and reading [prevGrid[y][x]] throws. *)
Fixpoint isStagnant_scan (grid prevGrid : list (list bool)) (cells : list (nat * nat))
    (same hasLife : bool) : option bool :=
  match cells with
  | [] => Some (negb hasLife || same)
  | (x, y) :: rest =>
      let hasLife := if cell grid x y then true else hasLife in
      prev_row ← prevGrid !! y;
      let same := if bool_decide (read_cell grid x y <> prev_row !! x) then false else same in
      if hasLife && negb same then Some false
      else isStagnant_scan grid prevGrid rest same hasLife
  end.

Definition isStagnant (grid prevGrid : list (list bool)) : option bool :=
  isStagnant_scan grid prevGrid (grid_cells (length grid)) true false.

(** Some cell of the grid is alive; every cell reads as in the other grid. *)
Definition has_life (grid : list (list bool)) : bool :=
  existsb (fun '(x, y) => cell grid x y) (grid_cells (length grid)).

Definition same_cells (grid prevGrid : list (list bool)) : bool :=
  forallb (fun '(x, y) => bool_decide (read_cell grid x y = read_cell prevGrid x y))
          (grid_cells (length grid)).

(** *** The skin registry (core/renderer/clock-skin.ts, clock-canvas.ts) *)

(** A value of [Math.random()]: the fraction [random_num / random_den],
    which lies in [0, 1) when [random_num < random_den]. *)
Record Random : Type := mkRandom {
  random_num : nat;
  random_den : nat;
}.

(** [Math.floor(Math.random() * length)]. *)
Definition random_index (rnd : Random) (length : nat) : nat :=
  (random_num rnd * length / random_den rnd)%nat.

Section SkinRegistry.
Context {Skin : Type} (skin_id : Skin -> string).

(** [Map.set]: the value of a key already present is replaced in place, a
    new key is entered last. *)
Fixpoint map_set (key : string) (value : Skin) (entries : list (string * Skin))
  : list (string * Skin) :=
  match entries with
  | [] => [(key, value)]
  | (k, v) :: rest =>
      if String.eqb k key then (key, value) :: rest else (k, v) :: map_set key value rest
  end.

(** [register(skin)]: [this.skins.set(skin.id, skin)]. *)
Definition register (skin : Skin) (skins : list (string * Skin)) : list (string * Skin) :=
  map_set (skin_id skin) skin skins.

(** [get(id)]: [this.skins.get(id)]. *)
Definition get (id : string) (skins : list (string * Skin)) : option Skin :=
  snd <$> List.find (fun entry => String.eqb (fst entry) id) skins.

(** [list()]: [Array.from(this.skins.values())]. *)
Definition list_skins (skins : list (string * Skin)) : list Skin := snd <$> skins.

(** [random()]. *)
Definition random (rnd : Random) (skins : list (string * Skin)) : option Skin :=
  let all := list_skins skins in
  match all with
  | [] => None
  | _ => all !! random_index rnd (length all)
  end.

(** [randomExcept(excludeId)]. *)
Definition randomExcept (rnd : Random) (excludeId : string) (skins : list (string * Skin))
  : option Skin :=
  let filtered :=
    List.filter (fun s => negb (String.eqb (skin_id s) excludeId)) (list_skins skins) in
  match filtered with
  | [] => get excludeId skins
  | _ => filtered !! random_index rnd (length filtered)
  end.

(** [nextSkin] of the canvas, on the current skin:
<<
    const next = current ? this.registry.randomExcept(current.id) : this.registry.random();
    if (next) this.currentSkin.set(next);
>> *)
Definition nextSkin (rnd : Random) (current : option Skin) (skins : list (string * Skin))
  : option Skin :=
  let next :=
    match current with
    | Some c => randomExcept rnd (skin_id c) skins
    | None => random rnd skins
    end in
  match next with
  | Some n => Some n
  | None => current
  end.

(** The registry after the skins of a list have been registered in turn. *)
Definition registered (skins : list Skin) : list (string * Skin) :=
  foldl (fun registry skin => register skin registry) [] skins.

End SkinRegistry.

(** * Properties *)

(** ** 64-bit arithmetic *)

Lemma wrapping_add_range a b : U64.in_range (U64.wrapping_add a b).
Proof. unfold U64.in_range, U64.wrapping_add, U64.modulus. apply N.mod_lt. lia. Qed.

Lemma wrapping_add_small a b :
  a + b < U64.modulus -> U64.wrapping_add a b = a + b.
Proof. unfold U64.wrapping_add. intros H. apply N.mod_small. exact H. Qed.

Lemma wrapping_add_max : U64.wrapping_add U64.MAX 1 = 0.
Proof. reflexivity. Qed.

Lemma overflowing_add_fst a b : fst (U64.overflowing_add a b) = U64.wrapping_add a b.
Proof. reflexivity. Qed.

Lemma overflowing_add_one_wraps a :
  U64.in_range a -> snd (U64.overflowing_add a 1) = true <-> a = U64.MAX.
Proof.
  unfold U64.in_range, U64.overflowing_add, U64.modulus, U64.MAX. simpl snd. intros Ha.
  rewrite N.leb_le. lia.
Qed.

Lemma overflowing_add_one_max : U64.overflowing_add U64.MAX 1 = (0, true).
Proof. reflexivity. Qed.

Lemma overflowing_add_one_lt a :
  a < U64.MAX -> U64.overflowing_add a 1 = (a + 1, false).
Proof.
  unfold U64.overflowing_add, U64.modulus, U64.MAX. intros Ha. f_equal.
  - apply N.mod_small. lia.
  - apply N.leb_gt. lia.
Qed.


(** ** Induction on condition trees *)

Lemma PulseCondition_tree_ind (P : PulseCondition -> Prop) :
  (forall period, P (Every period)) ->
  (forall name value, P (PartitionEquals name value)) ->
  (forall name modulus remainder, P (PartitionModulo name modulus remainder)) ->
  (forall start end_, P (TickRange start end_)) ->
  (forall c, P c -> P (Not c)) ->
  (forall cs, Forall P cs -> P (And cs)) ->
  (forall cs, Forall P cs -> P (Or cs)) ->
  forall c, P c.
Proof.
  intros HE HPE HPM HTR HN HA HO.
  fix IH 1. intros [period|name value|name modulus remainder|start end_|c|cs|cs].
  - apply HE.
  - apply HPE.
  - apply HPM.
  - apply HTR.
  - apply HN, IH.
  - apply HA. induction cs as [|c cs IHcs]; constructor; [apply IH | exact IHcs].
  - apply HO. induction cs as [|c cs IHcs]; constructor; [apply IH | exact IHcs].
Qed.

(** ** The short-circuit iterators *)

Section IteratorFacts.
Context {A : Type} (f : A -> option bool).

Lemma iter_all_true l :
  iter_all f l = Some true <-> Forall (fun x => f x = Some true) l.
Proof.
  induction l as [|x l IH]; simpl.
  - split; [constructor | reflexivity].
  - destruct (f x) as [[|]|] eqn:Hx; simpl.
    + rewrite IH. split; [intros H; constructor; assumption | intros H; inversion H; assumption].
    + split; [discriminate | intros H; inversion H; congruence].
    + split; [discriminate | intros H; inversion H; congruence].
Qed.

Lemma iter_any_true_total l :
  Forall (fun x => is_Some (f x)) l ->
  iter_any f l = Some true <-> Exists (fun x => f x = Some true) l.
Proof.
  induction 1 as [|x l [b Hx] Hl IH]; simpl.
  - split; [discriminate | intros H; inversion H].
  - rewrite Hx. simpl. destruct b.
    + split; [intros _; left; exact Hx | reflexivity].
    + rewrite IH. split; [intros H; right; exact H |].
      intros H. inversion H; [congruence | assumption].
Qed.

Lemma iter_all_total l :
  Forall (fun x => is_Some (f x)) l -> is_Some (iter_all f l).
Proof.
  induction 1 as [|x l [b Hx] Hl IH]; simpl; [eexists; reflexivity |].
  rewrite Hx. simpl. destruct b; [exact IH | eexists; reflexivity].
Qed.

Lemma iter_any_total l :
  Forall (fun x => is_Some (f x)) l -> is_Some (iter_any f l).
Proof.
  induction 1 as [|x l [b Hx] Hl IH]; simpl; [eexists; reflexivity |].
  rewrite Hx. simpl. destruct b; [eexists; reflexivity | exact IH].
Qed.

End IteratorFacts.

(** ** Evaluation of conditions *)

Lemma rem_nonzero a b : b <> 0 -> rem a b = Some (a mod b).
Proof. intros Hb. unfold rem. apply N.eqb_neq in Hb. rewrite Hb. reflexivity. Qed.

Lemma rem_zero a : rem a 0 = None.
Proof. reflexivity. Qed.

Lemma is_met_Every period t snap :
  period <> 0 ->
  is_met (Every period) t snap = Some (negb (t =? 0) && (t mod period =? 0)).
Proof.
  intros Hp. simpl. rewrite (rem_nonzero _ _ Hp). simpl.
  destruct (t =? 0); reflexivity.
Qed.

Lemma is_met_Every_true period t snap :
  period <> 0 ->
  is_met (Every period) t snap = Some true <-> t <> 0 /\ t mod period = 0.
Proof.
  intros Hp. rewrite (is_met_Every _ _ _ Hp).
  destruct (N.eqb_spec t 0) as [Ht|Ht], (N.eqb_spec (t mod period) 0) as [Hm|Hm];
    simpl; split; try discriminate; try tauto; intros; try reflexivity.
Qed.

(** The ticks at which [Every(n)] is met are [n, 2n, 3n, ...]. *)
Lemma positive_multiple period t :
  period <> 0 ->
  (t <> 0 /\ t mod period = 0) <-> exists k, 0 < k /\ t = k * period.
Proof.
  intros Hp. split.
  - intros [Ht Hm]. pose proof (N.div_mod t period Hp) as Hd. rewrite Hm in Hd.
    exists (t / period). split; [| lia].
    destruct (N.eq_dec (t / period) 0) as [H0|H0]; [| lia]. rewrite H0 in Hd. lia.
  - intros (k & Hk & ->). split; [nia |]. apply N.Div0.mod_mul.
Qed.

(** ** Condition trees *)

Lemma nodes_self c : c ∈ nodes c.
Proof. destruct c; simpl; left. Qed.

Lemma nodes_flat_map (x : PulseCondition) cs :
  x ∈ flat_map nodes cs <-> exists c, c ∈ cs /\ x ∈ nodes c.
Proof.
  rewrite list_elem_of_In, in_flat_map. split; intros (c & Hc & Hx); exists c.
  - rewrite !list_elem_of_In. tauto.
  - rewrite <- !list_elem_of_In. tauto.
Qed.

Lemma nodes_Not x c : x ∈ nodes (Not c) <-> x = Not c \/ x ∈ nodes c.
Proof. simpl. apply elem_of_cons. Qed.

Lemma nodes_And x cs :
  x ∈ nodes (And cs) <-> x = And cs \/ exists c, c ∈ cs /\ x ∈ nodes c.
Proof. simpl. rewrite elem_of_cons, nodes_flat_map. reflexivity. Qed.

Lemma nodes_Or x cs :
  x ∈ nodes (Or cs) <-> x = Or cs \/ exists c, c ∈ cs /\ x ∈ nodes c.
Proof. simpl. rewrite elem_of_cons, nodes_flat_map. reflexivity. Qed.

Lemma no_zero_period_Not c : no_zero_period (Not c) -> no_zero_period c.
Proof. unfold no_zero_period. rewrite nodes_Not. tauto. Qed.

Lemma no_zero_period_And cs :
  no_zero_period (And cs) -> Forall no_zero_period cs.
Proof.
  unfold no_zero_period. rewrite nodes_And. intros H.
  apply Forall_forall. intros c Hc Hin. apply H. right. exists c. tauto.
Qed.

Lemma no_zero_period_Or cs :
  no_zero_period (Or cs) -> Forall no_zero_period cs.
Proof.
  unfold no_zero_period. rewrite nodes_Or. intros H.
  apply Forall_forall. intros c Hc Hin. apply H. right. exists c. tauto.
Qed.

Lemma condition_valid_no_zero_period partitions c :
  condition_valid partitions c -> no_zero_period c.
Proof.
  unfold condition_valid, no_zero_period. rewrite Forall_forall. intros H Hin.
  specialize (H _ Hin). simpl in H. congruence.
Qed.

(** A condition without a zero period evaluates, whatever the tick and the
    snapshot. *)
Lemma is_met_total c t snap :
  no_zero_period c -> is_Some (is_met c t snap).
Proof.
  induction c as [period|name value|name modulus remainder|start end_|c IH|cs IH|cs IH]
    using PulseCondition_tree_ind; intros Hnz.
  - assert (period <> 0) as Hp.
    { intros ->. apply Hnz, nodes_self. }
    rewrite (is_met_Every _ _ _ Hp). eexists; reflexivity.
  - simpl. eexists; reflexivity.
  - simpl. destruct (partition snap name) as [p|]; [| eexists; reflexivity].
    destruct (N.eqb_spec modulus 0) as [Hm|Hm]; simpl; [eexists; reflexivity |].
    rewrite (rem_nonzero _ _ Hm). eexists; reflexivity.
  - simpl. eexists; reflexivity.
  - simpl. destruct (IH (no_zero_period_Not _ Hnz)) as [b Hb]. rewrite Hb.
    eexists; reflexivity.
  - simpl. case_bool_decide; [eexists; reflexivity |].
    apply iter_all_total. apply no_zero_period_And in Hnz.
    rewrite Forall_forall in *. intros c Hc. apply (IH c Hc), (Hnz c Hc).
  - simpl. apply iter_any_total. apply no_zero_period_Or in Hnz.
    rewrite Forall_forall in *. intros c Hc. apply (IH c Hc), (Hnz c Hc).
Qed.

(** ** Validation *)

Lemma and_then_ok {E T U} (r : Result E T) (k : T -> Result E U) u :
  and_then r k = Ok u <-> exists t, r = Ok t /\ k t = Ok u.
Proof.
  destruct r as [t|e]; simpl; split.
  - intros H. exists t. tauto.
  - intros (t' & [= <-] & H). exact H.
  - discriminate.
  - intros (t' & [=] & _).
Qed.

Lemma and_then_err {E T U} (r : Result E T) (k : T -> Result E U) e :
  and_then r k = Err e <-> r = Err e \/ exists t, r = Ok t /\ k t = Err e.
Proof.
  destruct r as [t|e']; simpl; split.
  - intros H. right. exists t. tauto.
  - intros [[=]|(t' & [= <-] & H)]. exact H.
  - intros [= <-]. left. reflexivity.
  - intros [[= <-]|(t' & [=] & _)]. reflexivity.
Qed.

Lemma ensure_ok {E} ok (e : E) u : ensure ok e = Ok u <-> ok = true.
Proof. destruct ok, u; simpl; split; congruence. Qed.


Lemma invalid_ok {T} (r : Result ClockError T) t : invalid r = Ok t <-> r = Ok t.
Proof. destruct r; simpl; split; congruence. Qed.


Section TryEach.
Context {A E : Type} (f : A -> Result E unit).

Lemma try_each_ok l u : try_each f l = Ok u <-> Forall (fun x => f x = Ok ()) l.
Proof.
  destruct u. induction l as [|x l IH]; simpl.
  - split; [constructor | reflexivity].
  - rewrite and_then_ok. split.
    + intros ([] & Hx & Hl). constructor; [exact Hx | apply IH, Hl].
    + intros H. inversion H; subst. exists (). split; [assumption | apply IH; assumption].
Qed.

Lemma try_each_err l e :
  try_each f l = Err e -> exists x, x ∈ l /\ f x = Err e.
Proof.
  induction l as [|x l IH]; simpl; [discriminate |].
  rewrite and_then_err. intros [Hx|([] & _ & Hl)].
  - exists x. split; [left | exact Hx].
  - destruct (IH Hl) as (y & Hy & Hfy). exists y. split; [right; exact Hy | exact Hfy].
Qed.

End TryEach.

Lemma condition_valid_Not partitions c :
  condition_valid partitions (Not c) <-> condition_valid partitions c.
Proof.
  unfold condition_valid. simpl. rewrite Forall_cons. simpl. tauto.
Qed.

Lemma condition_valid_flat_map partitions cs :
  Forall (node_valid partitions) (flat_map nodes cs) <->
  Forall (condition_valid partitions) cs.
Proof.
  unfold condition_valid. induction cs as [|c cs IH]; simpl.
  - split; constructor.
  - rewrite Forall_app, Forall_cons, IH. reflexivity.
Qed.

Lemma validate_condition_ok c partitions pulse u :
  validate_condition c partitions pulse = Ok u <-> condition_valid partitions c.
Proof.
  destruct u.
  induction c as [period|name value|name modulus remainder|start end_|c IH|cs IH|cs IH]
    using PulseCondition_tree_ind; unfold condition_valid; simpl.
  - rewrite Forall_singleton. simpl. destruct (N.eqb_spec period 0); split; congruence.
  - rewrite Forall_singleton. simpl. case_bool_decide; split; congruence.
  - rewrite Forall_singleton. simpl.
    case_bool_decide; simpl; [| split; [discriminate | tauto]].
    destruct (N.eqb_spec modulus 0); split; try congruence; tauto.
  - rewrite Forall_singleton. simpl.
    destruct (N.ltb_spec end_ start); split; try congruence; try lia; reflexivity.
  - rewrite IH, Forall_cons. unfold condition_valid. simpl. tauto.
  - rewrite try_each_ok, Forall_cons, condition_valid_flat_map. simpl.
    split; [intros H; split; [exact I |] | intros [_ H]];
      rewrite Forall_forall in *; intros c Hc; apply (IH c Hc), (H c Hc).
  - rewrite try_each_ok, Forall_cons, condition_valid_flat_map. simpl.
    split; [intros H; split; [exact I |] | intros [_ H]];
      rewrite Forall_forall in *; intros c Hc; apply (IH c Hc), (H c Hc).
Qed.

Lemma validate_condition_err c partitions pulse e :
  validate_condition c partitions pulse = Err e ->
  exists node, node ∈ nodes c /\ node_violation partitions pulse node e.
Proof.
  induction c as [period|name value|name modulus remainder|start end_|c IH|cs IH|cs IH]
    using PulseCondition_tree_ind; simpl.
  - destruct (N.eqb_spec period 0) as [->|]; [| discriminate].
    intros [= <-]. exists (Every 0). split; [left | simpl; tauto].
  - case_bool_decide; [discriminate |]. intros [= <-].
    exists (PartitionEquals name value). split; [left |]. simpl. eauto.
  - case_bool_decide; simpl.
    + destruct (N.eqb_spec modulus 0) as [->|]; [| discriminate]. intros [= <-].
      exists (PartitionModulo name 0 remainder). split; [left |]. simpl. eauto.
    + intros [= <-]. exists (PartitionModulo name modulus remainder).
      split; [left |]. simpl. eauto 6.
  - destruct (N.ltb_spec end_ start); [| discriminate]. intros [= <-].
    exists (TickRange start end_). split; [left |]. simpl. tauto.
  - intros H. destruct (IH H) as (node & Hn & Hv). exists node. split; [right |]; assumption.
  - intros H. apply try_each_err in H as (c & Hc & He).
    rewrite Forall_forall in IH. destruct (IH c Hc He) as (node & Hn & Hv).
    exists node. split; [| exact Hv]. right. apply nodes_flat_map. eauto.
  - intros H. apply try_each_err in H as (c & Hc & He).
    rewrite Forall_forall in IH. destruct (IH c Hc He) as (node & Hn & Hv).
    exists node. split; [| exact Hv]. right. apply nodes_flat_map. eauto.
Qed.

(** ** The builder *)

Lemma moduli_checked (partitions : list PartitionSpec) :
  Forall (fun s => ensure (negb (spec_modulus s =? 0)) (ZeroModulus (spec_name s)) = Ok ())
         partitions <->
  Forall (fun s => 0 < spec_modulus s) partitions.
Proof.
  apply Forall_iff. intros s. rewrite ensure_ok, negb_true_iff, N.eqb_neq. lia.
Qed.

Lemma pulses_checked (names : gset string) (pulses : list PulseSpec) :
  Forall (fun p => validate_condition (pulse_condition p) names (pulse_name p) = Ok ())
         pulses <->
  Forall (fun p => condition_valid names (pulse_condition p)) pulses.
Proof. apply Forall_iff. intros p. apply validate_condition_ok. Qed.

Lemma order_checked b :
  bool_decide (builder_partitions b = []) || bool_decide (is_Some (builder_order b)) = true
  <-> order_selected b.
Proof.
  unfold order_selected. rewrite orb_true_iff, !bool_decide_eq_true. reflexivity.
Qed.

Lemma build_ok b c :
  build b = Ok c <->
  builder_valid b /\ order_selected b /\
  c = fresh_clock (builder_partitions b)
                  (default LeastSignificantFirst (builder_order b)) (builder_pulses b).
Proof.
  unfold build, builder_valid. split.
  - intros H.
    apply and_then_ok in H as ([] & H1 & H). apply ensure_ok, bool_decide_eq_true in H1.
    apply and_then_ok in H as ([] & H2 & H).
    apply invalid_ok, try_each_ok, moduli_checked in H2.
    apply and_then_ok in H as ([] & H3 & H). apply invalid_ok, ensure_ok, order_checked in H3.
    apply and_then_ok in H as ([] & H4 & H).
    apply invalid_ok, try_each_ok, pulses_checked in H4.
    apply and_then_ok in H as ([] & H5 & H). apply ensure_ok, bool_decide_eq_true in H5.
    injection H as <-. tauto.
  - intros ((H2 & H1 & H5 & H4) & H3 & ->).
    apply and_then_ok. exists (). split; [apply ensure_ok, bool_decide_eq_true, H1 |].
    apply and_then_ok. exists ().
    split; [apply invalid_ok, try_each_ok, moduli_checked, H2 |].
    apply and_then_ok. exists ().
    split; [apply invalid_ok, ensure_ok, order_checked, H3 |].
    apply and_then_ok. exists ().
    split; [apply invalid_ok, try_each_ok, pulses_checked, H4 |].
    apply and_then_ok. exists (). split; [apply ensure_ok, bool_decide_eq_true, H5 |].
    reflexivity.
Qed.






(** ** One step of the clock *)

Lemma evaluate_pulses_total pulses t e snap :
  Forall (fun p => no_zero_period (pulse_condition p)) pulses ->
  is_Some (evaluate_pulses pulses t e snap).
Proof.
  induction 1 as [|p pulses Hp _ [fired IH]]; simpl; [eexists; reflexivity |].
  destruct (is_met_total _ t snap Hp) as [b ->]. simpl. rewrite IH. simpl.
  eexists; reflexivity.
Qed.

Lemma tick_next_state self self' outcome :
  tick self = Some (self', outcome) ->
  self' = next_state self /\
  out_snapshot outcome = snapshot self' /\
  out_overflowed outcome = snd (U64.overflowing_add (clock_tick self) 1) /\
  exists fired,
    user_fired self' = Some fired /\
    out_pulses outcome =
      if out_overflowed outcome then fired ++ [overflow_fired self'] else fired.
Proof.
  unfold tick, next_state, user_fired, overflow_fired.
  destruct (U64.overflowing_add (clock_tick self) 1) as [next_tick overflowed]. simpl.
  destruct (evaluate_pulses _ _ _ _) as [fired|] eqn:Hf; simpl; [| discriminate].
  intros [= <- <-]. simpl. rewrite Hf. eauto 6.
Qed.

Lemma tick_some self fired :
  user_fired (next_state self) = Some fired ->
  exists outcome, tick self = Some (next_state self, outcome).
Proof.
  unfold tick, next_state, user_fired.
  destruct (U64.overflowing_add (clock_tick self) 1) as [next_tick overflowed]. simpl.
  intros ->. simpl. eexists; reflexivity.
Qed.

Lemma step_next_state self self' : step self = Some self' -> self' = next_state self.
Proof.
  unfold step. destruct (tick self) as [[c o]|] eqn:Ht; simpl; [| discriminate].
  intros [= <-]. apply (tick_next_state _ _ _ Ht).
Qed.

(** ** The partition invariant *)

Lemma increment_ok p : partition_ok p -> partition_ok (fst (increment p)).
Proof.
  unfold partition_ok, increment.
  destruct (N.leb_spec (part_modulus p) (U64.wrapping_add (part_value p) 1)); simpl; lia.
Qed.

Lemma increment_no_wrap p :
  partition_ok p -> U64.in_range (part_modulus p) ->
  U64.wrapping_add (part_value p) 1 = part_value p + 1.
Proof.
  unfold partition_ok, U64.in_range. intros Hv Hm. apply wrapping_add_small. lia.
Qed.

Lemma increment_modulus p : part_modulus (fst (increment p)) = part_modulus p.
Proof. unfold increment. destruct (_ <=? _); reflexivity. Qed.

Lemma increment_name p : part_name (fst (increment p)) = part_name p.
Proof. unfold increment. destruct (_ <=? _); reflexivity. Qed.

Lemma advance_loop_ok carry ps :
  Forall partition_ok ps -> Forall partition_ok (advance_loop carry ps).
Proof.
  intros H. revert carry. induction H as [|p ps Hp Hps IH]; intros carry; simpl.
  - constructor.
  - destruct carry; [| constructor; assumption].
    pose proof (increment_ok p Hp) as Hp'.
    destruct (increment p) as [p' carry']. constructor; [exact Hp' | apply IH].
Qed.

Lemma advance_partitions_ok order ps :
  Forall partition_ok ps -> Forall partition_ok (advance_partitions order ps).
Proof.
  intros H. destruct order; simpl.
  - apply advance_loop_ok, H.
  - apply Forall_reverse, advance_loop_ok, Forall_reverse, H.
Qed.

(** Every partition is left as it was or went through [increment]. *)
Lemma advance_loop_increment carry ps :
  Forall2 (fun p p' => p' = p \/ p' = fst (increment p)) ps (advance_loop carry ps).
Proof.
  revert carry. induction ps as [|p ps IH]; intros carry; simpl; [constructor |].
  destruct carry.
  - destruct (increment p) as [p' carry'] eqn:Hp. constructor; [right; rewrite Hp; reflexivity | apply IH].
  - constructor; [left; reflexivity |]. apply Forall2_same_length_lookup_2; [reflexivity |].
    intros i x y Hx Hy. left. congruence.
Qed.

Lemma advance_partitions_increment order ps :
  Forall2 (fun p p' => p' = p \/ p' = fst (increment p)) ps (advance_partitions order ps).
Proof.
  destruct order; simpl; [apply advance_loop_increment |].
  rewrite <- (reverse_involutive ps) at 1. apply Forall2_reverse, advance_loop_increment.
Qed.

(** ** Running clocks *)

Lemma next_state_well_formed self : well_formed self -> well_formed (next_state self).
Proof.
  unfold well_formed, next_state. intros (Hp & Hc & Ht & He).
  destruct (U64.overflowing_add (clock_tick self) 1) as [next_tick overflowed] eqn:Hadd.
  simpl. repeat split.
  - apply advance_partitions_ok, Hp.
  - exact Hc.
  - pose proof (overflowing_add_fst (clock_tick self) 1) as Hf.
    rewrite Hadd in Hf. simpl in Hf. subst next_tick. apply wrapping_add_range.
  - destruct overflowed; [apply wrapping_add_range | exact He].
Qed.

Lemma tick_total self :
  well_formed self -> exists outcome, tick self = Some (next_state self, outcome).
Proof.
  intros Hwf. apply next_state_well_formed in Hwf as (_ & Hc & _).
  destruct (evaluate_pulses_total (clock_pulses (next_state self))
              (clock_tick (next_state self)) (clock_epoch (next_state self))
              (snapshot (next_state self)) Hc) as [fired Hf].
  apply (tick_some _ fired Hf).
Qed.

Lemma step_total self : well_formed self -> step self = Some (next_state self).
Proof.
  intros Hwf. destruct (tick_total _ Hwf) as [o Ho]. unfold step. rewrite Ho. reflexivity.
Qed.

Lemma run_0 self : run 0 self = Some self.
Proof. reflexivity. Qed.

Lemma run_succ n self : run (N.succ n) self = run n self ≫= step.
Proof. unfold run. rewrite N.iter_succ. reflexivity. Qed.

(** A well-formed clock can be stepped any number of times. *)
Lemma run_total n self :
  well_formed self ->
  run n self = Some (N.iter n next_state self) /\ well_formed (N.iter n next_state self).
Proof.
  intros Hwf. induction n as [|n [IH1 IH2]] using N.peano_ind.
  - split; [reflexivity | exact Hwf].
  - rewrite run_succ, N.iter_succ, IH1. simpl. split.
    + apply step_total, IH2.
    + apply next_state_well_formed, IH2.
Qed.

Lemma fresh_clock_well_formed partitions order pulses names :
  Forall (fun s => 0 < spec_modulus s) partitions ->
  Forall (fun p => condition_valid names (pulse_condition p)) pulses ->
  well_formed (fresh_clock partitions order pulses).
Proof.
  intros Hm Hc. unfold well_formed, fresh_clock. simpl.
  split; [| split; [| split]].
  - apply Forall_fmap. eapply Forall_impl; [exact Hm |]. intros s Hs. exact Hs.
  - eapply Forall_impl; [exact Hc |]. intros p. apply condition_valid_no_zero_period.
  - unfold U64.in_range, U64.modulus. lia.
  - unfold U64.in_range, U64.modulus. lia.
Qed.

Lemma build_well_formed b c : build b = Ok c -> well_formed c.
Proof.
  intros H. apply build_ok in H as ((Hm & _ & _ & Hc) & _ & ->).
  eapply fresh_clock_well_formed; eassumption.
Qed.

(** ** The shape of a clock never changes *)

Lemma advance_loop_moduli carry ps :
  part_modulus <$> advance_loop carry ps = part_modulus <$> ps.
Proof.
  revert carry. induction ps as [|p ps IH]; intros carry; simpl; [reflexivity |].
  destruct carry; [| reflexivity].
  pose proof (increment_modulus p) as Hm.
  destruct (increment p) as [p' carry']. simpl in *. rewrite IH, Hm. reflexivity.
Qed.

Lemma advance_loop_names carry ps :
  part_name <$> advance_loop carry ps = part_name <$> ps.
Proof.
  revert carry. induction ps as [|p ps IH]; intros carry; simpl; [reflexivity |].
  destruct carry; [| reflexivity].
  pose proof (increment_name p) as Hm.
  destruct (increment p) as [p' carry']. simpl in *. rewrite IH, Hm. reflexivity.
Qed.

Lemma advance_partitions_moduli order ps :
  part_modulus <$> advance_partitions order ps = part_modulus <$> ps.
Proof.
  destruct order; simpl; [apply advance_loop_moduli |].
  rewrite fmap_reverse, advance_loop_moduli, <- fmap_reverse, reverse_involutive.
  reflexivity.
Qed.

Lemma advance_partitions_names order ps :
  part_name <$> advance_partitions order ps = part_name <$> ps.
Proof.
  destruct order; simpl; [apply advance_loop_names |].
  rewrite fmap_reverse, advance_loop_names, <- fmap_reverse, reverse_involutive.
  reflexivity.
Qed.

Lemma next_state_shape self :
  clock_partition_order (next_state self) = clock_partition_order self /\
  clock_pulses (next_state self) = clock_pulses self /\
  part_name <$> clock_partitions (next_state self) = part_name <$> clock_partitions self /\
  part_modulus <$> clock_partitions (next_state self)
    = part_modulus <$> clock_partitions self.
Proof.
  unfold next_state. destruct (U64.overflowing_add _ _). simpl.
  rewrite advance_partitions_names, advance_partitions_moduli. tauto.
Qed.

Lemma iter_shape n self :
  clock_partition_order (N.iter n next_state self) = clock_partition_order self /\
  clock_pulses (N.iter n next_state self) = clock_pulses self /\
  part_name <$> clock_partitions (N.iter n next_state self)
    = part_name <$> clock_partitions self /\
  part_modulus <$> clock_partitions (N.iter n next_state self)
    = part_modulus <$> clock_partitions self.
Proof.
  induction n as [|n (IH1 & IH2 & IH3 & IH4)] using N.peano_ind; [tauto |].
  rewrite N.iter_succ.
  destruct (next_state_shape (N.iter n next_state self)) as (H1 & H2 & H3 & H4).
  rewrite H1, H2, H3, H4. tauto.
Qed.

Lemma run_iter n self self' :
  run n self = Some self' -> self' = N.iter n next_state self.
Proof.
  revert self'. induction n as [|n IH] using N.peano_ind; intros self'.
  - intros [= <-]. reflexivity.
  - rewrite run_succ, N.iter_succ.
    destruct (run n self) as [c|] eqn:Hc; simpl; [| discriminate].
    intros Hs. apply step_next_state in Hs. rewrite Hs, (IH c); reflexivity.
Qed.

(** ** The cascade *)

Lemma advance_loop_break ps : advance_loop false ps = ps.
Proof. destruct ps; reflexivity. Qed.

Lemma advance_loop_cascade ps :
  Forall (fun p => partition_ok p /\ U64.in_range (part_modulus p)) ps ->
  advance_loop true ps = cascade ps.
Proof.
  induction 1 as [|p ps [Hp Hm] _ IH]; simpl; [reflexivity |].
  unfold increment. rewrite (increment_no_wrap p Hp Hm).
  unfold partition_ok in Hp.
  destruct (N.leb_spec (part_modulus p) (part_value p + 1)),
           (N.eqb_spec (part_value p + 1) (part_modulus p)); try lia.
  - rewrite IH. reflexivity.
  - rewrite advance_loop_break. reflexivity.
Qed.

Lemma advance_partitions_cascade order ps :
  Forall (fun p => partition_ok p /\ U64.in_range (part_modulus p)) ps ->
  advance_partitions order ps = cascade_in_order order ps.
Proof.
  intros H. destruct order; simpl.
  - apply advance_loop_cascade, H.
  - rewrite advance_loop_cascade; [reflexivity |]. apply Forall_reverse, H.
Qed.

Lemma fresh_clock_moduli partitions order pulses :
  part_modulus <$> clock_partitions (fresh_clock partitions order pulses)
  = spec_modulus <$> partitions.
Proof. simpl. rewrite <- list_fmap_compose. reflexivity. Qed.

Lemma running_moduli_in_u64 b c0 n :
  build b = Ok c0 -> moduli_in_u64 b ->
  Forall (fun p => U64.in_range (part_modulus p)) (clock_partitions (N.iter n next_state c0)).
Proof.
  intros Hb Hu. apply build_ok in Hb as (_ & _ & ->).
  apply (Forall_fmap part_modulus U64.in_range).
  destruct (iter_shape n (fresh_clock (builder_partitions b)
    (default LeastSignificantFirst (builder_order b)) (builder_pulses b)))
    as (_ & _ & _ & ->).
  rewrite fresh_clock_moduli. apply Forall_fmap. exact Hu.
Qed.

Lemma sec_min_cascade :
  exists c0 c60 c3600,
    build sec_min = Ok c0 /\
    run 60 c0 = Some c60 /\ partition_values c60 = [("sec", 0); ("min", 1)] /\
    run 3600 c0 = Some c3600 /\ partition_values c3600 = [("sec", 0); ("min", 0)].
Proof.
  eexists _, _, _. split; [vm_compute; reflexivity |].
  split; [vm_compute; reflexivity |]. split; [reflexivity |].
  split; [vm_compute; reflexivity |]. reflexivity.
Qed.

(** C2: on every [tick] of a successfully built clock the partitions are
    cascade-advanced from the least-significant end (position 0 under
    [LeastSignificantFirst], the last position under [MostSignificantFirst]):
    the visited partition increments, resets to 0 and carries when it reaches
    its modulus, and the first partition that does not carry stops the
    cascade. A fresh clock [sec:60, min:60], least significant first, has
    [sec = 0, min = 1] after 60 ticks and [sec = 0, min = 0] after 3600. *)
Theorem tick_cascades b c0 n c :
  build b = Ok c0 -> moduli_in_u64 b -> run n c0 = Some c ->
  (exists c' outcome,
      tick c = Some (c', outcome) /\
      clock_partitions c'
        = cascade_in_order (clock_partition_order c) (clock_partitions c) /\
      snap_partitions (out_snapshot outcome) = clock_partitions c') /\
  (exists f0 f60 f3600,
      build sec_min = Ok f0 /\
      run 60 f0 = Some f60 /\ partition_values f60 = [("sec", 0); ("min", 1)] /\
      run 3600 f0 = Some f3600 /\ partition_values f3600 = [("sec", 0); ("min", 0)]).
Proof.
  intros Hb Hu Hrun. split; [| exact sec_min_cascade].
  pose proof (build_well_formed _ _ Hb) as Hwf.
  apply run_iter in Hrun. subst c.
  destruct (run_total n _ Hwf) as [_ Hwf'].
  destruct (tick_total _ Hwf') as [outcome Ht].
  exists (next_state (N.iter n next_state c0)), outcome. split; [exact Ht |].
  split.
  - unfold next_state at 1. destruct (U64.overflowing_add _ _). simpl.
    apply advance_partitions_cascade.
    destruct Hwf' as (Hok & _). pose proof (running_moduli_in_u64 b c0 n Hb Hu) as Hm.
    rewrite Forall_forall in *. intros p Hp. split; [apply Hok | apply Hm]; exact Hp.
  - apply tick_next_state in Ht as (_ & -> & _). reflexivity.
Qed.

Lemma tick_cascades_witness :
  exists c' outcome,
    tick (fresh_clock (builder_partitions sec_min) LeastSignificantFirst []) = Some (c', outcome) /\
    clock_partitions c'
      = cascade_in_order LeastSignificantFirst
          (clock_partitions (fresh_clock (builder_partitions sec_min) LeastSignificantFirst [])) /\
    snap_partitions (out_snapshot outcome) = clock_partitions c'.
Proof.
  refine (proj1 (tick_cascades sec_min _ 0 _ _ _ _)).
  - vm_compute. reflexivity.
  - repeat constructor.
  - reflexivity.
Defined.

(** ** The partition invariant on running clocks *)

(** C6: for every successfully built clock and every number of [tick]
    calls, every partition satisfies [0 <= value < modulus]; the clock can
    always be stepped once more, and a step leaves each partition either
    untouched or as [increment] returns it. *)
Theorem partition_invariant b c0 n :
  build b = Ok c0 ->
  exists c,
    run n c0 = Some c /\
    Forall (fun p => 0 <= part_value p < part_modulus p) (clock_partitions c) /\
    exists c' outcome,
      tick c = Some (c', outcome) /\
      Forall2 (fun p p' => p' = p \/ p' = fst (increment p))
              (clock_partitions c) (clock_partitions c') /\
      Forall (fun p => 0 <= part_value p < part_modulus p) (clock_partitions c').
Proof.
  intros Hb. pose proof (build_well_formed _ _ Hb) as Hwf.
  destruct (run_total n _ Hwf) as [Hrun Hwf'].
  exists (N.iter n next_state c0). split; [exact Hrun |].
  assert (forall c, well_formed c ->
            Forall (fun p => 0 <= part_value p < part_modulus p) (clock_partitions c))
    as Hinv.
  { intros c (Hok & _). eapply Forall_impl; [exact Hok |].
    unfold partition_ok. intros p Hp. lia. }
  split; [apply Hinv, Hwf' |].
  destruct (tick_total _ Hwf') as [outcome Ht].
  exists (next_state (N.iter n next_state c0)), outcome.
  split; [exact Ht |]. split.
  - unfold next_state. destruct (U64.overflowing_add _ _). simpl.
    apply advance_partitions_increment.
  - apply Hinv, next_state_well_formed, Hwf'.
Qed.

Lemma partition_invariant_witness :
  exists c,
    run 3600 (fresh_clock (builder_partitions sec_min) LeastSignificantFirst []) = Some c /\
    Forall (fun p => 0 <= part_value p < part_modulus p) (clock_partitions c) /\
    exists c' outcome,
      tick c = Some (c', outcome) /\
      Forall2 (fun p p' => p' = p \/ p' = fst (increment p))
              (clock_partitions c) (clock_partitions c') /\
      Forall (fun p => 0 <= part_value p < part_modulus p) (clock_partitions c').
Proof.
  apply (partition_invariant sec_min). vm_compute. reflexivity.
Defined.

(** ** The counters *)

Lemma next_state_counters self :
  clock_tick (next_state self) = U64.wrapping_add (clock_tick self) 1 /\
  clock_epoch (next_state self) =
    if U64.modulus <=? clock_tick self + 1
    then U64.wrapping_add (clock_epoch self) 1 else clock_epoch self.
Proof. split; reflexivity. Qed.

(** Stepping a counter pair whose low digit wraps at [M]. *)
Lemma succ_div_mod (M total : N) :
  0 < M ->
  (total mod M + 1) mod M = (total + 1) mod M /\
  (if M <=? total mod M + 1 then ((total / M) mod M + 1) mod M else (total / M) mod M)
    = ((total + 1) / M) mod M.
Proof.
  intros HM. assert (M <> 0) as HM0 by lia.
  pose proof (N.div_mod total M HM0) as Hdm.
  pose proof (N.mod_lt total M HM0) as Hlt.
  split; [apply N.Div0.add_mod_idemp_l |].
  destruct (N.leb_spec M (total mod M + 1)) as [Hle|Hgt].
  - assert ((total + 1) / M = total / M + 1) as ->.
    { symmetry. apply (N.div_unique (total + 1) M (total / M + 1) 0); lia. }
    apply N.Div0.add_mod_idemp_l.
  - assert ((total + 1) / M = total / M) as ->; [| reflexivity].
    symmetry. apply (N.div_unique (total + 1) M (total / M) (total mod M + 1)); lia.
Qed.

Lemma modulus_pos : 0 < U64.modulus.
Proof. reflexivity. Qed.

(** After [n] steps the pair (epoch, tick) has counted [n] steps further,
    both counters wrapping at [2^64]. *)
Lemma iter_counters n self :
  U64.in_range (clock_tick self) -> U64.in_range (clock_epoch self) ->
  clock_tick (N.iter n next_state self)
    = (clock_epoch self * U64.modulus + clock_tick self + n) mod U64.modulus /\
  clock_epoch (N.iter n next_state self)
    = ((clock_epoch self * U64.modulus + clock_tick self + n) / U64.modulus)
        mod U64.modulus.
Proof.
  unfold U64.in_range. intros Ht He.
  assert (U64.modulus <> 0) as HM0 by (pose proof modulus_pos; lia).
  induction n as [|n [IHt IHe]] using N.peano_ind.
  - simpl N.iter. rewrite N.add_0_r. split.
    + rewrite N.add_comm, N.Div0.mod_add. symmetry. apply N.mod_small, Ht.
    + rewrite N.div_add_l by exact HM0. rewrite (N.div_small _ _ Ht), N.add_0_r.
      symmetry. apply N.mod_small, He.
  - rewrite N.iter_succ.
    destruct (next_state_counters (N.iter n next_state self)) as [-> ->].
    rewrite IHt, IHe. unfold U64.wrapping_add.
    set (total := clock_epoch self * U64.modulus + clock_tick self + n).
    replace (clock_epoch self * U64.modulus + clock_tick self + N.succ n)
      with (total + 1) by (unfold total; lia).
    apply succ_div_mod, modulus_pos.
Qed.

(** C7: a freshly built clock on which [tick] has been called [n] times has
    [tick_count() == n] modulo [2^64], and one more call adds exactly 1 with
    wrap-around. *)
Theorem tick_count_after b c0 n :
  build b = Ok c0 ->
  exists c,
    run n c0 = Some c /\
    tick_count c = n mod 2 ^ 64 /\
    exists c' outcome,
      tick c = Some (c', outcome) /\
      tick_count c' = (tick_count c + 1) mod 2 ^ 64.
Proof.
  intros Hb. pose proof (build_well_formed _ _ Hb) as Hwf.
  destruct (run_total n _ Hwf) as [Hrun Hwf'].
  exists (N.iter n next_state c0). split; [exact Hrun |]. split.
  - destruct Hwf as (_ & _ & Ht & He).
    destruct (iter_counters n c0 Ht He) as [Hc _]. unfold tick_count. rewrite Hc.
    apply build_ok in Hb as (_ & _ & ->). simpl. reflexivity.
  - destruct (tick_total _ Hwf') as [outcome Ht].
    exists (next_state (N.iter n next_state c0)), outcome. split; [exact Ht |].
    reflexivity.
Qed.

Lemma tick_count_after_witness :
  exists c,
    run 3600 (fresh_clock (builder_partitions sec_min) LeastSignificantFirst []) = Some c /\
    tick_count c = 3600 mod 2 ^ 64 /\
    exists c' outcome,
      tick c = Some (c', outcome) /\
      tick_count c' = (tick_count c + 1) mod 2 ^ 64.
Proof.
  apply (tick_count_after sec_min). vm_compute. reflexivity.
Defined.

(** ** Overflow of the tick counter *)

Lemma next_state_at_max self :
  clock_tick self = U64.MAX ->
  clock_tick (next_state self) = 0 /\
  clock_epoch (next_state self) = U64.wrapping_add (clock_epoch self) 1 /\
  snd (U64.overflowing_add (clock_tick self) 1) = true.
Proof. unfold next_state. intros ->. simpl. auto. Qed.

Lemma next_state_below_max self :
  clock_tick self < U64.MAX ->
  clock_tick (next_state self) = clock_tick self + 1 /\
  clock_epoch (next_state self) = clock_epoch self /\
  snd (U64.overflowing_add (clock_tick self) 1) = false.
Proof.
  unfold next_state. intros H. rewrite (overflowing_add_one_lt _ H). simpl. auto.
Qed.

(** Read literally, [epoch == previous_epoch + 1] fails at the largest
    epoch, where the counter wraps to 0 instead. The state is reached by
    [2^128 - 1] calls of [tick] on the clock without partitions and pulses. *)
Lemma epoch_wraps_at_max :
  exists c0 c c' outcome,
    build new = Ok c0 /\
    run (2 ^ 128 - 1) c0 = Some c /\
    clock_tick c = U64.MAX /\
    tick c = Some (c', outcome) /\
    clock_epoch c' = 0 /\
    clock_epoch c' <> clock_epoch c + 1.
Proof.
  assert (build new = Ok (fresh_clock [] LeastSignificantFirst [])) as Hb
    by (vm_compute; reflexivity).
  pose proof (build_well_formed _ _ Hb) as Hwf.
  set (c0 := fresh_clock [] LeastSignificantFirst []) in *.
  destruct (run_total (2 ^ 128 - 1) c0 Hwf) as [Hrun Hwf'].
  destruct (tick_total _ Hwf') as [outcome Ht].
  destruct Hwf as (_ & _ & Ht0 & He0).
  destruct (iter_counters (2 ^ 128 - 1) c0 Ht0 He0) as [Htick Hepoch].
  set (c := N.iter (2 ^ 128 - 1) next_state c0) in *. clearbody c.
  change (clock_tick c = U64.MAX) in Htick.
  change (clock_epoch c = U64.MAX) in Hepoch.
  exists c0, c, (next_state c), outcome.
  destruct (next_state_at_max c Htick) as (_ & He' & _).
  rewrite He', Hepoch.
  split; [exact Hb |]. split; [exact Hrun |]. split; [exact Htick |].
  split; [exact Ht |]. split; [reflexivity |].
  vm_compute. discriminate.
Qed.

(** C3, as the code has it: when the tick counter of a running clock holds
    [2^64 - 1], one [tick] wraps it to 0, steps the epoch with wrap-around
    (to [previous_epoch + 1] unless the epoch too holds [2^64 - 1]), sets
    [overflowed] and appends the reserved ["__overflow__"] pulse after all
    user pulses; on any other tick nothing is appended, [overflowed] is
    false and the epoch stays. *)
Theorem overflow_step b c0 n c :
  build b = Ok c0 -> run n c0 = Some c ->
  exists c' outcome fired,
    tick c = Some (c', outcome) /\
    user_fired c' = Some fired /\
    (clock_tick c = U64.MAX ->
       clock_tick c' = 0 /\
       clock_epoch c' = (clock_epoch c + 1) mod 2 ^ 64 /\
       (clock_epoch c < U64.MAX -> clock_epoch c' = clock_epoch c + 1) /\
       out_overflowed outcome = true /\
       out_pulses outcome
         = fired ++ [mkPulseFired "__overflow__" 0 (clock_epoch c')]) /\
    (clock_tick c <> U64.MAX ->
       clock_tick c' = clock_tick c + 1 /\
       clock_epoch c' = clock_epoch c /\
       out_overflowed outcome = false /\
       out_pulses outcome = fired).
Proof.
  intros Hb Hrun. pose proof (build_well_formed _ _ Hb) as Hwf.
  apply run_iter in Hrun. subst c.
  destruct (run_total n _ Hwf) as [_ Hwf'].
  set (c := N.iter n next_state c0) in *. clearbody c.
  destruct (tick_total _ Hwf') as [outcome Ht].
  destruct (tick_next_state _ _ _ Ht) as (_ & _ & Hov & fired & Hf & Hp).
  exists (next_state c), outcome, fired. split; [exact Ht |]. split; [exact Hf |].
  destruct Hwf' as (_ & _ & Htr & Her). unfold U64.in_range, U64.modulus in Htr, Her.
  split.
  - intros Hmax. destruct (next_state_at_max c Hmax) as (Ht' & He' & Ho).
    rewrite Hov, Ho in Hp. rewrite Hov.
    split; [exact Ht' |]. split; [exact He' |].
    split; [| split; [exact Ho |]].
    + intros Hlt. rewrite He'. apply wrapping_add_small.
      unfold U64.MAX, U64.modulus in *. lia.
    + rewrite Hp. unfold overflow_fired. rewrite Ht'. reflexivity.
  - intros Hne. assert (clock_tick c < U64.MAX) as Hlt by (unfold U64.MAX in *; lia).
    destruct (next_state_below_max c Hlt) as (Ht' & He' & Ho).
    rewrite Hov, Ho in Hp. rewrite Hov. tauto.
Qed.

Lemma overflow_step_witness :
  exists c' outcome fired,
    tick (fresh_clock (builder_partitions sec_min) LeastSignificantFirst [])
      = Some (c', outcome) /\
    user_fired c' = Some fired /\
    (0 = U64.MAX ->
       clock_tick c' = 0 /\
       clock_epoch c' = (0 + 1) mod 2 ^ 64 /\
       (0 < U64.MAX -> clock_epoch c' = 0 + 1) /\
       out_overflowed outcome = true /\
       out_pulses outcome
         = fired ++ [mkPulseFired "__overflow__" 0 (clock_epoch c')]) /\
    (0 <> U64.MAX ->
       clock_tick c' = 0 + 1 /\
       clock_epoch c' = 0 /\
       out_overflowed outcome = false /\
       out_pulses outcome = fired).
Proof.
  apply (overflow_step sec_min
           (fresh_clock (builder_partitions sec_min) LeastSignificantFirst []) 0
           (fresh_clock (builder_partitions sec_min) LeastSignificantFirst [])).
  - vm_compute. reflexivity.
  - reflexivity.
Defined.

(** ** Which pulses fire *)

Lemma evaluate_pulses_names pulses t e snap fired name :
  evaluate_pulses pulses t e snap = Some fired ->
  name ∈ fired_name <$> fired <->
  exists p, p ∈ pulses /\ pulse_name p = name /\
            is_met (pulse_condition p) t snap = Some true.
Proof.
  revert fired. induction pulses as [|p pulses IH]; intros fired; simpl.
  - intros [= <-]. simpl. split; [intros H; inversion H |].
    intros (p & Hp & _). inversion Hp.
  - destruct (is_met (pulse_condition p) t snap) as [b|] eqn:Hb; simpl; [| discriminate].
    destruct (evaluate_pulses pulses t e snap) as [rest|] eqn:Hr; simpl; [| discriminate].
    intros [= <-]. specialize (IH rest eq_refl).
    assert (name ∈ fired_name <$> rest ->
            exists q, q ∈ p :: pulses /\ pulse_name q = name /\
                      is_met (pulse_condition q) t snap = Some true) as Hrest.
    { intros H. apply IH in H as (q & Hq & Hn & Hm). exists q.
      split; [right; exact Hq | tauto]. }
    destruct b; simpl.
    + rewrite elem_of_cons. split.
      * intros [->|H]; [exists p; split; [left | tauto] | exact (Hrest H)].
      * intros (q & Hq & Hn & Hm). apply elem_of_cons in Hq as [->|Hq]; [left; congruence |].
        right. apply IH. eauto.
    + split; [exact Hrest |].
      intros (q & Hq & Hn & Hm). apply elem_of_cons in Hq as [->|Hq]; [congruence |].
      apply IH. eauto.
Qed.

Lemma pulse_names_unique (pulses : list PulseSpec) p q :
  NoDup (pulse_name <$> pulses) ->
  p ∈ pulses -> q ∈ pulses -> pulse_name p = pulse_name q -> p = q.
Proof.
  induction pulses as [|x pulses IH]; simpl; [intros _ H; inversion H |].
  rewrite NoDup_cons. intros [Hx Hnd] Hp Hq Heq.
  apply elem_of_cons in Hp as [->|Hp], Hq as [->|Hq].
  - reflexivity.
  - exfalso. apply Hx. rewrite Heq. apply list_elem_of_fmap_2. exact Hq.
  - exfalso. apply Hx. rewrite <- Heq. apply list_elem_of_fmap_2. exact Hp.
  - apply IH; assumption.
Qed.

(** The names fired by one step are those of the registered pulses met at
    the new state, then the reserved name if the counter wrapped. *)
Lemma tick_fired_names self self' outcome name :
  tick self = Some (self', outcome) ->
  name <> OVERFLOW_PULSE ->
  name ∈ fired_name <$> out_pulses outcome <->
  exists p, p ∈ clock_pulses self /\ pulse_name p = name /\
            is_met (pulse_condition p) (clock_tick self') (snapshot self') = Some true.
Proof.
  intros Ht Hname.
  destruct (tick_next_state _ _ _ Ht) as (Hs & _ & _ & fired & Hf & Hp).
  destruct (next_state_shape self) as (_ & Hpulses & _). rewrite <- Hs in Hpulses.
  rewrite <- Hpulses, <- (evaluate_pulses_names _ _ _ _ _ name Hf), Hp.
  destruct (out_overflowed outcome); [| reflexivity].
  rewrite fmap_app, elem_of_app. simpl. rewrite list_elem_of_singleton. tauto.
Qed.

(** C4: a period [n] registered through a successful [build] is nonzero,
    and [Every(n)] evaluates to true iff [t != 0] and [t % n == 0]; so on a
    fresh clock the pulse fires exactly at the ticks [n, 2n, 3n, ...], never
    at tick 0, and a period-1 pulse first fires at tick 1. *)
Theorem every_fires b c0 name period :
  build b = Ok c0 ->
  mkPulseSpec name (Every period) ∈ builder_pulses b ->
  name <> "__overflow__" ->
  (forall t snap,
      is_met (Every period) t snap = Some (negb (t =? 0) && (t mod period =? 0))) /\
  (forall t snap,
      is_met (Every period) t snap = Some true <-> t <> 0 /\ t mod period = 0) /\
  (forall snap, is_met (Every period) 0 snap = Some false) /\
  (forall n c c' outcome,
      run n c0 = Some c -> tick c = Some (c', outcome) ->
      name ∈ fired_name <$> out_pulses outcome <->
      exists k, 0 < k /\ clock_tick c' = k * period) /\
  (period = 1 ->
     exists c1 outcome,
       tick c0 = Some (c1, outcome) /\ clock_tick c1 = 1 /\
       name ∈ fired_name <$> out_pulses outcome).
Proof.
  intros Hb Hin Hname.
  pose proof (build_well_formed _ _ Hb) as Hwf.
  pose proof Hb as Hok. apply build_ok in Hok as ((_ & _ & Hnd & Hvalid) & _ & Hc0).
  assert (period <> 0) as Hp.
  { rewrite Forall_forall in Hvalid. specialize (Hvalid _ Hin).
    unfold condition_valid in Hvalid. rewrite Forall_forall in Hvalid.
    apply (Hvalid (Every period)). simpl. left. }
  assert (forall n c c' outcome,
             run n c0 = Some c -> tick c = Some (c', outcome) ->
             name ∈ fired_name <$> out_pulses outcome <->
             clock_tick c' <> 0 /\ clock_tick c' mod period = 0) as Hfires.
  { intros n c c' outcome Hrun Ht.
    rewrite (tick_fired_names _ _ _ name Ht Hname).
    apply run_iter in Hrun. destruct (iter_shape n c0) as (_ & Hpulses & _).
    rewrite <- Hrun in Hpulses. rewrite Hpulses.
    assert (clock_pulses c0 = builder_pulses b) as -> by (rewrite Hc0; reflexivity).
    rewrite <- (is_met_Every_true period (clock_tick c') (snapshot c') Hp). split.
    - intros (p & Hpin & Hpn & Hm).
      assert (p = mkPulseSpec name (Every period)) as ->; [| exact Hm].
      apply (pulse_names_unique (builder_pulses b)); try assumption.
    - intros Hm. exists (mkPulseSpec name (Every period)). tauto. }
  split; [intros; apply is_met_Every, Hp |].
  split; [intros; apply is_met_Every_true, Hp |].
  split; [intros; rewrite is_met_Every by exact Hp; reflexivity |].
  split.
  - intros n c c' outcome Hrun Ht.
    rewrite (Hfires n c c' outcome Hrun Ht). apply positive_multiple, Hp.
  - intros ->. destruct (tick_total _ Hwf) as [outcome Ht].
    exists (next_state c0), outcome. split; [exact Ht |].
    assert (clock_tick (next_state c0) = 1) as H1 by (rewrite Hc0; reflexivity).
    split; [exact H1 |].
    apply (Hfires 0 c0 _ _ eq_refl Ht). rewrite H1. split; [lia | reflexivity].
Qed.

Lemma every_fires_witness :
  mkPulseSpec "beat" (Every 1) ∈ builder_pulses sec_min_beat /\
  exists c1 outcome,
    tick (fresh_clock (builder_partitions sec_min) LeastSignificantFirst
            (builder_pulses sec_min_beat)) = Some (c1, outcome) /\
    clock_tick c1 = 1 /\
    "beat" ∈ fired_name <$> out_pulses outcome.
Proof.
  assert (mkPulseSpec "beat" (Every 1) ∈ builder_pulses sec_min_beat) as Hin
    by (simpl; left).
  split; [exact Hin |].
  refine (proj2 (proj2 (proj2 (proj2
    (every_fires sec_min_beat _ "beat" 1 _ Hin _)))) eq_refl).
  - vm_compute. reflexivity.
  - discriminate.
Defined.

(** ** Conjunction and disjunction *)

(** An [Or] with a true child need not be true: [any] evaluates the children
    in order, and a zero-period [Every] listed before the true child divides
    by zero first. *)
Lemma or_panics_before_true_child :
  is_met (TickRange 1 9) 5 bare_snapshot = Some true /\
  is_met (Or [Every 0; TickRange 1 9]) 5 bare_snapshot = None /\
  ~ (forall t snap cs,
       is_met (Or cs) t snap = Some true <->
       Exists (fun c => is_met c t snap = Some true) cs).
Proof.
  assert (is_met (TickRange 1 9) 5 bare_snapshot = Some true) as Htrue by reflexivity.
  assert (is_met (Or [Every 0; TickRange 1 9]) 5 bare_snapshot = None) as Hnone
    by reflexivity.
  split; [exact Htrue |]. split; [exact Hnone |].
  intros H.
  assert (is_met (Or [Every 0; TickRange 1 9]) 5 bare_snapshot = Some true) as Hor.
  { apply H. right. left. exact Htrue. }
  rewrite Hnone in Hor. discriminate Hor.
Qed.

(** C5: for every tick and snapshot an empty [And] and an empty [Or] are
    false; a non-empty [And] is true iff every child is true; an [Or] is
    true iff at least one child is true, its children being conditions that
    evaluate (as all conditions of a built clock do). *)
Theorem and_or_semantics (t : N) (snap : ClockSnapshot) (cs : list PulseCondition) :
  is_met (And []) t snap = Some false /\
  is_met (Or []) t snap = Some false /\
  (cs <> [] ->
     (is_met (And cs) t snap = Some true <->
      Forall (fun c => is_met c t snap = Some true) cs)) /\
  (Forall (fun c => is_Some (is_met c t snap)) cs ->
     (is_met (Or cs) t snap = Some true <->
      Exists (fun c => is_met c t snap = Some true) cs) /\
     is_Some (is_met (And cs) t snap) /\
     is_Some (is_met (Or cs) t snap)).
Proof.
  split; [reflexivity |]. split; [reflexivity |]. split.
  - intros Hne. simpl. rewrite bool_decide_eq_false_2 by exact Hne.
    apply iter_all_true.
  - intros Hcs. split; [| split].
    + simpl. apply iter_any_true_total, Hcs.
    + simpl. case_bool_decide; [eexists; reflexivity | apply iter_all_total, Hcs].
    + simpl. apply iter_any_total, Hcs.
Qed.

Lemma and_or_semantics_witness :
  (is_met (And [TickRange 1 9; Every 5]) 5 bare_snapshot = Some true <->
   Forall (fun c => is_met c 5 bare_snapshot = Some true) [TickRange 1 9; Every 5]) /\
  (is_met (Or [TickRange 1 9; Every 5]) 5 bare_snapshot = Some true <->
   Exists (fun c => is_met c 5 bare_snapshot = Some true) [TickRange 1 9; Every 5]) /\
  is_Some (is_met (And [TickRange 1 9; Every 5]) 5 bare_snapshot) /\
  is_Some (is_met (Or [TickRange 1 9; Every 5]) 5 bare_snapshot).
Proof.
  destruct (and_or_semantics 5 bare_snapshot [TickRange 1 9; Every 5])
    as (_ & _ & Hand & Hor).
  split; [apply Hand; discriminate |].
  apply Hor. repeat constructor; vm_compute; eexists; reflexivity.
Defined.

(** ** Totality of evaluation *)

(** [is_met] is not total on every tree: an [Every] of period 0, which the
    builder rejects, divides by zero at any nonzero tick. *)
Lemma every_zero_traps :
  is_met (Every 0) 1 bare_snapshot = None /\
  ~ (forall c t snap, is_Some (is_met c t snap)).
Proof.
  split; [reflexivity |]. intros H.
  destruct (H (Every 0) 1 bare_snapshot) as [b Hb]. discriminate Hb.
Qed.

(** C10, as the code has it: evaluation is total on every condition tree
    without a zero-period [Every], hence on every tree the builder accepts;
    a [PartitionModulo] whose modulus is 0 is false without the modulo being
    performed, also on trees the builder would have rejected, and a
    [PartitionModulo] or [PartitionEquals] naming a partition absent from
    the snapshot is false. *)
Theorem is_met_total_without_zero_period (c : PulseCondition) (t : N)
    (snap : ClockSnapshot) :
  no_zero_period c ->
  is_Some (is_met c t snap) /\
  (forall name remainder,
      is_met (PartitionModulo name 0 remainder) t snap = Some false) /\
  (forall name modulus remainder,
      partition snap name = None ->
      is_met (PartitionModulo name modulus remainder) t snap = Some false) /\
  (forall name value,
      partition snap name = None ->
      is_met (PartitionEquals name value) t snap = Some false) /\
  (forall partitions c', condition_valid partitions c' -> is_Some (is_met c' t snap)).
Proof.
  intros Hnz. split; [apply is_met_total, Hnz |].
  split; [| split; [| split]].
  - intros name remainder. simpl. destruct (partition snap name); reflexivity.
  - intros name modulus remainder Hnone. simpl. rewrite Hnone. reflexivity.
  - intros name value Hnone. simpl. rewrite Hnone. reflexivity.
  - intros partitions c' Hv. apply is_met_total.
    apply (condition_valid_no_zero_period partitions), Hv.
Qed.

Lemma is_met_total_without_zero_period_witness :
  no_zero_period (Or [PartitionModulo "sec" 0 0; Not (Every 5)]) /\
  is_Some (is_met (Or [PartitionModulo "sec" 0 0; Not (Every 5)]) 1 bare_snapshot).
Proof.
  assert (no_zero_period (Or [PartitionModulo "sec" 0 0; Not (Every 5)])) as Hnz.
  { unfold no_zero_period. simpl. rewrite !elem_of_cons.
    intros [H|[H|[H|[H|H]]]]; try discriminate H. inversion H. }
  split; [exact Hnz |].
  exact (proj1 (is_met_total_without_zero_period _ 1 bare_snapshot Hnz)).
Defined.

(** ** What [build] accepts *)


(** In the order of checks the specification gives for [build], positive
    moduli, unique names and valid conditions do not suffice: with a
    partition registered and no order selected it fails all the same. *)
Lemma build_without_order_fails :
  builder_valid only_partition /\
  build only_partition = Err (Invalid MissingPartitionOrder) /\
  ~ (forall b, (exists c, build b = Ok c) <-> builder_valid b).
Proof.
  assert (builder_valid only_partition) as Hv.
  { unfold builder_valid, only_partition. simpl.
    repeat split; repeat constructor; set_solver. }
  assert (build only_partition = Err (Invalid MissingPartitionOrder)) as He
    by (vm_compute; reflexivity).
  split; [exact Hv |]. split; [exact He |].
  intros H. apply H in Hv as [c Hc]. congruence.
Qed.


(** ** Condition literals *)

Lemma JsValue_tree_ind (P : JsValue -> Prop) :
  P JsUndefined ->
  (forall b, P (JsBool b)) ->
  (forall n, P (JsNumber n)) ->
  (forall s, P (JsString s)) ->
  (forall items, Forall P items -> P (JsArray items)) ->
  (forall fields, Forall (fun kv => P (snd kv)) fields -> P (JsObject fields)) ->
  forall v, P v.
Proof.
  intros HU HB HN HS HA HO.
  fix IH 1. intros [|b|n|s|items|fields].
  - apply HU.
  - apply HB.
  - apply HN.
  - apply HS.
  - apply HA. induction items as [|v items IHitems]; constructor; [apply IH | exact IHitems].
  - apply HO. induction fields as [|[k v] fields IHfields]; constructor;
      [apply IH | exact IHfields].
Qed.

Lemma with_field_ok {E T} (k1 k2 : JsValue -> Result E T) e key fields r :
  Forall (fun kv => forall r', k1 (snd kv) = Ok r' -> k2 (snd kv) = Ok r') fields ->
  with_field k1 (Err e) key fields = Ok r ->
  with_field k2 (Err e) key fields = Ok r.
Proof.
  induction 1 as [|[key' v] fields Hv _ IH]; simpl; [discriminate |].
  destruct (String.eqb key' key); [apply Hv | exact IH].
Qed.

Lemma try_map_ok {A B E} (f g : A -> Result E B) l ys :
  Forall (fun x => forall y, f x = Ok y -> g x = Ok y) l ->
  try_map f l = Ok ys -> try_map g l = Ok ys.
Proof.
  intros H. revert ys. induction H as [|x l Hx _ IH]; intros ys; simpl; [tauto |].
  rewrite and_then_ok. intros (y & Hy & Hrest).
  apply and_then_ok in Hrest as (ys' & Hys & [= <-]).
  rewrite (Hx y Hy). simpl. rewrite (IH ys' Hys). reflexivity.
Qed.

(** Whatever the parser of the listing accepts, it parses to the condition
    the grammar gives the literal; for an array, so do its elements. *)
Lemma parse_condition_refines_items value :
  (forall c, parse_condition value = Ok c -> literal_condition value = Ok c) /\
  (forall items, value = JsArray items ->
     Forall (fun v => forall c, parse_condition v = Ok c -> literal_condition v = Ok c)
            items).
Proof.
  induction value as [|b|n|s|items IH|obj IH] using JsValue_tree_ind;
    (split; [| try discriminate]); try (intros c; simpl; discriminate).
  - intros items' [= <-]. eapply Forall_impl; [exact IH |]. intros v [Hv _]. exact Hv.
  - assert (forall cs,
      with_field (fun v => match v with
                           | JsArray items => try_map parse_condition items
                           | _ => Err (MalformedField "conditions")
                           end) (Err (MalformedField "conditions")) "conditions" obj = Ok cs ->
      with_field (fun v => match v with
                           | JsArray items => try_map literal_condition items
                           | _ => Err (MalformedField "conditions")
                           end) (Err (MalformedField "conditions")) "conditions" obj = Ok cs)
      as Hconds.
    { intros cs. apply with_field_ok.
      eapply Forall_impl; [exact IH |]. intros [key v] [_ Hitems] cs'. simpl in *.
      destruct v as [|b|n|s|items|fields']; try discriminate.
      apply try_map_ok, Hitems. reflexivity. }
    assert (forall c,
      with_field parse_condition (Err NotAnObject) "condition" obj = Ok c ->
      with_field literal_condition (Err NotAnObject) "condition" obj = Ok c)
      as Hcond.
    { intros c. apply with_field_ok.
      eapply Forall_impl; [exact IH |]. intros [key v] [Hv _]. exact Hv. }
    intros c. simpl.
    destruct (reflect_get obj "type") as [|b|n|kind|items|fields']; try discriminate.
    destruct (String.eqb_spec kind "every") as [->|_]; [tauto |].
    destruct (String.eqb_spec kind "partition_equals") as [->|_]; [tauto |].
    destruct (String.eqb_spec kind "and") as [->|_].
    { simpl. rewrite !and_then_ok. intros (cs & Hcs & Hc). exists cs.
      split; [apply Hconds, Hcs | exact Hc]. }
    destruct (String.eqb_spec kind "or") as [->|_].
    { simpl. rewrite !and_then_ok. intros (cs & Hcs & Hc). exists cs.
      split; [apply Hconds, Hcs | exact Hc]. }
    destruct (String.eqb_spec kind "not") as [->|_]; [| discriminate].
    simpl. rewrite !and_then_ok. intros (c' & Hc' & Hc). exists c'.
    split; [apply Hcond, Hc' | exact Hc].
Qed.

Lemma parse_condition_refines value c :
  parse_condition value = Ok c -> literal_condition value = Ok c.
Proof. apply parse_condition_refines_items. Qed.

(** A literal the parser accepts evaluates as the condition the grammar
    gives it, at every tick and snapshot. *)
Lemma parsed_evaluates_as_literal value c c' t snap :
  parse_condition value = Ok c -> literal_condition value = Ok c' ->
  is_met c t snap = is_met c' t snap.
Proof.
  intros Hp Hl. apply parse_condition_refines in Hp. congruence.
Qed.

(** An unknown discriminator is refused with the error of the [_] arm. *)
Lemma parse_condition_unknown obj kind :
  reflect_get obj "type" = JsString kind ->
  kind <> "every" -> kind <> "partition_equals" -> kind <> "and" ->
  kind <> "or" -> kind <> "not" ->
  parse_condition (JsObject obj) = Err UnknownConditionType.
Proof.
  intros Hk H1 H2 H3 H4 H5. simpl. rewrite Hk.
  apply String.eqb_neq in H1, H2, H3, H4, H5. rewrite H1, H2, H3, H4, H5. reflexivity.
Qed.

(** C8: the grammar has a [tick_range] and a [partition_modulo] literal, and
    the parser of the listing refuses both as unknown condition types; the
    literals of the five variants it knows parse to the condition of the
    grammar. *)
Theorem parse_condition_misses_variants :
  literal_condition tick_range_literal = Ok (TickRange 0 100) /\
  parse_condition tick_range_literal = Err UnknownConditionType /\
  literal_condition partition_modulo_literal = Ok (PartitionModulo "min" 15 0) /\
  parse_condition partition_modulo_literal = Err UnknownConditionType /\
  parse_condition noon_literal
    = Ok (And [PartitionEquals "hour" 12; Not (Every 5)]) /\
  (forall value c, parse_condition value = Ok c ->
     literal_condition value = Ok c /\
     forall t snap c', literal_condition value = Ok c' ->
                       is_met c t snap = is_met c' t snap).
Proof.
  split; [reflexivity |]. split; [reflexivity |]. split; [reflexivity |].
  split; [reflexivity |]. split; [reflexivity |].
  intros value c Hp. split; [apply parse_condition_refines, Hp |].
  intros t snap c' Hl. apply (parsed_evaluates_as_literal value); assumption.
Qed.

(** ** The raw-buffer path *)

Lemma word_pos : 0 < WORD.
Proof. reflexivity. Qed.

Lemma lo32_mod x : lo32 x = x mod WORD.
Proof. unfold lo32. apply N.land_ones. Qed.

Lemma hi32_div x : U64.in_range x -> hi32 x = x / WORD.
Proof.
  unfold hi32, U64.in_range. intros Hx.
  rewrite N.land_ones, N.shiftr_div_pow2. apply N.mod_small.
  apply N.Div0.div_lt_upper_bound. exact Hx.
Qed.

Lemma lo32_word x : lo32 x < WORD.
Proof. rewrite lo32_mod. apply N.mod_lt. discriminate. Qed.

Lemma hi32_word x : hi32 x < WORD.
Proof. unfold hi32. rewrite N.land_ones. apply N.mod_lt. discriminate. Qed.

(** A [u64] is read back from its two words. *)
Lemma of_lo_hi_split x : U64.in_range x -> of_lo_hi (lo32 x) (hi32 x) = x.
Proof.
  intros Hx. unfold of_lo_hi. rewrite lo32_mod, (hi32_div x Hx).
  rewrite (N.div_mod x WORD) at 3 by discriminate. lia.
Qed.

Lemma decode_pairs_flat_map {A} (f : A -> N) (l : list A) tail :
  Forall (fun x => U64.in_range (f x)) l ->
  decode_pairs (length l) (flat_map (fun x => lo_hi (f x)) l ++ tail) = f <$> l.
Proof.
  induction 1 as [|x l Hx _ IH]; simpl; [reflexivity |].
  rewrite (of_lo_hi_split _ Hx), IH. reflexivity.
Qed.

Lemma length_lo_hi_words {A} (f : A -> N) (l : list A) :
  length (flat_map (fun x => lo_hi (f x)) l) = (2 * length l)%nat.
Proof. induction l as [|x l IH]; simpl; [reflexivity | rewrite IH; lia]. Qed.

Lemma length_snapshot_words snap overflowed :
  length (snapshot_words snap overflowed) = (6 + 2 * length (snap_partitions snap))%nat.
Proof.
  unfold snapshot_words. simpl. rewrite length_lo_hi_words. reflexivity.
Qed.

Lemma write_words_fits words out :
  (length words <= length out)%nat ->
  write_words words out = Some (words ++ drop (length words) out) /\
  length (words ++ drop (length words) out) = length out.
Proof.
  intros H. unfold write_words. rewrite bool_decide_eq_true_2 by exact H.
  split; [reflexivity |]. rewrite length_app, length_drop. lia.
Qed.

(** *** The pulse bitset *)

Lemma testbit_flag (b : bool) i :
  N.testbit (if b then 1 else 0) (N.of_nat i) = match i with O => b | S _ => false end.
Proof. destruct b, i; reflexivity. Qed.

Lemma word_of_bits_testbit bits i :
  N.testbit (word_of_bits bits) (N.of_nat i) = default false (bits !! i).
Proof.
  revert i. induction bits as [|b bits IH]; intros i; simpl.
  - destruct i; reflexivity.
  - rewrite N.lor_spec, testbit_flag. destruct i as [|i]; simpl.
    + rewrite N.shiftl_spec_low by reflexivity. apply orb_false_r.
    + rewrite N.shiftl_spec_high' by lia.
      replace (N.of_nat (S i) - 1) with (N.of_nat i) by lia. apply IH.
Qed.

Lemma pack_bits_lookup nwords bits k :
  (k < nwords)%nat ->
  pack_bits nwords bits !! k = Some (word_of_bits (take 32 (drop (32 * k) bits))).
Proof.
  revert bits k. induction nwords as [|n IH]; intros bits k Hk; [lia |].
  destruct k as [|k].
  - reflexivity.
  - change (pack_bits (S n) bits !! S k) with (pack_bits n (drop 32 bits) !! k).
    rewrite IH by lia. rewrite drop_drop.
    replace (32 * S k)%nat with (32 + 32 * k)%nat by lia. reflexivity.
Qed.

Lemma length_pack_bits nwords bits : length (pack_bits nwords bits) = nwords.
Proof.
  revert bits. induction nwords as [|n IH]; intros bits; simpl; [| rewrite IH]; reflexivity.
Qed.

(** Bit [i] of the packed bitset is flag [i]. *)
Lemma bit_at_pack_bits nwords bits tail i :
  (i < 32 * nwords)%nat ->
  bit_at (pack_bits nwords bits ++ tail) i = default false (bits !! i).
Proof.
  intros Hi. unfold bit_at.
  assert (i / 32 < nwords)%nat as Hk by (apply Nat.Div0.div_lt_upper_bound; lia).
  assert (i mod 32 < 32)%nat as Hr by (apply Nat.mod_upper_bound; lia).
  pose proof (Nat.div_mod_eq i 32) as Hdm.
  set (r := (i mod 32)%nat) in *. set (k := (i / 32)%nat) in *. clearbody r k.
  rewrite lookup_app_l by (rewrite length_pack_bits; exact Hk).
  rewrite (pack_bits_lookup _ _ _ Hk). simpl.
  rewrite word_of_bits_testbit, (lookup_take_lt _ _ _ Hr), lookup_drop, Hdm.
  reflexivity.
Qed.

(** *** Flags and fired names *)

Lemma pulse_flags_of_fired pulses t e snap fired :
  evaluate_pulses pulses t e snap = Some fired ->
  exists flags,
    pulse_flags pulses t snap = Some flags /\
    length flags = length pulses /\
    fired_name <$> fired = select flags (pulse_name <$> pulses).
Proof.
  revert fired. induction pulses as [|p pulses IH]; intros fired; simpl.
  - intros [= <-]. exists []. auto.
  - destruct (is_met (pulse_condition p) t snap) as [b|]; simpl; [| discriminate].
    destruct (evaluate_pulses pulses t e snap) as [rest|]; simpl; [| discriminate].
    intros [= <-]. destruct (IH rest eq_refl) as (flags & -> & Hlen & Hsel).
    exists (b :: flags). split; [reflexivity |]. split; [simpl; lia |].
    destruct b; rewrite ?fmap_cons; cbn [select fired_name]; rewrite Hsel; reflexivity.
Qed.

Lemma fired_from_select names i flags overflowed words :
  length flags = length names ->
  (forall j, (j <= length names)%nat ->
             bit_at words (i + j) = default false ((flags ++ [overflowed]) !! j)) ->
  fired_from i names words
  = select flags names ++ (if overflowed then [OVERFLOW_PULSE] else []).
Proof.
  revert i flags. induction names as [|name names IH]; intros i flags Hlen Hbits.
  - destruct flags; [| discriminate]. simpl.
    specialize (Hbits O (Nat.le_refl _)). rewrite Nat.add_0_r in Hbits. simpl in Hbits.
    rewrite Hbits. reflexivity.
  - destruct flags as [|b flags]; [discriminate |]. simpl in Hlen.
    pose proof (Hbits O (Nat.le_0_l _)) as H0. rewrite Nat.add_0_r in H0. simpl in H0.
    simpl. rewrite H0.
    rewrite (IH (S i) flags).
    + destruct b; reflexivity.
    + lia.
    + intros j Hj. specialize (Hbits (S j)). simpl in Hbits.
      rewrite <- Hbits by lia. f_equal. lia.
Qed.

Lemma pulse_words_cover (len : nat) : (len < 32 * ((len + 1 + 31) / 32))%nat.
Proof.
  pose proof (Nat.div_mod_eq (len + 1 + 31) 32) as Hdm.
  pose proof (Nat.mod_upper_bound (len + 1 + 31) 32) as Hr.
  set (q := ((len + 1 + 31) / 32)%nat) in *. set (r := ((len + 1 + 31) mod 32)%nat) in *.
  clearbody q r. lia.
Qed.

(** The bitset written by [tick_raw] reads back as the fired names. *)
Lemma fired_from_bitset pulses flags overflowed tail :
  length flags = length pulses ->
  fired_from 0 (pulse_name <$> pulses)
    (pack_bits ((length pulses + 1 + 31) / 32) (flags ++ [overflowed]) ++ tail)
  = select flags (pulse_name <$> pulses) ++ (if overflowed then [OVERFLOW_PULSE] else []).
Proof.
  intros Hlen. apply fired_from_select.
  - rewrite length_fmap. exact Hlen.
  - intros j Hj. rewrite length_fmap in Hj. rewrite Nat.add_0_l.
    apply bit_at_pack_bits. pose proof (pulse_words_cover (length pulses)). lia.
Qed.

Lemma overflow_bit (pulses : list PulseSpec) flags overflowed tail :
  length flags = length pulses ->
  bit_at (pack_bits ((length pulses + 1 + 31) / 32) (flags ++ [overflowed]) ++ tail)
         (length pulses) = overflowed.
Proof.
  intros Hlen. rewrite bit_at_pack_bits by apply pulse_words_cover.
  rewrite <- Hlen, list_lookup_middle by reflexivity. reflexivity.
Qed.

(** *** One step on the raw path *)

Lemma values_in_u64 (ps : list PartitionState) :
  Forall partition_ok ps ->
  Forall (fun p => U64.in_range (part_modulus p)) ps ->
  Forall (fun p => U64.in_range (part_value p)) ps.
Proof.
  intros Hok Hm. rewrite Forall_forall in *. intros p Hp.
  specialize (Hok p Hp). specialize (Hm p Hp).
  unfold partition_ok, U64.in_range in *. lia.
Qed.

Lemma decode_snapshot_words snap overflowed tail names bits :
  U64.in_range (snap_tick snap) -> U64.in_range (snap_epoch snap) ->
  Forall (fun p => U64.in_range (part_value p)) (snap_partitions snap) ->
  decode_raw names (snapshot_words snap overflowed ++ tail) bits
  = Some {| field_tick := snap_tick snap;
            field_epoch := snap_epoch snap;
            field_overflowed := overflowed;
            field_values := part_value <$> snap_partitions snap;
            field_pulses := fired_from 0 names bits |}.
Proof.
  intros Ht He Hv. unfold snapshot_words, lo_hi. simpl.
  rewrite (of_lo_hi_split _ Ht), (of_lo_hi_split _ He), Nat2N.id.
  pose proof (decode_pairs_flat_map part_value _ tail Hv) as Hpairs.
  unfold lo_hi in Hpairs. rewrite Hpairs.
  destruct overflowed; reflexivity.
Qed.

Lemma tick_raw_writes self self' outcome snapshot_out pulse_bits_out :
  tick self = Some (self', outcome) ->
  (raw_snapshot_len self <= length snapshot_out)%nat ->
  (raw_pulse_words self <= length pulse_bits_out)%nat ->
  exists flags,
    length flags = length (clock_pulses self) /\
    fired_name <$> out_pulses outcome
      = select flags (pulse_name <$> clock_pulses self)
        ++ (if out_overflowed outcome then [OVERFLOW_PULSE] else []) /\
    tick_raw self snapshot_out pulse_bits_out
    = Some (self',
            snapshot_words (snapshot self') (out_overflowed outcome)
              ++ drop (raw_snapshot_len self) snapshot_out,
            pack_bits (raw_pulse_words self) (flags ++ [out_overflowed outcome])
              ++ drop (raw_pulse_words self) pulse_bits_out).
Proof.
  intros Ht Hs Hp.
  destruct (tick_next_state _ _ _ Ht) as (Hself & _ & _ & fired & Hf & Hpulses).
  destruct (next_state_shape self) as (_ & Hsame & Hnames & _).
  rewrite <- Hself in Hsame, Hnames.
  assert (length (clock_partitions self') = length (clock_partitions self)) as Hlen.
  { rewrite <- (length_fmap part_name (clock_partitions self')), Hnames.
    apply length_fmap. }
  destruct (pulse_flags_of_fired _ _ _ _ _ Hf) as (flags & Hflags & Hfl & Hsel).
  rewrite Hsame in Hfl, Hsel.
  exists flags. split; [exact Hfl |]. split.
  { rewrite Hpulses. destruct (out_overflowed outcome); [| rewrite app_nil_r; exact Hsel].
    rewrite fmap_app, Hsel. reflexivity. }
  assert (length (snapshot_words (snapshot self') (out_overflowed outcome))
          = raw_snapshot_len self) as Hws.
  { rewrite length_snapshot_words. unfold raw_snapshot_len. simpl. rewrite Hlen.
    reflexivity. }
  assert (raw_pulse_words self' = raw_pulse_words self) as Hpw.
  { unfold raw_pulse_words. rewrite Hsame. reflexivity. }
  pose proof (write_words_fits
                (snapshot_words (snapshot self') (out_overflowed outcome))
                snapshot_out) as [Hw1 _]; [rewrite Hws; exact Hs |].
  pose proof (write_words_fits
                (pack_bits (raw_pulse_words self) (flags ++ [out_overflowed outcome]))
                pulse_bits_out) as [Hw2 _]; [rewrite length_pack_bits; exact Hp |].
  rewrite Hws in Hw1. rewrite length_pack_bits in Hw2.
  unfold tick_raw. rewrite Ht. cbn [mbind option_bind]. rewrite Hflags.
  cbn [mbind option_bind]. rewrite Hpw, Hw1. cbn [mbind option_bind]. rewrite Hw2.
  reflexivity.
Qed.

Lemma write_words_length words out out' :
  write_words words out = Some out' -> length out' = length out.
Proof.
  unfold write_words. case_bool_decide as H; [| discriminate].
  intros [= <-]. rewrite length_app, length_drop. lia.
Qed.

Lemma tick_raw_lengths self self' snapshot_out pulse_bits_out s p :
  tick_raw self snapshot_out pulse_bits_out = Some (self', s, p) ->
  length s = length snapshot_out /\ length p = length pulse_bits_out.
Proof.
  unfold tick_raw.
  destruct (tick self) as [[c o]|]; cbn [mbind option_bind]; [| discriminate].
  destruct (pulse_flags _ _ _) as [flags|]; cbn [mbind option_bind]; [| discriminate].
  destruct (write_words _ snapshot_out) as [s'|] eqn:Hs; cbn [mbind option_bind];
    [| discriminate].
  destruct (write_words _ pulse_bits_out) as [p'|] eqn:Hp; cbn [mbind option_bind];
    [| discriminate].
  intros [= _ <- <-]. split; eapply write_words_length; eassumption.
Qed.

Lemma iter_raw_lengths n self :
  raw_snapshot_len (N.iter n next_state self) = raw_snapshot_len self /\
  raw_pulse_words (N.iter n next_state self) = raw_pulse_words self.
Proof.
  destruct (iter_shape n self) as (_ & Hpulses & Hnames & _).
  unfold raw_snapshot_len, raw_pulse_words. rewrite Hpulses.
  rewrite <- (length_fmap part_name (clock_partitions (N.iter n next_state self))), Hnames.
  rewrite length_fmap. split; reflexivity.
Qed.

Lemma run_raw_succ n self s p :
  run_raw (N.succ n) self s p = run_raw n self s p ≫= (fun '(c, s', p') => tick_raw c s' p').
Proof. unfold run_raw. rewrite N.iter_succ. reflexivity. Qed.

(** Driven in lockstep, the raw path is in the state of the rich path after
    every number of steps. *)
Lemma run_raw_lockstep n self snapshot_out pulse_bits_out :
  well_formed self ->
  (raw_snapshot_len self <= length snapshot_out)%nat ->
  (raw_pulse_words self <= length pulse_bits_out)%nat ->
  exists s p,
    run_raw n self snapshot_out pulse_bits_out = Some (N.iter n next_state self, s, p) /\
    length s = length snapshot_out /\ length p = length pulse_bits_out.
Proof.
  intros Hwf Hs Hp. induction n as [|n (s & p & IH & Hls & Hlp)] using N.peano_ind.
  - exists snapshot_out, pulse_bits_out. auto.
  - rewrite run_raw_succ, IH, N.iter_succ. cbn [mbind option_bind].
    destruct (run_total n self Hwf) as [_ Hwf'].
    destruct (tick_total _ Hwf') as [outcome Ht].
    destruct (iter_raw_lengths n self) as [Hrs Hrp].
    destruct (tick_raw_writes _ _ _ s p Ht) as (flags & _ & _ & Hraw);
      [rewrite Hrs, Hls; exact Hs | rewrite Hrp, Hlp; exact Hp |].
    eexists _, _. split; [exact Hraw |].
    destruct (tick_raw_lengths _ _ _ _ _ _ Hraw) as [-> ->]. auto.
Qed.

Lemma snapshot_words_order snap overflowed :
  snapshot_words snap overflowed
  = [lo32 (snap_tick snap); hi32 (snap_tick snap);
     lo32 (snap_epoch snap); hi32 (snap_epoch snap);
     if overflowed then 1 else 0; N.of_nat (length (snap_partitions snap))]
    ++ flat_map (fun p => [lo32 (part_value p); hi32 (part_value p)])
                (snap_partitions snap).
Proof. reflexivity. Qed.

(** The rich outcome of a step has the fields read back from the buffers
    the raw path fills in the same step. *)
Lemma tick_raw_agrees self self' outcome snapshot_out pulse_bits_out :
  well_formed self' ->
  Forall (fun p => U64.in_range (part_modulus p)) (clock_partitions self') ->
  tick self = Some (self', outcome) ->
  (raw_snapshot_len self <= length snapshot_out)%nat ->
  (raw_pulse_words self <= length pulse_bits_out)%nat ->
  exists s p,
    tick_raw self snapshot_out pulse_bits_out = Some (self', s, p) /\
    take (raw_snapshot_len self) s
      = snapshot_words (snapshot self') (out_overflowed outcome) /\
    decode_raw (pulse_name <$> clock_pulses self) s p = Some (outcome_fields outcome) /\
    bit_at p (length (clock_pulses self)) = out_overflowed outcome.
Proof.
  intros (Hok & _ & Htr & Her) Hmod Ht Hs Hp.
  destruct (tick_raw_writes _ _ _ _ _ Ht Hs Hp) as (flags & Hfl & Hnames & Hraw).
  destruct (tick_next_state _ _ _ Ht) as (Hself & Hsnap & _).
  eexists _, _. split; [exact Hraw |].
  assert (length (snapshot_words (snapshot self') (out_overflowed outcome))
          = raw_snapshot_len self) as Hws.
  { rewrite length_snapshot_words. unfold raw_snapshot_len. simpl.
    destruct (next_state_shape self) as (_ & _ & Hn & _). rewrite <- Hself in Hn.
    rewrite <- (length_fmap part_name (clock_partitions self')), Hn, length_fmap.
    reflexivity. }
  split; [rewrite <- Hws; apply take_app_length |].
  split.
  - rewrite decode_snapshot_words;
      [| exact Htr | exact Her | apply values_in_u64; assumption].
    unfold raw_pulse_words. rewrite (fired_from_bitset _ _ _ _ Hfl), <- Hnames.
    unfold outcome_fields. rewrite Hsnap. reflexivity.
  - unfold raw_pulse_words. apply overflow_bit, Hfl.
Qed.

(** C9: the raw-buffer path refines the rich path. Two identically built
    clocks driven in lockstep are in the same state after every number of
    steps; the buffers [tick_raw] fills hold the words in the documented
    order and read back, field for field, as the rich [TickOutcome] of the
    same step, the bit after the registered pulses being the overflow bit;
    [snapshot_raw] writes the same layout for the current state and
    [partition_moduli_raw] a (low, high) word pair per modulus in partition
    order. *)
Theorem raw_path_refines_rich b c0 n c snapshot_out pulse_bits_out moduli_out :
  build b = Ok c0 -> moduli_in_u64 b -> run n c0 = Some c ->
  (raw_snapshot_len c <= length snapshot_out)%nat ->
  (raw_pulse_words c <= length pulse_bits_out)%nat ->
  (2 * length (clock_partitions c) <= length moduli_out)%nat ->
  (exists s p, run_raw n c0 snapshot_out pulse_bits_out = Some (c, s, p)) /\
  (exists c' outcome s p,
      tick c = Some (c', outcome) /\
      tick_raw c snapshot_out pulse_bits_out = Some (c', s, p) /\
      take (raw_snapshot_len c) s
        = [lo32 (clock_tick c'); hi32 (clock_tick c');
           lo32 (clock_epoch c'); hi32 (clock_epoch c');
           if out_overflowed outcome then 1 else 0;
           N.of_nat (length (clock_partitions c'))]
          ++ flat_map (fun p => [lo32 (part_value p); hi32 (part_value p)])
                      (clock_partitions c') /\
      decode_raw (pulse_name <$> clock_pulses c) s p = Some (outcome_fields outcome) /\
      bit_at p (length (clock_pulses c)) = out_overflowed outcome) /\
  (exists s,
      snapshot_raw c snapshot_out = Some s /\
      take (raw_snapshot_len c) s
        = [lo32 (clock_tick c); hi32 (clock_tick c);
           lo32 (clock_epoch c); hi32 (clock_epoch c);
           0; N.of_nat (length (clock_partitions c))]
          ++ flat_map (fun p => [lo32 (part_value p); hi32 (part_value p)])
                      (clock_partitions c)) /\
  (exists m,
      partition_moduli_raw c moduli_out = Some m /\
      take (2 * length (clock_partitions c)) m
        = flat_map (fun p => [lo32 (part_modulus p); hi32 (part_modulus p)])
                   (clock_partitions c) /\
      decode_pairs (length (clock_partitions c)) m
        = part_modulus <$> clock_partitions c).
Proof.
  intros Hb Hu Hrun Hs Hp Hm.
  pose proof (build_well_formed _ _ Hb) as Hwf.
  apply run_iter in Hrun. subst c.
  destruct (run_total n _ Hwf) as [_ Hwf'].
  destruct (iter_raw_lengths n c0) as [Hrs Hrp].
  pose proof (running_moduli_in_u64 b c0 n Hb Hu) as Hmod.
  pose proof (running_moduli_in_u64 b c0 (N.succ n) Hb Hu) as Hmod'.
  rewrite N.iter_succ in Hmod'.
  set (c := N.iter n next_state c0) in *.
  split; [| split; [| split]].
  - destruct (run_raw_lockstep n c0 snapshot_out pulse_bits_out Hwf)
      as (s & p & Hraw & _); [rewrite <- Hrs; exact Hs | rewrite <- Hrp; exact Hp |].
    exists s, p. exact Hraw.
  - destruct (tick_total _ Hwf') as [outcome Ht].
    destruct (tick_raw_agrees c (next_state c) outcome snapshot_out pulse_bits_out)
      as (s & p & Hraw & Horder & Hdec & Hbit); try assumption.
    { apply next_state_well_formed, Hwf'. }
    exists (next_state c), outcome, s, p.
    split; [exact Ht |]. split; [exact Hraw |]. split; [exact Horder |].
    split; [exact Hdec | exact Hbit].
  - unfold snapshot_raw.
    pose proof (length_snapshot_words (snapshot c) false) as Hlen.
    change (6 + 2 * length (snap_partitions (snapshot c)))%nat
      with (raw_snapshot_len c) in Hlen.
    destruct (write_words_fits (snapshot_words (snapshot c) false) snapshot_out)
      as [-> _]; [rewrite Hlen; exact Hs |].
    eexists. split; [reflexivity |]. rewrite <- Hlen. apply take_app_length.
  - unfold partition_moduli_raw.
    pose proof (length_lo_hi_words part_modulus (clock_partitions c)) as Hlen.
    destruct (write_words_fits (moduli_words c) moduli_out) as [-> _];
      [unfold moduli_words; rewrite Hlen; exact Hm |].
    eexists. split; [reflexivity |]. split.
    + rewrite <- Hlen. apply take_app_length.
    + apply decode_pairs_flat_map, Hmod.
Qed.

Lemma raw_path_refines_rich_witness :
  exists c' outcome s p,
    tick (fresh_clock (builder_partitions raw_demo) LeastSignificantFirst
            (builder_pulses raw_demo)) = Some (c', outcome) /\
    tick_raw (fresh_clock (builder_partitions raw_demo) LeastSignificantFirst
                (builder_pulses raw_demo)) (replicate 10 7) (replicate 1 9)
      = Some (c', s, p) /\
    s = [1; 0; 0; 0; 0; 2; 1; 0; 0; 0] /\
    decode_raw ["one"; "five"] s p = Some (outcome_fields outcome) /\
    field_pulses (outcome_fields outcome) = ["one"].
Proof.
  destruct (raw_path_refines_rich raw_demo
              (fresh_clock (builder_partitions raw_demo) LeastSignificantFirst
                 (builder_pulses raw_demo))
              0
              (fresh_clock (builder_partitions raw_demo) LeastSignificantFirst
                 (builder_pulses raw_demo))
              (replicate 10 7) (replicate 1 9) (replicate 4 0))
    as (_ & (c' & outcome & s & p & Ht & Hraw & Horder & Hdec & _) & _).
  - vm_compute. reflexivity.
  - repeat constructor.
  - reflexivity.
  - vm_compute. lia.
  - vm_compute. lia.
  - vm_compute. lia.
  - exists c', outcome, s, p. split; [exact Ht |]. split; [exact Hraw |].
    vm_compute in Ht. injection Ht as <- <-.
    vm_compute in Hraw. injection Hraw as <- <-.
    split; [reflexivity |]. split; [exact Hdec | reflexivity].
Defined.

(** * Further properties of the clock core *)

(** ** Partitions count in mixed radix *)

Lemma succ_digit (m n : N) :
  0 < m ->
  (n mod m + 1 = m -> (n + 1) mod m = 0 /\ (n + 1) / m = n / m + 1) /\
  (n mod m + 1 <> m -> (n + 1) mod m = n mod m + 1 /\ (n + 1) / m = n / m).
Proof.
  intros Hm. assert (m <> 0) as Hm0 by lia.
  pose proof (N.div_mod n m Hm0) as Hdm. pose proof (N.mod_lt n m Hm0) as Hlt.
  split; intros H.
  - split; [symmetry; apply (N.mod_unique (n + 1) m (n / m + 1) 0); lia |].
    symmetry. apply (N.div_unique (n + 1) m (n / m + 1) 0); lia.
  - split; [symmetry; apply (N.mod_unique (n + 1) m (n / m) (n mod m + 1)); lia |].
    symmetry. apply (N.div_unique (n + 1) m (n / m) (n mod m + 1)); lia.
Qed.

Lemma advance_loop_set_digits ps n :
  Forall (fun p => 0 < part_modulus p /\ U64.in_range (part_modulus p)) ps ->
  advance_loop true (set_digits ps n) = set_digits ps (n + 1).
Proof.
  intros H. revert n. induction H as [|p ps [Hpos Hrange] _ IH]; intros n; simpl;
    [reflexivity |].
  unfold increment. simpl.
  assert (part_modulus p <> 0) as Hm0 by lia.
  pose proof (N.mod_lt n (part_modulus p) Hm0) as Hlt.
  rewrite wrapping_add_small by (unfold U64.in_range in Hrange; lia).
  destruct (succ_digit (part_modulus p) n Hpos) as [Hcarry Hstay].
  destruct (N.leb_spec (part_modulus p) (n mod part_modulus p + 1)) as [Hle|Hgt].
  - destruct Hcarry as [-> ->]; [lia |]. rewrite IH. reflexivity.
  - destruct Hstay as [-> ->]; [lia |]. rewrite advance_loop_break. reflexivity.
Qed.

Lemma set_digits_zero ps :
  Forall (fun p => part_value p = 0) ps -> set_digits ps 0 = ps.
Proof.
  induction 1 as [|[name value modulus] ps Hp _ IH]; simpl; [reflexivity |].
  simpl in Hp. subst value. rewrite N.Div0.mod_0_l, N.Div0.div_0_l, IH. reflexivity.
Qed.

Lemma set_digits_values ps n :
  part_value <$> set_digits ps n = digits (part_modulus <$> ps) n.
Proof.
  revert n. induction ps as [|p ps IH]; intros n; simpl; [reflexivity |].
  rewrite IH. reflexivity.
Qed.

Lemma set_digits_moduli ps n : part_modulus <$> set_digits ps n = part_modulus <$> ps.
Proof.
  revert n. induction ps as [|p ps IH]; intros n; simpl; [reflexivity |].
  rewrite IH. reflexivity.
Qed.

Lemma iter_partitions n self :
  clock_partitions (N.iter n next_state self)
  = N.iter n (advance_partitions (clock_partition_order self)) (clock_partitions self).
Proof.
  induction n as [|n IH] using N.peano_ind; [reflexivity |].
  rewrite !N.iter_succ, <- IH.
  destruct (iter_shape n self) as (<- & _). unfold next_state.
  destruct (U64.overflowing_add _ _). reflexivity.
Qed.

Lemma iter_advance_lsf n ps :
  Forall partition_at_zero ps ->
  N.iter n (advance_partitions LeastSignificantFirst) ps = set_digits ps n.
Proof.
  intros H. induction n as [|n IH] using N.peano_ind.
  - simpl. symmetry. apply set_digits_zero. eapply Forall_impl; [exact H |].
    intros p Hp. apply Hp.
  - rewrite N.iter_succ, IH. simpl. rewrite <- N.add_1_r.
    apply advance_loop_set_digits. eapply Forall_impl; [exact H |].
    intros p Hp. apply Hp.
Qed.

Lemma iter_advance_msf n ps :
  Forall partition_at_zero ps ->
  N.iter n (advance_partitions MostSignificantFirst) ps
  = reverse (set_digits (reverse ps) n).
Proof.
  intros H. apply Forall_reverse in H.
  induction n as [|n IH] using N.peano_ind.
  - simpl. rewrite set_digits_zero, reverse_involutive; [reflexivity |].
    eapply Forall_impl; [exact H |]. intros p Hp. apply Hp.
  - rewrite N.iter_succ, IH. simpl. rewrite reverse_involutive, <- N.add_1_r.
    rewrite advance_loop_set_digits; [reflexivity |].
    eapply Forall_impl; [exact H |]. intros p Hp. apply Hp.
Qed.

(** X1: on a clock whose partitions all stand at 0, [n] calls of [tick]
    leave the partition values at the digits of [n] in the mixed radix of the
    moduli, the least significant digit at position 0 under
    [LeastSignificantFirst] and at the last position under
    [MostSignificantFirst]. *)
Theorem partitions_count_ticks (self self' : Clock) (n : N) :
  Forall partition_at_zero (clock_partitions self) ->
  run n self = Some self' ->
  part_value <$> clock_partitions self'
  = digits_in_order (clock_partition_order self)
      (part_modulus <$> clock_partitions self) n.
Proof.
  intros H Hrun. apply run_iter in Hrun. subst self'.
  rewrite iter_partitions. destruct (clock_partition_order self); simpl.
  - rewrite (iter_advance_lsf n _ H). apply set_digits_values.
  - rewrite (iter_advance_msf n _ H), fmap_reverse, set_digits_values, fmap_reverse.
    reflexivity.
Qed.

Lemma partitions_count_ticks_witness :
  part_value <$> [mkPartitionState "sec" 5 60; mkPartitionState "min" 2 60]
  = digits_in_order LeastSignificantFirst [60; 60] 125.
Proof.
  apply (partitions_count_ticks
           (fresh_clock (builder_partitions sec_min) LeastSignificantFirst [])
           (mkClock 125 0 [mkPartitionState "sec" 5 60; mkPartitionState "min" 2 60]
                    LeastSignificantFirst [])
           125).
  - repeat constructor.
  - vm_compute. reflexivity.
Defined.

(** ** The partitions cycle *)

Lemma cycle_length_app l1 l2 :
  cycle_length (l1 ++ l2) = cycle_length l1 * cycle_length l2.
Proof.
  unfold cycle_length. induction l1 as [|m l1 IH]; simpl; [lia |].
  rewrite IH. lia.
Qed.

Lemma cycle_length_reverse l : cycle_length (reverse l) = cycle_length l.
Proof.
  induction l as [|m l IH]; [reflexivity |].
  rewrite reverse_cons, cycle_length_app, IH. unfold cycle_length. simpl. lia.
Qed.

Lemma set_digits_cycle ps n k :
  Forall (fun p => 0 < part_modulus p) ps ->
  set_digits ps (n + k * cycle_length (part_modulus <$> ps)) = set_digits ps n.
Proof.
  intros H. revert n k. induction H as [|p ps Hm _ IH]; intros n k; [reflexivity |].
  assert (part_modulus p <> 0) as Hm0 by lia.
  cbn [set_digits fmap list_fmap]. unfold cycle_length. cbn [foldr].
  fold (cycle_length (part_modulus <$> ps)).
  replace (n + k * (part_modulus p * cycle_length (part_modulus <$> ps)))
    with (n + (k * cycle_length (part_modulus <$> ps)) * part_modulus p) by lia.
  rewrite N.Div0.mod_add, (N.div_add _ _ _ Hm0), IH. reflexivity.
Qed.

(** X2: the partition values repeat with the product of the moduli as
    period: from a clock at 0, the partitions after [n + k * (m0 * ... * mk)]
    ticks are those after [n] ticks, so that after a whole number of cycles
    every partition is back at 0. *)
Theorem partitions_cycle (self c1 c2 : Clock) (n k : N) :
  Forall partition_at_zero (clock_partitions self) ->
  run n self = Some c1 ->
  run (n + k * cycle_length (part_modulus <$> clock_partitions self)) self = Some c2 ->
  clock_partitions c2 = clock_partitions c1 /\
  (n = 0 -> clock_partitions c2 = clock_partitions self).
Proof.
  intros H H1 H2.
  assert (clock_partitions c2 = clock_partitions c1) as Heq.
  { apply run_iter in H1, H2. subst c1 c2. rewrite !iter_partitions.
    assert (Forall (fun p => 0 < part_modulus p) (clock_partitions self)) as Hpos.
    { eapply Forall_impl; [exact H |]. intros p Hp. apply Hp. }
    destruct (clock_partition_order self).
    - rewrite !iter_advance_lsf by exact H. apply set_digits_cycle, Hpos.
    - rewrite !iter_advance_msf by exact H. f_equal.
      rewrite <- cycle_length_reverse, <- fmap_reverse.
      apply set_digits_cycle, Forall_reverse, Hpos. }
  split; [exact Heq |]. intros ->. rewrite Heq.
  apply run_iter in H1. subst c1. reflexivity.
Qed.

Lemma partitions_cycle_witness :
  clock_partitions
    (mkClock 3605 0 [mkPartitionState "sec" 5 60; mkPartitionState "min" 0 60]
             LeastSignificantFirst [])
  = clock_partitions
      (mkClock 5 0 [mkPartitionState "sec" 5 60; mkPartitionState "min" 0 60]
               LeastSignificantFirst []).
Proof.
  refine (proj1 (partitions_cycle
           (fresh_clock (builder_partitions sec_min) LeastSignificantFirst [])
           _ _ 5 1 _ _ _)).
  - repeat constructor.
  - vm_compute. reflexivity.
  - vm_compute. reflexivity.
Defined.

(** ** The (epoch, tick) pair as one counter *)

(** X3: from tick 0 and epoch 0, after [n] calls of [tick] the pair
    (epoch, tick) is the 128-bit count of the calls:
    [epoch * 2^64 + tick = n mod 2^128]. *)
Theorem epoch_tick_count (self self' : Clock) (n : N) :
  clock_tick self = 0 -> clock_epoch self = 0 ->
  run n self = Some self' ->
  clock_epoch self' * 2 ^ 64 + clock_tick self' = n mod 2 ^ 128 /\
  (n < 2 ^ 128 -> clock_epoch self' * 2 ^ 64 + clock_tick self' = n).
Proof.
  intros Ht He Hrun. apply run_iter in Hrun. subst self'.
  assert (clock_epoch (N.iter n next_state self) * 2 ^ 64
          + clock_tick (N.iter n next_state self) = n mod 2 ^ 128) as Hcount.
  { destruct (iter_counters n self) as [-> ->].
    - rewrite Ht. reflexivity.
    - rewrite He. reflexivity.
    - rewrite Ht, He, N.mul_0_l, !N.add_0_l.
      change (2 ^ 128) with (U64.modulus * U64.modulus).
      change (2 ^ 64) with U64.modulus.
      rewrite N.Div0.mod_mul_r. lia. }
  split; [exact Hcount |]. intros Hn. rewrite Hcount. apply N.mod_small, Hn.
Qed.

Lemma epoch_tick_count_witness :
  clock_epoch (mkClock 7 0 [] LeastSignificantFirst []) * 2 ^ 64
  + clock_tick (mkClock 7 0 [] LeastSignificantFirst []) = 7.
Proof.
  refine (proj2 (epoch_tick_count (fresh_clock [] LeastSignificantFirst []) _ 7 _ _ _) _).
  - reflexivity.
  - reflexivity.
  - vm_compute. reflexivity.
  - reflexivity.
Defined.

(** X4: a step reports an overflow exactly when the tick of its snapshot
    is 0, and exactly then the last pulse of the outcome is the reserved
    one. *)
Theorem overflow_iff_tick_zero (self self' : Clock) (outcome : TickOutcome) :
  U64.in_range (clock_tick self) ->
  tick self = Some (self', outcome) ->
  (out_overflowed outcome = true <-> snap_tick (out_snapshot outcome) = 0) /\
  (out_overflowed outcome = true <->
   last (out_pulses outcome)
   = Some (mkPulseFired "__overflow__" 0 (snap_epoch (out_snapshot outcome)))).
Proof.
  intros Hr Ht.
  destruct (tick_next_state _ _ _ Ht) as (Hs & Hsnap & Hov & fired & Hf & Hp).
  assert (out_overflowed outcome = true <-> clock_tick self' = 0) as Hzero.
  { rewrite Hov, Hs. unfold U64.in_range, U64.modulus in Hr.
    destruct (N.eq_dec (clock_tick self) U64.MAX) as [Hmax|Hne].
    - destruct (next_state_at_max self Hmax) as (-> & _ & ->). tauto.
    - assert (clock_tick self < U64.MAX) as Hlt by (unfold U64.MAX in *; lia).
      destruct (next_state_below_max self Hlt) as (-> & _ & ->).
      split; [discriminate | lia]. }
  rewrite Hsnap. split; [exact Hzero |].
  rewrite Hp. destruct (out_overflowed outcome) eqn:Ho.
  - rewrite last_snoc. unfold overflow_fired. simpl.
    rewrite (proj1 Hzero eq_refl). tauto.
  - split; [discriminate |]. intros Hlast. exfalso.
    apply last_Some in Hlast as [l' Hl'].
    assert (mkPulseFired "__overflow__" 0 (clock_epoch self') ∈ fired) as Hin.
    { rewrite Hl'. apply elem_of_app. right. left. }
    assert (Forall (fun f => fired_tick f = clock_tick self') fired) as Hticks.
    { unfold user_fired in Hf. revert Hf. generalize (snapshot self').
      generalize (clock_epoch self'). generalize (clock_tick self').
      intros t e snap. clear. revert fired.
      induction (clock_pulses self') as [|p ps IH]; intros fired; simpl.
      - intros [= <-]. constructor.
      - destruct (is_met _ _ _) as [b|]; simpl; [| discriminate].
        destruct (evaluate_pulses ps t e snap) as [rest|]; simpl; [| discriminate].
        intros [= <-]. specialize (IH rest eq_refl).
        destruct b; [constructor; [reflexivity | exact IH] | exact IH]. }
    rewrite Forall_forall in Hticks. specialize (Hticks _ Hin). simpl in Hticks.
    destruct Hzero as [_ Hz]. specialize (Hz (eq_sym Hticks)). discriminate.
Qed.

Lemma overflow_iff_tick_zero_witness :
  (false = true <-> 1 = 0) /\
  (false = true <-> @last PulseFired [] = Some (mkPulseFired "__overflow__" 0 0)).
Proof.
  apply (overflow_iff_tick_zero (fresh_clock [] LeastSignificantFirst [])
           (mkClock 1 0 [] LeastSignificantFirst [])
           (mkTickOutcome (mkClockSnapshot 1 0 []) [] false)).
  - reflexivity.
  - reflexivity.
Defined.

(** ** The pulses of an outcome *)

Lemma evaluate_pulses_order pulses t e snap fired :
  evaluate_pulses pulses t e snap = Some fired ->
  sublist (fired_name <$> fired) (pulse_name <$> pulses) /\
  Forall (fun f => fired_tick f = t /\ fired_epoch f = e) fired /\
  (length fired <= length pulses)%nat.
Proof.
  revert fired. induction pulses as [|p pulses IH]; intros fired; simpl.
  - intros [= <-]. split; [constructor |]. split; [constructor | reflexivity].
  - destruct (is_met _ _ _) as [b|]; simpl; [| discriminate].
    destruct (evaluate_pulses pulses t e snap) as [rest|]; simpl; [| discriminate].
    intros [= <-]. destruct (IH rest eq_refl) as (Hsub & Hall & Hlen).
    destruct b.
    + split; [apply sublist_skip, Hsub |].
      split; [constructor; [split; reflexivity | exact Hall] | simpl; lia].
    + split; [apply sublist_cons, Hsub |]. split; [exact Hall | lia].
Qed.

(** X5: the pulses of an outcome are listed in registration order, the
    reserved overflow pulse last; each carries the tick and the epoch of the
    outcome's snapshot, and there are at most one more of them than
    registered pulses. *)
Theorem outcome_pulses_ordered (self self' : Clock) (outcome : TickOutcome) :
  tick self = Some (self', outcome) ->
  sublist (fired_name <$> out_pulses outcome)
          ((pulse_name <$> clock_pulses self) ++ ["__overflow__"]) /\
  Forall (fun f => fired_tick f = snap_tick (out_snapshot outcome) /\
                   fired_epoch f = snap_epoch (out_snapshot outcome))
         (out_pulses outcome) /\
  (length (out_pulses outcome) <= length (clock_pulses self) + 1)%nat.
Proof.
  intros Ht.
  destruct (tick_next_state _ _ _ Ht) as (Hs & Hsnap & _ & fired & Hf & Hp).
  destruct (next_state_shape self) as (_ & Hpulses & _). rewrite <- Hs in Hpulses.
  destruct (evaluate_pulses_order _ _ _ _ _ Hf) as (Hsub & Hall & Hlen).
  rewrite Hpulses in Hsub, Hlen. rewrite Hsnap, Hp.
  destruct (out_overflowed outcome).
  - split; [rewrite fmap_app; apply sublist_app; [exact Hsub | reflexivity] |].
    split; [| rewrite length_app; simpl; lia].
    apply Forall_app. split; [exact Hall |]. constructor; [| constructor].
    split; reflexivity.
  - split; [apply sublist_inserts_r, Hsub |]. split; [exact Hall | lia].
Qed.

Lemma outcome_pulses_ordered_witness :
  sublist ["one"] (["one"; "five"] ++ ["__overflow__"]).
Proof.
  refine (proj1 (outcome_pulses_ordered
    (fresh_clock (builder_partitions raw_demo) LeastSignificantFirst
       (builder_pulses raw_demo))
    (mkClock 1 0 [mkPartitionState "sec" 1 60; mkPartitionState "min" 0 60]
       LeastSignificantFirst (builder_pulses raw_demo))
    (mkTickOutcome
       (mkClockSnapshot 1 0 [mkPartitionState "sec" 1 60; mkPartitionState "min" 0 60])
       [mkPulseFired "one" 1 0] false) _)).
  vm_compute. reflexivity.
Defined.

(** ** The shape of a running clock *)

(** X6: however often [tick] is called, the clock keeps its partition
    order, its pulses, and the names and moduli of its partitions, in the
    same positions. *)
Theorem shape_is_frozen (self self' : Clock) (n : N) :
  run n self = Some self' ->
  clock_partition_order self' = clock_partition_order self /\
  clock_pulses self' = clock_pulses self /\
  part_name <$> clock_partitions self' = part_name <$> clock_partitions self /\
  part_modulus <$> clock_partitions self' = part_modulus <$> clock_partitions self /\
  length (clock_partitions self') = length (clock_partitions self).
Proof.
  intros Hrun. apply run_iter in Hrun. subst self'.
  destruct (iter_shape n self) as (Ho & Hp & Hn & Hm).
  repeat split; try assumption.
  rewrite <- (length_fmap part_name (clock_partitions (N.iter n next_state self))), Hn.
  apply length_fmap.
Qed.

Lemma shape_is_frozen_witness :
  part_name <$> [mkPartitionState "sec" 5 60; mkPartitionState "min" 2 60]
  = part_name <$> clock_partitions
      (fresh_clock (builder_partitions sec_min) LeastSignificantFirst []).
Proof.
  refine (proj1 (proj2 (proj2 (shape_is_frozen
    (fresh_clock (builder_partitions sec_min) LeastSignificantFirst [])
    (mkClock 125 0 [mkPartitionState "sec" 5 60; mkPartitionState "min" 2 60]
             LeastSignificantFirst []) 125 _)))).
  vm_compute. reflexivity.
Defined.

(** ** The algebra of conditions *)

Lemma iter_all_fmap {A B} (f : B -> option bool) (g : A -> B) l :
  iter_all f (g <$> l) = iter_all (fun x => f (g x)) l.
Proof.
  induction l as [|x l IH]; simpl; [reflexivity |].
  destruct (f (g x)) as [[|]|]; simpl; [exact IH | reflexivity | reflexivity].
Qed.

Lemma iter_any_fmap {A B} (f : B -> option bool) (g : A -> B) l :
  iter_any f (g <$> l) = iter_any (fun x => f (g x)) l.
Proof.
  induction l as [|x l IH]; simpl; [reflexivity |].
  destruct (f (g x)) as [[|]|]; simpl; [reflexivity | exact IH | reflexivity].
Qed.

Lemma iter_all_negb {A} (f : A -> option bool) l :
  iter_all (fun x => b ← f x; Some (negb b)) l = (b ← iter_any f l; Some (negb b)).
Proof.
  induction l as [|x l IH]; simpl; [reflexivity |].
  destruct (f x) as [[|]|]; simpl; [reflexivity | exact IH | reflexivity].
Qed.

Lemma iter_any_negb {A} (f : A -> option bool) l :
  iter_any (fun x => b ← f x; Some (negb b)) l = (b ← iter_all f l; Some (negb b)).
Proof.
  induction l as [|x l IH]; simpl; [reflexivity |].
  destruct (f x) as [[|]|]; simpl; [exact IH | reflexivity | reflexivity].
Qed.

(** X7: De Morgan's laws hold for [is_met] on non-empty lists, panics
    included ([all] and [any] stop at the same child), and fail on the empty
    list, where [And] is false rather than vacuously true; a double negation
    evaluates as the condition itself. *)
Theorem de_morgan (cs : list PulseCondition) (t : N) (snap : ClockSnapshot) :
  cs <> [] ->
  is_met (Not (Or cs)) t snap = is_met (And (Not <$> cs)) t snap /\
  is_met (Not (And cs)) t snap = is_met (Or (Not <$> cs)) t snap /\
  is_met (Not (Or [])) t snap <> is_met (And (Not <$> [])) t snap /\
  is_met (Not (And [])) t snap <> is_met (Or (Not <$> [])) t snap /\
  (forall c, is_met (Not (Not c)) t snap = is_met c t snap).
Proof.
  intros Hne. split; [| split; [| split; [| split]]].
  - cbn [is_met]. rewrite bool_decide_eq_false_2.
    + rewrite iter_all_fmap. cbn [is_met]. symmetry. apply iter_all_negb.
    + intros H. apply fmap_nil_inv in H. contradiction.
  - cbn [is_met]. rewrite bool_decide_eq_false_2 by exact Hne.
    rewrite iter_any_fmap. cbn [is_met]. symmetry. apply iter_any_negb.
  - discriminate.
  - discriminate.
  - intros c. cbn [is_met]. destruct (is_met c t snap) as [[|]|]; reflexivity.
Qed.

Lemma de_morgan_witness :
  is_met (Not (Or [Every 0; TickRange 1 2])) 1 bare_snapshot
  = is_met (And (Not <$> [Every 0; TickRange 1 2])) 1 bare_snapshot.
Proof.
  refine (proj1 (de_morgan [Every 0; TickRange 1 2] 1 bare_snapshot _)).
  discriminate.
Defined.

(** ** Conditions that validation accepts and no step meets *)

Lemma partition_found snap name p :
  partition snap name = Some p -> p ∈ snap_partitions snap /\ part_name p = name.
Proof.
  unfold partition. intros H. apply find_some in H as [Hin Heq].
  split; [apply list_elem_of_In, Hin | apply String.eqb_eq, Heq].
Qed.

(** X8: [validate_condition] accepts a [PartitionEquals] whatever its
    value, and a value at or above the partition's modulus is never met on a
    clock that keeps the partition invariant: the pulse never fires. *)
Theorem partition_equals_out_of_range (self self' : Clock) (outcome : TickOutcome)
    (pulse name : string) (value : N) (partitions : gset string) :
  Forall partition_ok (clock_partitions self) ->
  NoDup (pulse_name <$> clock_pulses self) ->
  mkPulseSpec pulse (PartitionEquals name value) ∈ clock_pulses self ->
  pulse <> "__overflow__" ->
  (forall p, p ∈ clock_partitions self -> part_name p = name -> part_modulus p <= value) ->
  tick self = Some (self', outcome) ->
  (name ∈ partitions ->
   validate_condition (PartitionEquals name value) partitions pulse = Ok ()) /\
  pulse ∉ fired_name <$> out_pulses outcome.
Proof.
  intros Hok Hnd Hin Hname Hmod Ht. split.
  { intros Hn. simpl. rewrite bool_decide_eq_true_2 by exact Hn. reflexivity. }
  rewrite (tick_fired_names _ _ _ pulse Ht Hname).
  intros (q & Hq & Hqn & Hmet).
  assert (q = mkPulseSpec pulse (PartitionEquals name value)) as ->.
  { apply (pulse_names_unique (clock_pulses self)); assumption. }
  simpl in Hmet.
  destruct (partition (snapshot self') name) as [p|] eqn:Hp; simpl in Hmet;
    [| discriminate].
  apply partition_found in Hp as [Hpin Hpn]. simpl in Hpin.
  injection Hmet as Hmet. apply N.eqb_eq in Hmet.
  destruct (tick_next_state _ _ _ Ht) as (-> & _).
  pose proof (advance_partitions_ok (clock_partition_order self) _ Hok) as Hok'.
  pose proof (advance_partitions_increment (clock_partition_order self)
                (clock_partitions self)) as Hinc.
  assert (clock_partitions (next_state self)
          = advance_partitions (clock_partition_order self) (clock_partitions self))
    as Hparts by (unfold next_state; destruct (U64.overflowing_add _ _); reflexivity).
  rewrite Hparts in Hpin.
  apply list_elem_of_lookup in Hpin as [i Hi].
  destruct (Forall2_lookup_r _ _ _ _ _ Hinc Hi) as (p0 & Hp0 & Hrel).
  assert (part_name p = part_name p0 /\ part_modulus p = part_modulus p0) as [Hn Hm].
  { destruct Hrel as [->| ->]; [tauto |]. rewrite increment_name, increment_modulus. tauto. }
  assert (p0 ∈ clock_partitions self) as Hp0in by (apply list_elem_of_lookup; eauto).
  specialize (Hmod p0 Hp0in). rewrite <- Hn in Hmod. specialize (Hmod Hpn).
  rewrite Forall_forall in Hok'.
  assert (p ∈ advance_partitions (clock_partition_order self) (clock_partitions self))
    as Hpin' by (apply list_elem_of_lookup; eauto).
  specialize (Hok' p Hpin'). unfold partition_ok in Hok'. lia.
Qed.

Lemma partition_equals_out_of_range_witness :
  "sixty" ∉ fired_name <$> @nil PulseFired.
Proof.
  refine (proj2 (partition_equals_out_of_range
    (fresh_clock (builder_partitions sec_min) LeastSignificantFirst
       [mkPulseSpec "sixty" (PartitionEquals "sec" 60)])
    (mkClock 1 0 [mkPartitionState "sec" 1 60; mkPartitionState "min" 0 60]
       LeastSignificantFirst [mkPulseSpec "sixty" (PartitionEquals "sec" 60)])
    (mkTickOutcome
       (mkClockSnapshot 1 0 [mkPartitionState "sec" 1 60; mkPartitionState "min" 0 60])
       [] false)
    "sixty" "sec" 60 ∅ _ _ _ _ _ _)).
  - repeat constructor.
  - repeat constructor. set_solver.
  - left.
  - discriminate.
  - intros p Hp Hn. simpl in Hp. rewrite !elem_of_cons in Hp.
    destruct Hp as [->|[->|Hp]]; [simpl; lia | discriminate Hn | inversion Hp].
  - vm_compute. reflexivity.
Defined.

(** ** Validation of conditions *)

(** X9: every error of [validate_condition] is one of the four condition
    errors and names the pulse under validation; a node of the tree has the
    violation the error reports. *)
Theorem validation_error_names_pulse (c : PulseCondition) (partitions : gset string)
    (pulse : string) (e : ClockError) :
  validate_condition c partitions pulse = Err e ->
  error_pulse e = Some pulse /\
  condition_error e /\
  exists node, node ∈ nodes c /\ node_violation partitions pulse node e.
Proof.
  intros H. apply validate_condition_err in H as (node & Hn & Hv).
  split; [| split; [| eauto]].
  - destruct e; simpl in Hv; try contradiction; simpl; f_equal; apply (proj1 Hv).
  - destruct e; simpl in Hv; try contradiction; exact I.
Qed.

Lemma validation_error_names_pulse_witness :
  error_pulse (UnknownPartition "noon" "hour") = Some "noon".
Proof.
  refine (proj1 (validation_error_names_pulse
    (And [TickRange 1 2; Not (PartitionModulo "hour" 0 0)]) {[ "sec" ]} "noon"
    (UnknownPartition "noon" "hour") _)).
  vm_compute. reflexivity.
Defined.

(** X10: a condition accepted for one pulse and one set of partition names
    is accepted for every pulse and every larger set: registering further
    partitions or renaming a pulse never invalidates a condition. *)
Theorem validation_monotone (c : PulseCondition) (partitions partitions' : gset string)
    (pulse pulse' : string) :
  partitions ⊆ partitions' ->
  validate_condition c partitions pulse = Ok () ->
  validate_condition c partitions' pulse' = Ok ().
Proof.
  intros Hsub H. apply validate_condition_ok in H. apply validate_condition_ok.
  unfold condition_valid in *. eapply Forall_impl; [exact H |].
  intros [period|name value|name modulus remainder|start end_|c'|cs|cs]; simpl;
    try tauto.
  - intros Hn. apply Hsub, Hn.
  - intros [Hn Hm]. split; [apply Hsub, Hn | exact Hm].
Qed.

Lemma validation_monotone_witness :
  validate_condition (PartitionEquals "sec" 0) {[ "sec"; "min" ]} "top" = Ok ().
Proof.
  apply (validation_monotone _ {[ "sec" ]} _ "minute").
  - set_solver.
  - vm_compute. reflexivity.
Defined.

(** ** Conditions see partitions by name only *)

Lemma fmap_unique {A} (f : A -> string) (l : list A) x y :
  NoDup (f <$> l) -> x ∈ l -> y ∈ l -> f x = f y -> x = y.
Proof.
  induction l as [|z l IH]; simpl; [intros _ H; inversion H |].
  rewrite NoDup_cons. intros [Hz Hnd] Hx Hy Heq.
  apply elem_of_cons in Hx as [->|Hx], Hy as [->|Hy].
  - reflexivity.
  - exfalso. apply Hz. rewrite Heq. apply list_elem_of_fmap_2. exact Hy.
  - exfalso. apply Hz. rewrite <- Heq. apply list_elem_of_fmap_2. exact Hx.
  - apply IH; assumption.
Qed.

Lemma partition_permutation snap snap' name :
  NoDup (part_name <$> snap_partitions snap) ->
  snap_partitions snap ≡ₚ snap_partitions snap' ->
  partition snap name = partition snap' name.
Proof.
  intros Hnd Hperm. unfold partition.
  destruct (List.find _ (snap_partitions snap)) as [p|] eqn:Hp.
  - apply find_some in Hp as [Hin Hn].
    destruct (List.find _ (snap_partitions snap')) as [q|] eqn:Hq.
    + apply find_some in Hq as [Hqin Hqn]. f_equal.
      apply (fmap_unique part_name (snap_partitions snap)); [exact Hnd | | |].
      * apply list_elem_of_In, Hin.
      * rewrite Hperm. apply list_elem_of_In, Hqin.
      * apply String.eqb_eq in Hn, Hqn. congruence.
    + exfalso.
      assert (In p (snap_partitions snap')) as Hin'
        by (apply list_elem_of_In; rewrite <- Hperm; apply list_elem_of_In, Hin).
      pose proof (find_none _ _ Hq p Hin') as Hnone. simpl in Hnone. congruence.
  - destruct (List.find _ (snap_partitions snap')) as [q|] eqn:Hq; [| reflexivity].
    apply find_some in Hq as [Hqin Hqn]. exfalso.
    assert (In q (snap_partitions snap)) as Hin'
      by (apply list_elem_of_In; rewrite Hperm; apply list_elem_of_In, Hqin).
    pose proof (find_none _ _ Hp q Hin') as Hnone. simpl in Hnone. congruence.
Qed.

Lemma iter_all_ext {A} (f g : A -> option bool) l :
  Forall (fun x => f x = g x) l -> iter_all f l = iter_all g l.
Proof.
  induction 1 as [|x l Hx _ IH]; simpl; [reflexivity |]. rewrite Hx, IH. reflexivity.
Qed.

Lemma iter_any_ext {A} (f g : A -> option bool) l :
  Forall (fun x => f x = g x) l -> iter_any f l = iter_any g l.
Proof.
  induction 1 as [|x l Hx _ IH]; simpl; [reflexivity |]. rewrite Hx, IH. reflexivity.
Qed.

Lemma is_met_ext c t snap snap' :
  (forall name, partition snap name = partition snap' name) ->
  is_met c t snap = is_met c t snap'.
Proof.
  intros Hsame.
  induction c as [period|name value|name modulus remainder|start end_|c IH|cs IH|cs IH]
    using PulseCondition_tree_ind; cbn [is_met].
  - reflexivity.
  - rewrite Hsame. reflexivity.
  - rewrite Hsame. reflexivity.
  - reflexivity.
  - rewrite IH. reflexivity.
  - rewrite (iter_all_ext _ _ _ IH). reflexivity.
  - apply iter_any_ext, IH.
Qed.

(** X11: [is_met] reads a snapshot through its partitions by name only:
    two snapshots holding the same uniquely named partitions in any order
    (the storage order of the two partition orders, say), at whatever tick
    and epoch, give every condition the same value. *)
Theorem is_met_ignores_storage_order (c : PulseCondition) (t : N)
    (snap snap' : ClockSnapshot) :
  NoDup (part_name <$> snap_partitions snap) ->
  snap_partitions snap ≡ₚ snap_partitions snap' ->
  is_met c t snap = is_met c t snap'.
Proof.
  intros Hnd Hperm. apply is_met_ext. intros name.
  apply partition_permutation; assumption.
Qed.

Lemma is_met_ignores_storage_order_witness :
  is_met (PartitionEquals "min" 2) 9
    (mkClockSnapshot 9 0 [mkPartitionState "sec" 5 60; mkPartitionState "min" 2 60])
  = is_met (PartitionEquals "min" 2) 9
      (mkClockSnapshot 0 7 [mkPartitionState "min" 2 60; mkPartitionState "sec" 5 60]).
Proof.
  apply is_met_ignores_storage_order.
  - simpl. apply NoDup_cons. split; [| apply NoDup_singleton].
    rewrite list_elem_of_singleton. discriminate.
  - simpl. apply Permutation_swap.
Defined.

(** * Further properties of the bridge *)

(** ** Writing a literal and parsing it back *)

Lemma Forall_flat_map_nodes (P : PulseCondition -> Prop) cs :
  Forall P (flat_map nodes cs) <-> Forall (fun c => Forall P (nodes c)) cs.
Proof.
  induction cs as [|c cs IH]; simpl.
  - split; constructor.
  - rewrite Forall_app, Forall_cons, IH. reflexivity.
Qed.

Lemma get_u64_number obj key (n : N) :
  U64.in_range n ->
  reflect_get obj key = JsNumber (Z.of_N n) -> get_u64 obj key = Ok n.
Proof.
  unfold U64.in_range, U64.modulus, get_u64. intros Hn ->.
  rewrite bool_decide_eq_true_2 by lia. rewrite N2Z.id. reflexivity.
Qed.

Lemma try_map_fmap {A B E} (f : B -> Result E A) (g : A -> B) (k : A -> bool) e l :
  Forall (fun x => f (g x) = if k x then Ok x else Err e) l ->
  try_map f (g <$> l) = if forallb k l then Ok l else Err e.
Proof.
  induction 1 as [|x l Hx _ IH]; [reflexivity |].
  rewrite fmap_cons. cbn [try_map forallb]. rewrite Hx.
  destruct (k x); cbn [and_then andb]; [| reflexivity].
  rewrite IH. destruct (forallb k l); reflexivity.
Qed.

Lemma try_map_fmap_ok {A B E} (f : B -> Result E A) (g : A -> B) l :
  Forall (fun x => f (g x) = Ok x) l -> try_map f (g <$> l) = Ok l.
Proof.
  induction 1 as [|x l Hx _ IH]; [reflexivity |].
  rewrite fmap_cons. cbn [try_map]. rewrite Hx. cbn [and_then]. rewrite IH.
  reflexivity.
Qed.

Lemma literal_of_condition c :
  numbers_in_u64 c -> literal_condition (to_literal c) = Ok c.
Proof.
  unfold numbers_in_u64.
  induction c as [period|name value|name modulus remainder|start end_|c IH|cs IH|cs IH]
    using PulseCondition_tree_ind; simpl; intros Hn.
  - apply Forall_cons in Hn as [Hp _]. simpl in Hp.
    rewrite (get_u64_number _ _ period Hp) by reflexivity. reflexivity.
  - apply Forall_cons in Hn as [Hp _]. simpl in Hp.
    rewrite (get_u64_number _ _ value Hp) by reflexivity. reflexivity.
  - apply Forall_cons in Hn as [[Hm Hr] _].
    rewrite (get_u64_number _ _ modulus Hm) by reflexivity.
    rewrite (get_u64_number _ _ remainder Hr) by reflexivity. reflexivity.
  - apply Forall_cons in Hn as [[Hs He] _].
    rewrite (get_u64_number _ _ start Hs) by reflexivity.
    rewrite (get_u64_number _ _ end_ He) by reflexivity. reflexivity.
  - apply Forall_cons in Hn as [_ Hn]. rewrite (IH Hn). reflexivity.
  - apply Forall_cons in Hn as [_ Hn]. apply Forall_flat_map_nodes in Hn.
    rewrite try_map_fmap_ok; [reflexivity |].
    rewrite Forall_forall in *. intros c Hc. apply (IH c Hc), (Hn c Hc).
  - apply Forall_cons in Hn as [_ Hn]. apply Forall_flat_map_nodes in Hn.
    rewrite try_map_fmap_ok; [reflexivity |].
    rewrite Forall_forall in *. intros c Hc. apply (IH c Hc), (Hn c Hc).
Qed.

Lemma parse_of_condition c :
  numbers_in_u64 c ->
  parse_condition (to_literal c)
  = if parser_knows c then Ok c else Err UnknownConditionType.
Proof.
  unfold numbers_in_u64.
  induction c as [period|name value|name modulus remainder|start end_|c IH|cs IH|cs IH]
    using PulseCondition_tree_ind; simpl; intros Hn.
  - apply Forall_cons in Hn as [Hp _]. simpl in Hp.
    rewrite (get_u64_number _ _ period Hp) by reflexivity. reflexivity.
  - apply Forall_cons in Hn as [Hp _]. simpl in Hp.
    rewrite (get_u64_number _ _ value Hp) by reflexivity. reflexivity.
  - reflexivity.
  - reflexivity.
  - apply Forall_cons in Hn as [_ Hn]. rewrite (IH Hn).
    destruct (parser_knows c); reflexivity.
  - apply Forall_cons in Hn as [_ Hn]. apply Forall_flat_map_nodes in Hn.
    rewrite (try_map_fmap parse_condition to_literal parser_knows UnknownConditionType).
    + destruct (forallb parser_knows cs); reflexivity.
    + rewrite Forall_forall in *. intros c Hc. apply (IH c Hc), (Hn c Hc).
  - apply Forall_cons in Hn as [_ Hn]. apply Forall_flat_map_nodes in Hn.
    rewrite (try_map_fmap parse_condition to_literal parser_knows UnknownConditionType).
    + destruct (forallb parser_knows cs); reflexivity.
    + rewrite Forall_forall in *. intros c Hc. apply (IH c Hc), (Hn c Hc).
Qed.

(** X12: a condition written with the literal constructors of the demo
    and parsed by [parse_condition] comes back unchanged when it is made of
    [every], [partition_equals], [not], [and] and [or]; with a [tick_range]
    or a [partition_modulo] anywhere inside, the whole literal is refused as
    an unknown condition type. *)
Theorem literal_round_trip (c : PulseCondition) :
  numbers_in_u64 c ->
  (parser_knows c = true -> parse_condition (to_literal c) = Ok c) /\
  (parser_knows c = false ->
   parse_condition (to_literal c) = Err UnknownConditionType) /\
  literal_condition (to_literal c) = Ok c.
Proof.
  intros Hn. pose proof (parse_of_condition c Hn) as Hp.
  split; [intros Hk; rewrite Hp, Hk; reflexivity |].
  split; [intros Hk; rewrite Hp, Hk; reflexivity |].
  apply literal_of_condition, Hn.
Qed.

Lemma literal_round_trip_witness :
  parse_condition
    (to_literal (And [PartitionEquals "sec" 0; Not (Or [Every 5; Every 7])]))
  = Ok (And [PartitionEquals "sec" 0; Not (Or [Every 5; Every 7])]).
Proof.
  refine (proj1 (literal_round_trip _ _) _).
  - unfold numbers_in_u64. simpl. repeat constructor.
  - reflexivity.
Defined.

(** ** What the parser can return *)

Lemma with_field_inv {E T} (k : JsValue -> Result E T) e key fields r :
  with_field k (Err e) key fields = Ok r ->
  exists v, v ∈ snd <$> fields /\ k v = Ok r.
Proof.
  induction fields as [|[key' v] fields IH]; simpl; [discriminate |].
  destruct (String.eqb key' key).
  - intros H. exists v. split; [left | exact H].
  - intros H. destruct (IH H) as (v' & Hv' & Hk). exists v'. split; [right |]; assumption.
Qed.

Lemma try_map_Forall {A B E} (f : A -> Result E B) (Q : B -> Prop) l ys :
  Forall (fun x => forall y, f x = Ok y -> Q y) l ->
  try_map f l = Ok ys -> Forall Q ys.
Proof.
  intros H. revert ys. induction H as [|x l Hx _ IH]; intros ys; simpl.
  - intros [= <-]. constructor.
  - rewrite and_then_ok. intros (y & Hy & Hrest).
    apply and_then_ok in Hrest as (ys' & Hys & [= <-]).
    constructor; [apply Hx, Hy | apply IH, Hys].
Qed.

Lemma get_u64_range obj key n : get_u64 obj key = Ok n -> U64.in_range n.
Proof.
  unfold get_u64. destruct (reflect_get obj key) as [|b|z|s|items|fields];
    try discriminate.
  case_bool_decide as Hz; [| discriminate]. intros [= <-].
  unfold U64.in_range, U64.modulus. lia.
Qed.

Lemma parser_output_items value :
  (forall c, parse_condition value = Ok c ->
             parser_knows c = true /\ numbers_in_u64 c) /\
  (forall items, value = JsArray items ->
     Forall (fun v => forall c, parse_condition v = Ok c ->
                                parser_knows c = true /\ numbers_in_u64 c) items).
Proof.
  induction value as [|b|n|s|items IH|obj IH] using JsValue_tree_ind;
    (split; [| try discriminate]); try (intros c; simpl; discriminate).
  - intros items' [= <-]. eapply Forall_impl; [exact IH |]. intros v [Hv _]. exact Hv.
  - assert (forall cs,
      with_field (fun v => match v with
                           | JsArray items => try_map parse_condition items
                           | _ => Err (MalformedField "conditions")
                           end) (Err (MalformedField "conditions")) "conditions" obj = Ok cs ->
      Forall (fun c => parser_knows c = true /\ numbers_in_u64 c) cs) as Hconds.
    { intros cs H. apply with_field_inv in H as (v & Hv & H).
      apply list_elem_of_fmap in Hv as ([key v'] & -> & Hin). simpl in H.
      rewrite Forall_forall in IH. destruct (IH _ Hin) as [_ Hitems]. simpl in Hitems.
      destruct v' as [|b|n|s|items|fields']; try discriminate.
      revert H. apply try_map_Forall, Hitems. reflexivity. }
    assert (forall cs,
      Forall (fun c => parser_knows c = true /\ numbers_in_u64 c) cs ->
      forallb parser_knows cs = true /\ Forall node_in_u64 (flat_map nodes cs)) as Hlist.
    { intros cs H. split.
      - apply forallb_forall. intros c Hc. apply list_elem_of_In in Hc.
        rewrite Forall_forall in H. apply (H c Hc).
      - apply Forall_flat_map_nodes. eapply Forall_impl; [exact H |].
        intros c [_ Hc]. exact Hc. }
    intros c. simpl.
    destruct (reflect_get obj "type") as [|b|n|kind|items|fields']; try discriminate.
    destruct (String.eqb kind "every").
    { rewrite and_then_ok. intros (period & Hp & [= <-]). apply get_u64_range in Hp.
      split; [reflexivity |]. repeat constructor. exact Hp. }
    destruct (String.eqb kind "partition_equals").
    { rewrite and_then_ok. intros (name & _ & H).
      apply and_then_ok in H as (value & Hv & [= <-]). apply get_u64_range in Hv.
      split; [reflexivity |]. repeat constructor. exact Hv. }
    destruct (String.eqb kind "and").
    { rewrite and_then_ok. intros (cs & Hcs & [= <-]).
      destruct (Hlist cs (Hconds cs Hcs)) as [Hk Hn].
      split; [exact Hk |]. constructor; [exact I | exact Hn]. }
    destruct (String.eqb kind "or").
    { rewrite and_then_ok. intros (cs & Hcs & [= <-]).
      destruct (Hlist cs (Hconds cs Hcs)) as [Hk Hn].
      split; [exact Hk |]. constructor; [exact I | exact Hn]. }
    destruct (String.eqb kind "not"); [| discriminate].
    rewrite and_then_ok. intros (c' & Hc' & [= <-]).
    apply with_field_inv in Hc' as (v & Hv & H).
    apply list_elem_of_fmap in Hv as ([key v'] & -> & Hin).
    rewrite Forall_forall in IH. destruct (IH _ Hin) as [Hv' _].
    destruct (Hv' c' H) as [Hk Hn]. split; [exact Hk |].
    constructor; [exact I | exact Hn].
Qed.

(** X13: whatever literal it is given, [parse_condition] never returns a
    tree with a [TickRange] or a [PartitionModulo] node, and every number of
    the returned tree is a [u64]. *)
Theorem parser_output (value : JsValue) (c : PulseCondition) :
  parse_condition value = Ok c ->
  (forall node, node ∈ nodes c ->
     (forall start end_, node <> TickRange start end_) /\
     (forall name modulus remainder, node <> PartitionModulo name modulus remainder) /\
     node_in_u64 node) /\
  parser_knows c = true.
Proof.
  intros H. destruct (proj1 (parser_output_items value) c H) as [Hk Hn].
  split; [| exact Hk].
  assert (forall c', parser_knows c' = true ->
            forall node, node ∈ nodes c' ->
              (forall start end_, node <> TickRange start end_) /\
              (forall name modulus remainder,
                  node <> PartitionModulo name modulus remainder)) as Hnodes.
  { clear. intros c'.
    induction c' as [period|name value|name modulus remainder|start end_|c IH|cs IH|cs IH]
      using PulseCondition_tree_ind; simpl; intros Hk node Hin; try discriminate.
    - apply list_elem_of_singleton in Hin as ->. split; discriminate.
    - apply list_elem_of_singleton in Hin as ->. split; discriminate.
    - apply elem_of_cons in Hin as [->|Hin]; [split; discriminate | apply IH; assumption].
    - apply elem_of_cons in Hin as [->|Hin]; [split; discriminate |].
      apply nodes_flat_map in Hin as (c & Hc & Hin).
      rewrite Forall_forall in IH. apply (IH c Hc); [| exact Hin].
      rewrite forallb_forall in Hk. apply Hk, list_elem_of_In, Hc.
    - apply elem_of_cons in Hin as [->|Hin]; [split; discriminate |].
      apply nodes_flat_map in Hin as (c & Hc & Hin).
      rewrite Forall_forall in IH. apply (IH c Hc); [| exact Hin].
      rewrite forallb_forall in Hk. apply Hk, list_elem_of_In, Hc. }
  intros node Hin. destruct (Hnodes c Hk node Hin) as [H1 H2].
  split; [exact H1 |]. split; [exact H2 |].
  unfold numbers_in_u64 in Hn. rewrite Forall_forall in Hn. apply Hn, Hin.
Qed.

Lemma parser_output_witness :
  parser_knows (And [PartitionEquals "hour" 12; Not (Every 5)]) = true.
Proof.
  refine (proj2 (parser_output noon_literal _ _)). reflexivity.
Defined.

(** ** The callers of the clock *)

Lemma drive_app l1 l2 s : drive (l1 ++ l2) s = drive l1 s ≫= drive l2.
Proof.
  revert s. induction l1 as [|t l1 IH]; intros s; simpl; [reflexivity |].
  destruct (on_engine_tick t s) as [s'|]; simpl; [apply IH | reflexivity].
Qed.

Lemma effective_ticks_snoc l t :
  effective_ticks (l ++ [t]) = if 0 <? t then N.succ (effective_ticks l) else effective_ticks l.
Proof.
  unfold effective_ticks. rewrite filter_app, length_app.
  destruct (0 <? t) eqn:Ht.
  - apply N.ltb_lt in Ht. rewrite filter_cons_True by exact Ht. simpl. lia.
  - apply N.ltb_ge in Ht. rewrite filter_cons_False by lia. simpl. lia.
Qed.

Lemma drive_runs c0 engine_ticks s0 :
  well_formed c0 ->
  service_clock s0 = Some c0 ->
  service_snapshot s0 = Some (snapshot c0) ->
  exists s,
    drive engine_ticks s0 = Some s /\
    service_clock s = Some (N.iter (effective_ticks engine_ticks) next_state c0) /\
    service_snapshot s
      = Some (snapshot (N.iter (effective_ticks engine_ticks) next_state c0)) /\
    service_ready s = service_ready s0.
Proof.
  intros Hwf Hc Hs. induction engine_ticks as [|t l IH] using rev_ind.
  - exists s0. repeat split; assumption.
  - destruct IH as (s & Hd & Hc' & Hs' & Hr).
    rewrite drive_app, Hd, effective_ticks_snoc. cbn [mbind option_bind drive].
    unfold on_engine_tick. rewrite Hc'. destruct (0 <? t).
    + destruct (run_total (effective_ticks l) c0 Hwf) as [_ Hwf'].
      destruct (tick_total _ Hwf') as [o Ho]. rewrite Ho.
      apply tick_next_state in Ho as (_ & Ho & _).
      cbn [mbind option_bind]. eexists. split; [reflexivity |].
      cbn [service_clock service_snapshot service_ready].
      rewrite N.iter_succ, Ho. auto.
    + exists s. auto.
Qed.

Lemma hms_partitions c0 n :
  clock_partition_order c0 = LeastSignificantFirst ->
  clock_partitions c0
  = [mkPartitionState "sec" 0 60; mkPartitionState "min" 0 60; mkPartitionState "hour" 0 24] ->
  clock_partitions (N.iter n next_state c0)
  = [mkPartitionState "sec" (n mod 60) 60; mkPartitionState "min" (n / 60 mod 60) 60;
     mkPartitionState "hour" (n / 3600 mod 24) 24].
Proof.
  intros Ho Hp. rewrite iter_partitions, Ho, Hp, iter_advance_lsf.
  - cbn [set_digits set_value part_name part_modulus].
    rewrite N.Div0.div_div. reflexivity.
  - repeat constructor.
Qed.

(** X14: before [start] the service ignores the engine and the page shows
    0:0:0; once started, whatever engine ticks the effect runs on, the page
    shows the seconds, minutes and hours of the number of engine ticks above
    0 it has seen. *)
Theorem service_shows_time (engine_ticks : list N) :
  drive engine_ticks service_new = Some service_new /\
  time (service_snapshot service_new) = mkClockTime 0 0 0 /\
  exists s0 s,
    start service_new = Ok s0 /\
    drive engine_ticks s0 = Some s /\
    service_ready s = true /\
    time (service_snapshot s)
    = let n := effective_ticks engine_ticks in
      {| time_sec := n mod 60; time_min := n / 60 mod 60; time_hour := n / 3600 mod 24 |}.
Proof.
  split; [| split; [reflexivity |]].
  - induction engine_ticks as [|t l IH]; [reflexivity | exact IH].
  - set (c0 := fresh_clock (builder_partitions start_builder) LeastSignificantFirst []).
    assert (build start_builder = Ok c0) as Hb by (vm_compute; reflexivity).
    pose proof (build_well_formed _ _ Hb) as Hwf.
    set (s0 := mkClockService (Some c0) true (Some (snapshot c0)) []).
    destruct (drive_runs c0 engine_ticks s0 Hwf eq_refl eq_refl) as (s & Hd & _ & Hs & Hr).
    exists s0, s. split; [| split; [exact Hd | split; [exact Hr |]]].
    + unfold start. rewrite Hb. reflexivity.
    + rewrite Hs. cbv zeta. unfold snapshot.
      rewrite (hms_partitions c0 _ eq_refl eq_refl). reflexivity.
Qed.

(** ** The demo page *)

Lemma js_number_safe value : value <= MAX_SAFE_INTEGER -> js_number value = Some value.
Proof.
  intros H. unfold js_number. apply N.leb_le in H. rewrite H. reflexivity.
Qed.

Lemma pad_two_digits n : n < 100 -> pad n = two_digits n.
Proof.
  intros Hn.
  assert (forallb (fun k => String.eqb (pad (N.of_nat k)) (two_digits (N.of_nat k)))
                  (seq 0 100) = true) as H by (vm_compute; reflexivity).
  rewrite forallb_forall in H. specialize (H (N.to_nat n)).
  rewrite N2Nat.id in H. apply String.eqb_eq, H, in_seq. lia.
Qed.

Lemma updatePulses_readout pulses d :
  demo_clock (updatePulses pulses d) = demo_clock d /\
  demo_state (updatePulses pulses d) = demo_state d /\
  demo_time_text (updatePulses pulses d) = demo_time_text d /\
  demo_tick_text (updatePulses pulses d) = demo_tick_text d.
Proof. destruct pulses; simpl; auto. Qed.

Lemma frame_tick_readout d :
  well_formed (demo_clock d) ->
  exists d',
    frame_tick d = Some d' /\ demo_clock d' = next_state (demo_clock d) /\
    readout_current d'.
Proof.
  intros Hwf. destruct (tick_total _ Hwf) as [o Ho]. unfold frame_tick. rewrite Ho.
  apply tick_next_state in Ho as (_ & Ho & _).
  cbn [mbind option_bind]. eexists. split; [reflexivity |].
  unfold readout_current.
  destruct (updatePulses_readout (out_pulses o)
              (updateReadout
                 {| demo_clock := next_state (demo_clock d);
                    demo_state := Some (out_snapshot o);
                    demo_last_pulses := demo_last_pulses d;
                    demo_time_text := demo_time_text d;
                    demo_tick_text := demo_tick_text d;
                    demo_pulses_text := demo_pulses_text d |}))
    as (-> & -> & -> & ->).
  rewrite Ho. unfold updateReadout. cbn. auto.
Qed.

Lemma frames_succ n d : frames (N.succ n) d = frames n d ≫= frame_tick.
Proof. unfold frames. rewrite N.iter_succ. reflexivity. Qed.

Lemma frames_readout n d0 :
  well_formed (demo_clock d0) -> readout_current d0 ->
  exists d,
    frames n d0 = Some d /\ demo_clock d = N.iter n next_state (demo_clock d0) /\
    readout_current d.
Proof.
  intros Hwf H0. induction n as [|n (d & Hd & Hc & Hr)] using N.peano_ind.
  - exists d0. auto.
  - destruct (run_total n _ Hwf) as [_ Hwf']. rewrite <- Hc in Hwf'.
    destruct (frame_tick_readout d Hwf') as (d' & Hf & Hc' & Hr').
    exists d'. rewrite frames_succ, Hd, N.iter_succ, <- Hc. auto.
Qed.

(** X15: the demo page starts, and after [n] runs of its tick loop the time
    element reads the two-digit hours, minutes and seconds of [n], eight
    characters in all; the tick element reads the digits of the tick
    counter, [n] modulo 2^64, as long as that is at most
    [Number.MAX_SAFE_INTEGER], and the digits of a rounded number above. *)
Theorem demo_readout (n : N) :
  exists d0 d,
    demo_start = Some d0 /\ frames n d0 = Some d /\
    (exists text,
       demo_time_text d = Written text /\
       text = (two_digits (n / 3600 mod 24) ++ ":" ++ two_digits (n / 60 mod 60) ++ ":" ++
               two_digits (n mod 60))%string /\
       String.length text = 8%nat) /\
    demo_tick_text d
    = if n mod U64.modulus <=? MAX_SAFE_INTEGER
      then Written (js_string (n mod U64.modulus))
      else Rounded.
Proof.
  set (b := pulse_when "top_of_hour"
              (And [PartitionEquals "sec" 0; PartitionEquals "min" 0])
              (pulse_every "slow" 1234
                 (pulse_every "wireguard" 21 (pulse_every "fast" 5 start_builder)))).
  set (c0 := fresh_clock (builder_partitions b) LeastSignificantFirst (builder_pulses b)).
  assert (build b = Ok c0) as Hb by (vm_compute; reflexivity).
  assert (buildClock = Some c0) as Hc by (vm_compute; reflexivity).
  pose proof (build_well_formed _ _ Hb) as Hwf.
  set (d0 := updateReadout
               {| demo_clock := c0; demo_state := Some (snapshot c0);
                  demo_last_pulses := []; demo_time_text := Initial;
                  demo_tick_text := Initial; demo_pulses_text := Initial |}).
  assert (readout_current d0) as H0 by (repeat split).
  destruct (frames_readout n d0 Hwf H0) as (d & Hd & Hcd & Hs & Htime & Htick).
  change (demo_clock d0) with c0 in Hcd.
  exists d0, d. split; [unfold demo_start; rewrite Hc; reflexivity |].
  split; [exact Hd |]. split.
  - eexists. split; [| split; [reflexivity |]].
    + rewrite Htime, Hs, Hcd. unfold time_text, getPartition_value, snapshot.
      cbn [snap_partitions].
      rewrite (hms_partitions c0 n eq_refl eq_refl).
      cbn [List.find part_name part_value String.eqb Ascii.eqb Bool.eqb].
      assert (n / 3600 mod 24 < 100 /\ n / 60 mod 60 < 100 /\ n mod 60 < 100)
        as (H1 & H2 & H3) by (repeat split; nlia).
      rewrite !js_number_safe by (unfold MAX_SAFE_INTEGER; simpl; lia).
      rewrite !pad_two_digits by assumption. reflexivity.
    + reflexivity.
  - rewrite Htick, Hcd. unfold tick_text, js_number, snapshot. cbn [snap_tick].
    destruct (iter_counters n c0) as [-> _]; [vm_compute; reflexivity .. |].
    change (clock_epoch c0 * U64.modulus + clock_tick c0 + n) with n.
    destruct (n mod U64.modulus <=? MAX_SAFE_INTEGER); reflexivity.
Qed.

Lemma foldl_unshift pulses lastPulses :
  foldl (fun acc pulse => pulse_line pulse :: acc) lastPulses pulses
  = reverse (pulse_line <$> pulses) ++ lastPulses.
Proof.
  revert lastPulses. induction pulses as [|p ps IH]; intros lastPulses; [reflexivity |].
  cbn [foldl]. rewrite IH, fmap_cons, reverse_cons, <- app_assoc. reflexivity.
Qed.

Lemma take_app_take {A} (n : nat) (l1 l2 : list A) :
  take n (l1 ++ take n l2) = take n (l1 ++ l2).
Proof.
  rewrite !take_app, take_take. f_equal. f_equal. lia.
Qed.

Lemma unshift_pulses_spec pulses lastPulses :
  pulses <> [] ->
  unshift_pulses pulses lastPulses
  = take 4 (reverse (pulse_line <$> pulses) ++ lastPulses).
Proof.
  intros H. destruct pulses as [|p ps]; [congruence |].
  unfold unshift_pulses. rewrite foldl_unshift. reflexivity.
Qed.

(** X16: whatever pulses the outcomes carry, [lastPulses] holds the lines of
    the four most recent pulses, the newest first, and never more than
    four. *)
Theorem last_pulses_window (outcomes : list (list PulseFired)) :
  let lastPulses := foldl (fun acc pulses => unshift_pulses pulses acc) [] outcomes in
  lastPulses = take 4 (reverse (pulse_line <$> concat outcomes)) /\
  (length lastPulses <= 4)%nat.
Proof.
  cbv zeta.
  assert (foldl (fun acc pulses => unshift_pulses pulses acc) [] outcomes
          = take 4 (reverse (pulse_line <$> concat outcomes))) as H.
  { induction outcomes as [|pulses l IH] using rev_ind; [reflexivity |].
    rewrite foldl_app, IH, concat_app, fmap_app, reverse_app. cbn [foldl concat].
    rewrite app_nil_r. destruct (decide (pulses = [])) as [-> | Hne].
    - simpl. reflexivity.
    - rewrite (unshift_pulses_spec _ _ Hne). apply take_app_take. }
  split; [exact H |]. rewrite H, length_take. lia.
Qed.

Lemma tail_app_nonempty {A} (l k : list A) : l <> [] -> tail (l ++ k) = tail l ++ k.
Proof. destruct l; [congruence | reflexivity]. Qed.

Lemma tail_drop {A} (n : nat) (l : list A) : tail (drop n l) = drop (S n) l.
Proof.
  revert l. induction n as [|n IH]; intros [|x l]; simpl; auto.
Qed.

(** X17: the list a [PerfMeter] keeps with [push] is the last 120 values
    pushed, in order, and never longer than 120. *)
Theorem push_window {A : Type} (values : list A) :
  let window := foldl push [] values in
  window = drop (length values - 120) values /\ (length window <= 120)%nat.
Proof.
  cbv zeta.
  assert (foldl push [] values = drop (length values - 120) values) as H.
  { induction values as [|v l IH] using rev_ind; [reflexivity |].
    rewrite foldl_app. cbn [foldl]. rewrite IH. unfold push.
    rewrite !length_app, length_drop. cbn [length].
    destruct (120 <? length l - (length l - 120) + 1)%nat eqn:Hlen.
    - apply Nat.ltb_lt in Hlen.
      rewrite tail_app_nonempty, tail_drop.
      + rewrite drop_app_le by lia. f_equal. f_equal. lia.
      + intros Hnil. apply (f_equal length) in Hnil. rewrite length_drop in Hnil.
        simpl in Hnil. lia.
    - apply Nat.ltb_ge in Hlen.
      replace (length l - 120)%nat with 0%nat by lia.
      replace (length l + 1 - 120)%nat with 0%nat by lia. reflexivity. }
  split; [exact H |]. rewrite H, length_drop. lia.
Qed.

(** ** The Game of Life skin *)

Lemma fill_grid_length size f : length (fill_grid size f) = size.
Proof. unfold fill_grid. rewrite length_fmap, length_seq. reflexivity. Qed.

Lemma fill_grid_rows size f : Forall (fun row => length row = size) (fill_grid size f).
Proof.
  unfold fill_grid. apply Forall_fmap, Forall_forall. intros y _. simpl.
  rewrite length_fmap, length_seq. reflexivity.
Qed.

Lemma cell_fill_grid size f x y :
  (x < size)%nat -> (y < size)%nat -> cell (fill_grid size f) x y = f x y.
Proof.
  intros Hx Hy. unfold cell, fill_grid.
  rewrite list_lookup_fmap, lookup_seq_lt by exact Hy.
  cbn [fmap option_fmap option_map mbind option_bind].
  rewrite list_lookup_fmap, lookup_seq_lt by exact Hx. reflexivity.
Qed.

Lemma fill_grid_ext size f g :
  (forall x y, (x < size)%nat -> (y < size)%nat -> f x y = g x y) ->
  fill_grid size f = fill_grid size g.
Proof.
  intros H. unfold fill_grid. apply list_fmap_ext. intros i y Hy.
  apply lookup_seq in Hy as [-> Hy]. apply list_fmap_ext. intros j x Hx.
  apply lookup_seq in Hx as [-> Hx]. apply H; assumption.
Qed.

Lemma wrap_lt i d size : (0 < size)%nat -> (-1 <= d <= 1)%Z -> (wrap i d size < size)%nat.
Proof.
  intros Hs Hd. unfold wrap. rewrite Z.rem_mod_nonneg by lia.
  apply Nat2Z.inj_lt. rewrite Z2Nat.id by (apply Z.mod_pos_bound; lia).
  apply Z.mod_pos_bound. lia.
Qed.

Lemma wrap_shift i d a size :
  (0 < size)%nat -> (-1 <= d <= 1)%Z ->
  ((wrap i d size + a) mod size = wrap ((i + a) mod size) d size)%nat.
Proof.
  intros Hs Hd. unfold wrap. rewrite !Z.rem_mod_nonneg by lia.
  apply Nat2Z.inj. rewrite Nat2Z.inj_mod, Nat2Z.inj_add.
  rewrite !Z2Nat.id by (apply Z.mod_pos_bound; lia).
  rewrite Nat2Z.inj_mod, Nat2Z.inj_add.
  set (s := Z.of_nat size). set (zi := Z.of_nat i). set (za := Z.of_nat a).
  assert (0 < s)%Z by lia.
  rewrite Zplus_mod_idemp_l.
  replace ((zi + za) mod s + d + s)%Z with ((zi + za) mod s + (d + s))%Z by lia.
  rewrite Zplus_mod_idemp_l. f_equal. lia.
Qed.

Lemma countNeighbors_shift a b grid x y :
  (x < length grid)%nat -> (y < length grid)%nat ->
  countNeighbors (shift_grid a b grid) x y
  = countNeighbors grid ((x + a) mod length grid) ((y + b) mod length grid).
Proof.
  intros Hx Hy. assert (0 < length grid)%nat as Hs by lia.
  unfold countNeighbors, shift_grid. rewrite fill_grid_length.
  unfold neighbor_offsets. cbn [foldl].
  rewrite !cell_fill_grid by (apply wrap_lt; lia).
  rewrite !wrap_shift by lia. reflexivity.
Qed.

Lemma nextGeneration_length grid : length (nextGeneration grid) = length grid.
Proof. apply fill_grid_length. Qed.

Lemma shift_grid_length a b grid : length (shift_grid a b grid) = length grid.
Proof. apply fill_grid_length. Qed.

(** X18: [nextGeneration] returns a square grid of the side of its argument,
    whatever the rows of the argument, and it commutes with moving the grid
    around the torus by any number of columns and rows. *)
Theorem generation_commutes_with_shift (a b : nat) (grid : list (list bool)) :
  length (nextGeneration grid) = length grid /\
  Forall (fun row => length row = length grid) (nextGeneration grid) /\
  nextGeneration (shift_grid a b grid) = shift_grid a b (nextGeneration grid).
Proof.
  split; [apply fill_grid_length |]. split; [apply fill_grid_rows |].
  transitivity (fill_grid (length grid) (next_cell (shift_grid a b grid))).
  { unfold nextGeneration. rewrite shift_grid_length. reflexivity. }
  transitivity
    (fill_grid (length grid)
       (fun x y => cell (nextGeneration grid)
                     ((x + a) mod length grid) ((y + b) mod length grid))).
  2: { unfold shift_grid. rewrite nextGeneration_length. reflexivity. }
  apply fill_grid_ext. intros x y Hx Hy.
  assert (0 < length grid)%nat as Hs by lia.
  unfold nextGeneration. rewrite cell_fill_grid by (apply Nat.mod_upper_bound; lia).
  unfold next_cell. rewrite (countNeighbors_shift a b grid x y Hx Hy).
  unfold shift_grid at 1. rewrite (cell_fill_grid _ _ x y Hx Hy). reflexivity.
Qed.

Lemma isStagnant_scan_spec grid prevGrid cells same hasLife :
  Forall (fun c => (snd c < length prevGrid)%nat) cells ->
  isStagnant_scan grid prevGrid cells same hasLife
  = Some (negb (hasLife || existsb (fun '(x, y) => cell grid x y) cells)
          || (same && forallb (fun '(x, y) =>
                         bool_decide (read_cell grid x y = read_cell prevGrid x y)) cells)).
Proof.
  intros H. revert same hasLife.
  induction H as [|[x y] rest Hy _ IH]; intros same hasLife.
  - simpl. rewrite orb_false_r, andb_true_r. reflexivity.
  - simpl in Hy. apply lookup_lt_is_Some in Hy as [prev_row Hrow].
    cbn [isStagnant_scan existsb forallb]. rewrite Hrow. cbn [mbind option_bind].
    assert (read_cell prevGrid x y = prev_row !! x) as ->
      by (unfold read_cell; rewrite Hrow; reflexivity).
    rewrite IH. clear IH.
    destruct (cell grid x y), hasLife, same;
      repeat case_bool_decide; try congruence; simpl;
      try reflexivity;
      destruct (existsb _ rest), (forallb _ rest); reflexivity.
Qed.

Lemma grid_cells_rows size : Forall (fun c => (snd c < size)%nat) (grid_cells size).
Proof.
  apply Forall_forall. intros [x y] Hin. unfold grid_cells in Hin.
  apply list_elem_of_bind in Hin as (y' & Hin & Hy).
  apply list_elem_of_bind in Hin as (x' & Hin & Hx).
  apply list_elem_of_singleton in Hin as [= -> ->].
  apply elem_of_seq in Hy. simpl. lia.
Qed.

Lemma grid_cells_within (grid prevGrid : list (list bool)) :
  (length grid <= length prevGrid)%nat ->
  Forall (fun c => (snd c < length prevGrid)%nat) (grid_cells (length grid)).
Proof.
  intros Hlen. eapply Forall_impl; [apply grid_cells_rows |]. simpl. intros c Hc. lia.
Qed.

Lemma isStagnant_without_life grid prevGrid :
  (length grid <= length prevGrid)%nat ->
  has_life grid = false ->
  isStagnant grid prevGrid = Some true.
Proof.
  intros Hlen Hdead. unfold isStagnant.
  rewrite (isStagnant_scan_spec _ _ _ _ _ (grid_cells_within _ _ Hlen)).
  fold (has_life grid). rewrite Hdead. reflexivity.
Qed.

(** X19: when the previous grid has a row for every row of the grid,
    [isStagnant] does not throw, and its early exit changes nothing: the
    answer is that the grid has no live cell or reads the same as the
    previous grid in every cell. *)
Theorem isStagnant_early_exit (grid prevGrid : list (list bool)) :
  (length grid <= length prevGrid)%nat ->
  isStagnant grid prevGrid = Some (negb (has_life grid) || same_cells grid prevGrid).
Proof.
  intros Hlen. unfold isStagnant.
  rewrite (isStagnant_scan_spec _ _ _ _ _ (grid_cells_within _ _ Hlen)).
  reflexivity.
Qed.

Lemma isStagnant_early_exit_witness :
  isStagnant [[true; false]; [false; true]] [[true; true]; [false; true]]
  = Some (negb (has_life [[true; false]; [false; true]])
          || same_cells [[true; false]; [false; true]] [[true; true]; [false; true]]).
Proof.
  apply (isStagnant_early_exit [[true; false]; [false; true]] [[true; true]; [false; true]]).
  simpl. lia.
Defined.

Lemma countNeighbors_dead grid x y :
  (forall x' y', cell grid x' y' = false) -> countNeighbors grid x y = 0%nat.
Proof.
  intros H. unfold countNeighbors, neighbor_offsets. cbn [foldl]. rewrite !H. reflexivity.
Qed.

Lemma has_life_fill_grid size f :
  has_life (fill_grid size f)
  = existsb (fun '(x, y) => f x y) (grid_cells size).
Proof.
  unfold has_life. rewrite fill_grid_length.
  pose proof (grid_cells_rows size) as Hrows.
  assert (Forall (fun c => (fst c < size)%nat) (grid_cells size)) as Hcols.
  { apply Forall_forall. intros [x y] Hin. unfold grid_cells in Hin.
    apply list_elem_of_bind in Hin as (y' & Hin & Hy).
    apply list_elem_of_bind in Hin as (x' & Hin & Hx).
    apply list_elem_of_singleton in Hin as [= -> ->].
    apply elem_of_seq in Hx. simpl. lia. }
  induction (grid_cells size) as [|[x y] cells IH]; [reflexivity |].
  apply Forall_cons in Hrows as [Hy Hrows]. apply Forall_cons in Hcols as [Hx Hcols].
  cbn [existsb]. rewrite (cell_fill_grid _ _ x y Hx Hy), (IH Hrows Hcols). reflexivity.
Qed.

(** X20: a grid without a live cell has no live cell in the next
    generation either, and [isStagnant] reports that generation as
    stagnant. *)
Theorem dead_grid_stays_dead (grid : list (list bool)) :
  (forall x y, cell grid x y = false) ->
  nextGeneration grid = createGrid (length grid) /\
  isStagnant (nextGeneration grid) grid = Some true.
Proof.
  intros Hdead.
  assert (nextGeneration grid = createGrid (length grid)) as Hnext.
  { apply fill_grid_ext. intros x y _ _. unfold next_cell.
    rewrite (countNeighbors_dead grid x y Hdead), Hdead. reflexivity. }
  split; [exact Hnext |].
  apply isStagnant_without_life; [rewrite nextGeneration_length; lia |].
  rewrite Hnext. unfold createGrid. rewrite has_life_fill_grid.
  induction (grid_cells (length grid)) as [|[x y] cells IH]; [reflexivity | exact IH].
Qed.

Lemma dead_grid_stays_dead_witness :
  nextGeneration [[false; false]; [false; false]]
  = createGrid (length [[false; false]; [false; false]]) /\
  isStagnant (nextGeneration [[false; false]; [false; false]])
             [[false; false]; [false; false]] = Some true.
Proof.
  apply (dead_grid_stays_dead [[false; false]; [false; false]]).
  intros [|[|x]] [|[|y]]; reflexivity.
Defined.

(** ** The skin registry *)

Section SkinRegistryProperties.
Context {Skin : Type} (skin_id : Skin -> string).

Lemma get_map_set key (value : Skin) id entries :
  get id (map_set key value entries)
  = if String.eqb key id then Some value else get id entries.
Proof.
  unfold get. induction entries as [|[k v] rest IH]; simpl.
  - destruct (String.eqb key id); reflexivity.
  - destruct (String.eqb k key) eqn:Hk; simpl.
    + apply String.eqb_eq in Hk as ->. destruct (String.eqb key id); reflexivity.
    + destruct (String.eqb k id) eqn:Hi; simpl.
      * apply String.eqb_eq in Hi as ->. rewrite String.eqb_sym, Hk. reflexivity.
      * exact IH.
Qed.

Lemma map_set_keys key (value : Skin) entries :
  fst <$> map_set key value entries
  = if bool_decide (key ∈ fst <$> entries) then fst <$> entries
    else (fst <$> entries) ++ [key].
Proof.
  induction entries as [|[k v] rest IH]; cbn [map_set].
  - case_bool_decide as H; [| reflexivity]. apply elem_of_nil in H. contradiction.
  - rewrite (fmap_cons fst (k, v) rest). cbn [fst].
    destruct (String.eqb k key) eqn:Hk.
    + apply String.eqb_eq in Hk as ->.
      rewrite bool_decide_eq_true_2 by (left). reflexivity.
    + apply String.eqb_neq in Hk. rewrite fmap_cons, IH. cbn [fst].
      case_bool_decide as H1; case_bool_decide as H2; try reflexivity.
      * exfalso. apply H2. right. exact H1.
      * exfalso. apply elem_of_cons in H2 as [-> | H2]; [congruence | tauto].
Qed.

Lemma map_set_consistent key value entries :
  Forall (fun entry => fst entry = skin_id (snd entry)) entries ->
  key = skin_id value ->
  Forall (fun entry => fst entry = skin_id (snd entry)) (map_set key value entries).
Proof.
  intros H Hk. induction H as [|[k v] rest Hkv Hrest IH]; simpl.
  - repeat constructor. exact Hk.
  - destruct (String.eqb k key); constructor;
      [exact Hk | exact Hrest | exact Hkv | exact IH].
Qed.

Lemma registered_snoc skins skin :
  registered skin_id (skins ++ [skin]) = register skin_id skin (registered skin_id skins).
Proof. unfold registered. rewrite foldl_app. reflexivity. Qed.

Lemma registered_consistent skins :
  Forall (fun entry => fst entry = skin_id (snd entry)) (registered skin_id skins) /\
  NoDup (fst <$> registered skin_id skins).
Proof.
  induction skins as [|skin skins [IH1 IH2]] using rev_ind.
  - split; constructor.
  - rewrite registered_snoc. unfold register. split.
    + apply map_set_consistent; [exact IH1 | reflexivity].
    + rewrite map_set_keys. case_bool_decide as Hin; [exact IH2 |].
      apply NoDup_app. split; [exact IH2 |]. split.
      * intros k Hk Hk'. apply list_elem_of_singleton in Hk' as ->. tauto.
      * apply NoDup_singleton.
Qed.

Lemma consistent_ids entries :
  Forall (fun entry => fst entry = skin_id (snd entry)) entries ->
  skin_id <$> list_skins entries = fst <$> entries.
Proof.
  intros H. unfold list_skins. induction H as [|[k v] rest Hkv _ IH]; [reflexivity |].
  rewrite !fmap_cons, IH. simpl in *. rewrite Hkv. reflexivity.
Qed.

Lemma get_consistent entries skin :
  Forall (fun entry => fst entry = skin_id (snd entry)) entries ->
  NoDup (fst <$> entries) ->
  skin ∈ list_skins entries ->
  get (skin_id skin) entries = Some skin.
Proof.
  unfold get, list_skins. intros Hc. induction Hc as [|[k v] rest Hkv Hrest IH]; intros Hn Hin.
  - apply elem_of_nil in Hin. contradiction.
  - rewrite fmap_cons in Hin. rewrite fmap_cons in Hn. simpl in Hkv, Hin, Hn. apply NoDup_cons in Hn as [Hk Hn].
    simpl. apply elem_of_cons in Hin as [-> | Hin].
    + rewrite <- Hkv, String.eqb_refl. reflexivity.
    + destruct (String.eqb k (skin_id skin)) eqn:Hks; [| apply IH; assumption].
      apply String.eqb_eq in Hks. exfalso. apply Hk. rewrite Hks.
      apply list_elem_of_fmap in Hin as ([k' v'] & -> & Hin).
      apply list_elem_of_fmap. exists (k', v'). split; [| exact Hin].
      rewrite Forall_forall in Hrest. symmetry. apply (Hrest _ Hin).
Qed.

(** X21: after any sequence of [register] calls, [get] returns the skin
    registered last under the identifier, [undefined] when there is none;
    [list] holds one skin for each identifier, and [get] finds each of
    them. *)
Theorem registry_lookup (skins : list Skin) (id : string) :
  get id (registered skin_id skins) = last (filter (fun skin => skin_id skin = id) skins) /\
  NoDup (skin_id <$> list_skins (registered skin_id skins)) /\
  (forall skin, skin ∈ list_skins (registered skin_id skins) ->
     get (skin_id skin) (registered skin_id skins) = Some skin).
Proof.
  destruct (registered_consistent skins) as [Hc Hn].
  split; [| split].
  - clear Hc Hn. induction skins as [|skin skins IH] using rev_ind; [reflexivity |].
    rewrite registered_snoc. unfold register. rewrite get_map_set, filter_app.
    destruct (String.eqb (skin_id skin) id) eqn:Hid.
    + apply String.eqb_eq in Hid. rewrite filter_cons_True by exact Hid.
      rewrite filter_nil, last_snoc. reflexivity.
    + apply String.eqb_neq in Hid. rewrite filter_cons_False by exact Hid.
      rewrite filter_nil, app_nil_r. exact IH.
  - rewrite (consistent_ids _ Hc). exact Hn.
  - intros skin. apply get_consistent; assumption.
Qed.

Lemma random_index_lt rnd n :
  (random_num rnd < random_den rnd)%nat -> (0 < n)%nat -> (random_index rnd n < n)%nat.
Proof.
  intros Hr Hn. unfold random_index. apply Nat.Div0.div_lt_upper_bound. nia.
Qed.

Lemma randomExcept_spec rnd excludeId entries :
  (random_num rnd < random_den rnd)%nat ->
  Forall (fun entry => fst entry = skin_id (snd entry)) entries ->
  match randomExcept skin_id rnd excludeId entries with
  | Some next =>
      next ∈ list_skins entries /\
      (skin_id next = excludeId ->
       forall skin, skin ∈ list_skins entries -> skin_id skin = excludeId)
  | None => entries = []
  end.
Proof.
  intros Hr Hc. unfold randomExcept.
  destruct (List.filter _ (list_skins entries)) as [|s0 filtered] eqn:Hf.
  - assert (forall skin, skin ∈ list_skins entries -> skin_id skin = excludeId) as Hall.
    { intros skin Hin. apply list_elem_of_In in Hin.
      destruct (String.eqb (skin_id skin) excludeId) eqn:He; [apply String.eqb_eq, He |].
      assert (In skin (List.filter (fun s => negb (String.eqb (skin_id s) excludeId))
                         (list_skins entries))) as Hin'
        by (apply filter_In; rewrite He; auto).
      rewrite Hf in Hin'. destruct Hin'. }
    destruct Hc as [|[k v] rest Hkv Hrest]; [reflexivity |].
    unfold get. simpl in *. rewrite Hkv, (Hall v) by left.
    rewrite String.eqb_refl. simpl. split; [left | intros _; exact Hall].
  - rewrite <- Hf.
    destruct (lookup_lt_is_Some_2 (List.filter (fun s => negb (String.eqb (skin_id s) excludeId))
                                     (list_skins entries))
                (random_index rnd (length (List.filter (fun s => negb (String.eqb (skin_id s) excludeId))
                                     (list_skins entries))))) as [next Hnext].
    { apply random_index_lt; [exact Hr |]. rewrite Hf. simpl. lia. }
    rewrite Hnext. apply list_elem_of_lookup_2, list_elem_of_In, filter_In in Hnext
      as [Hin Hid].
    split; [apply list_elem_of_In, Hin |].
    intros He. rewrite He, String.eqb_refl in Hid. discriminate.
Qed.

(** X22: [nextSkin] leaves the canvas without a skin only when it had none
    and none is registered; the skin it selects is a registered one (or the
    current one, kept), and it has the identifier of the current skin only
    when no skin with another identifier is registered. *)
Theorem nextSkin_changes (rnd : Random) (current : option Skin) (skins : list Skin) :
  (random_num rnd < random_den rnd)%nat ->
  match nextSkin skin_id rnd current (registered skin_id skins) with
  | Some next =>
      (Some next = current \/ next ∈ list_skins (registered skin_id skins)) /\
      (forall c, current = Some c -> skin_id next = skin_id c ->
         forall skin, skin ∈ list_skins (registered skin_id skins) ->
                      skin_id skin = skin_id c)
  | None => current = None /\ registered skin_id skins = []
  end.
Proof.
  intros Hr. destruct (registered_consistent skins) as [Hc _].
  unfold nextSkin. destruct current as [c|].
  - pose proof (randomExcept_spec rnd (skin_id c) _ Hr Hc) as H.
    destruct (randomExcept skin_id rnd (skin_id c) (registered skin_id skins)) as [next|].
    + destruct H as [Hin Hall]. split; [right; exact Hin |].
      intros c' [= <-]. exact Hall.
    + rewrite H. split; [left; reflexivity |].
      intros c' _ _ skin Hin. apply elem_of_nil in Hin. contradiction.
  - unfold random. destruct (list_skins (registered skin_id skins)) as [|s0 all] eqn:Hall.
    + split; [reflexivity |]. apply fmap_nil_inv in Hall. exact Hall.
    + destruct (lookup_lt_is_Some_2 (s0 :: all) (random_index rnd (length (s0 :: all))))
        as [next Hnext].
      { apply random_index_lt; [exact Hr | simpl; lia]. }
      rewrite Hnext. split; [right; apply (list_elem_of_lookup_2 _ _ _ Hnext) |].
      intros c [=].
Qed.

End SkinRegistryProperties.

Lemma nextSkin_changes_witness :
  match nextSkin (fun s : string => s) (mkRandom 1 2) (Some "neon")
          (registered (fun s : string => s) ["neon"; "conway"]) with
  | Some next =>
      (Some next = Some "neon" \/
       next ∈ list_skins (registered (fun s : string => s) ["neon"; "conway"])) /\
      (forall c, Some "neon" = Some c -> next = c ->
         forall skin, skin ∈ list_skins (registered (fun s : string => s) ["neon"; "conway"]) ->
                      skin = c)
  | None => Some "neon" = None /\ registered (fun s : string => s) ["neon"; "conway"] = []
  end.
Proof.
  apply (nextSkin_changes (fun s : string => s) (mkRandom 1 2) (Some "neon")
           ["neon"; "conway"]).
  simpl. lia.
Defined.
